(** * pqdict: an indexed priority queue (PriorityQueue1.py)

    A shallow embedding of the [pqdict] class: a binary heap stored in a
    Python list of [_Node] objects, together with a dictionary that maps
    each key to the index of its node in the list.  Every method is a
    computation over the pair (heap, position) that either returns a value
    or raises; a raised exception leaves the mutations made so far in
    place, as in Python. *)

From stdpp Require Import base option list sorting gmap strings.
From Stdlib Require Import ZArith Lia.

(** ** Arithmetic on array indices

    "For every valid index [i] with children [2i+1], [2i+2]": the layout of
    the heap array.  The parent of [pos > 0] is the index whose child
    [pos] is. *)
Definition parent (pos : nat) : nat := (pos - 1) / 2.
Definition left_child (pos : nat) : nat := 2 * pos + 1.
Definition right_child (pos : nat) : nat := 2 * pos + 2.

(** ** The data model *)

Section Queue.
Context {K V P : Type} `{Countable K}.

(** The priority policy of a queue instance: the [keyfn] property (the
    configured priority-key function, the identity when none is given)
    and the [precedes] property (operator [lt] by default).

    [pushpop_prio] is the priority [pushpopitem] gives the value it is
    handed: [self._keyfn(value) if self._keyfn else value].  The test is
    the truth value of [self._keyfn], where [__setitem__] and the [keyfn]
    property test [is not None]: so [pushpop_prio] is [keyfn] when
    [self._keyfn] is [None] or a callable that is true (as functions
    are), and the value itself when [self._keyfn] is a callable that is
    false. *)
Variable keyfn : V → P.
Variable pushpop_prio : V → P.
Variable precedes : P → P → bool.

(** In [_sink] the winning child is the one that precedes its sibling;
    when neither child precedes the other the choice is left open, and
    [tie_right] fixes it: [true] takes the right child, [false] the left
    one.  Every result below holds for both settings. *)
Variable tie_right : bool.

(** class [_Node], with slots [key], [value] and [prio]. *)
Record _Node : Type := mk_Node { key : K; value : V; prio : P }.

(** The two attributes of a [pqdict] instance that the methods mutate:
    [self._heap] (a list of nodes) and [self._position] (a dict from key
    to list index). *)
Record pqdict : Type := mk_pqdict {
  _heap : list _Node;
  _position : gmap K nat
}.

(** The freshly constructed queue: [self._heap = []],
    [self._position = {}]. *)
Definition empty_pqdict : pqdict := mk_pqdict [] ∅.

(** *** Exceptions

    Every [KeyError] of the module is told apart by its argument: the
    message ["... is already in the queue"], the bare missing key raised
    by a dictionary lookup, [pop] or [del], and ["pqdict is empty"].
    [IndexError] is what indexing the list out of range raises. *)
Inductive KeyError_arg : Type :=
  | already_in_the_queue (k : K)
  | missing_key (k : K)
  | pqdict_is_empty.

Inductive exn : Type :=
  | KeyError (a : KeyError_arg)
  | IndexError.

(** *** A state-and-exception monad

    A method takes the queue and gives back the queue as the call left
    it, with either the exception raised or the value returned. *)
Definition M (A : Type) : Type := pqdict → pqdict * (exn + A).

Definition ret {A} (a : A) : M A := λ q, (q, inr a).
Definition raise {A} (e : exn) : M A := λ q, (q, inl e).
Definition bind {A B} (m : M A) (f : A → M B) : M B :=
  λ q, match m q with
       | (q', inr a) => f a q'
       | (q', inl e) => (q', inl e)
       end.
Definition get_heap : M (list _Node) := λ q, (q, inr (_heap q)).
Definition get_position : M (gmap K nat) := λ q, (q, inr (_position q)).
Definition set_heap (h : list _Node) : M unit :=
  λ q, (mk_pqdict h (_position q), inr tt).
Definition set_position (p : gmap K nat) : M unit :=
  λ q, (mk_pqdict (_heap q) p, inr tt).
(** A helper that cannot raise, run for its effect on the queue. *)
Definition modify (f : pqdict → pqdict) : M unit := λ q, (f q, inr tt).

(** [heap[pos]]: raises [IndexError] out of range. *)
Definition heap_at (pos : nat) : M _Node :=
  λ q, match _heap q !! pos with
       | Some n => (q, inr n)
       | None => (q, inl IndexError)
       end.

(** [position[key]]: raises [KeyError(key)] when the key is missing. *)
Definition position_at (k : K) : M nat :=
  λ q, match _position q !! k with
       | Some pos => (q, inr pos)
       | None => (q, inl (KeyError (missing_key k)))
       end.

(** [position.pop(key)] and [del position[key]]: remove the entry and
    give its index, or raise [KeyError(key)] and change nothing. *)
Definition position_pop (k : K) : M nat :=
  λ q, match _position q !! k with
       | Some pos => (mk_pqdict (_heap q) (delete k (_position q)), inr pos)
       | None => (q, inl (KeyError (missing_key k)))
       end.

Notation "'let!' x := m 'in' k" := (bind m (λ x, k))
  (at level 10, x name, m at level 100, k at level 200, only parsing).
Notation "'run!' m 'in' k" := (bind m (λ _, k))
  (at level 10, m at level 100, k at level 200, only parsing).

(** ** The restoring algorithms

    [_swim], [_sink] and [_reheapify] are called by the methods below but
    their bodies are not part of the module text; they follow the
    description of the heap/index core.  All three are only ever called
    with a position inside the array. *)

(** Modelled from the spec: the swap that [_swim] and [_sink] repeat is
    missing with them.  A swap exchanges the nodes at [i] and [j],
    "updating both array and index". *)
Definition swap_nodes (i j : nat) (q : pqdict) : pqdict :=
  match _heap q !! i, _heap q !! j with
  | Some a, Some b =>
      mk_pqdict (<[j := a]> (<[i := b]> (_heap q)))
                (<[key a := j]> (<[key b := i]> (_position q)))
  | _, _ => q
  end.

(** Modelled from the spec: the body of [_swim] is missing.  "Given an
    index whose entry may have too-high priority relative to its
    ancestors, repeatedly swap it with its parent while it precedes the
    parent, updating both array and index on each swap, stopping at the
    root or when the parent no longer yields."  The loop runs at most
    [pos] times, since every swap moves to a smaller index. *)
Fixpoint swim_loop (fuel pos : nat) (q : pqdict) : pqdict :=
  match fuel with
  | 0 => q
  | S fuel' =>
      if decide (pos = 0) then q
      else
        match _heap q !! pos, _heap q !! parent pos with
        | Some node, Some parent_node =>
            if precedes (prio node) (prio parent_node)
            then swim_loop fuel' (parent pos) (swap_nodes pos (parent pos) q)
            else q
        | _, _ => q
        end
  end.

(** Modelled from the spec: [_swim(pos)] is missing; it is the loop above,
    run to its end. *)
Definition _swim (pos : nat) (q : pqdict) : pqdict := swim_loop pos pos q.

(** Modelled from the spec: the choice of the child in [_sink] is missing
    with it.  "The child that most precedes its sibling (the winning child
    under the comparator)": the child that precedes the other one; the
    only child when there is one; by [tie_right] when neither precedes
    the other. *)
Definition winning_child (pos : nat) (heap : list _Node) : option nat :=
  match heap !! left_child pos, heap !! right_child pos with
  | None, _ => None
  | Some _, None => Some (left_child pos)
  | Some l, Some r =>
      if precedes (prio r) (prio l) then Some (right_child pos)
      else if precedes (prio l) (prio r) then Some (left_child pos)
      else if tie_right then Some (right_child pos)
      else Some (left_child pos)
  end.

(** Modelled from the spec: the body of [_sink] is missing.  "Given an
    index whose entry may have too-low priority relative to its
    descendants, repeatedly compare against the child that most precedes
    its sibling (the winning child under the comparator) and swap with it
    while that child precedes the current entry, stopping at a leaf or
    when no child yields."  The loop runs fewer than [len(heap)] times,
    since every swap moves to a larger index. *)
Fixpoint sink_loop (fuel pos : nat) (q : pqdict) : pqdict :=
  match fuel with
  | 0 => q
  | S fuel' =>
      match winning_child pos (_heap q) with
      | None => q
      | Some child_pos =>
          match _heap q !! pos, _heap q !! child_pos with
          | Some node, Some child_node =>
              if precedes (prio child_node) (prio node)
              then sink_loop fuel' child_pos (swap_nodes pos child_pos q)
              else q
          | _, _ => q
          end
      end
  end.

(** Modelled from the spec: [_sink(pos)] is missing; it is the loop above,
    run to its end. *)
Definition _sink (pos : nat) (q : pqdict) : pqdict :=
  sink_loop (length (_heap q)) pos q.

(** Modelled from the spec: the body of [_reheapify] is missing.  "Used
    after an in-place value change at a known position, where the entry
    might need to move in either direction: attempt sink, then attempt
    swim." *)
Definition _reheapify (pos : nat) (q : pqdict) : pqdict :=
  _swim pos (_sink pos q).

(** ** The methods of [pqdict] *)

(** [__len__]: [len(self._heap)]. *)
Definition __len__ : M nat :=
  let! heap := get_heap in ret (length heap).

(** [__contains__]: [key in self._position]. *)
Definition __contains__ (k : K) : M bool :=
  let! position := get_position in ret (bool_decide (is_Some (position !! k))).

(** [__getitem__]: [self._heap[self._position[key]].value]. *)
Definition __getitem__ (k : K) : M V :=
  let! pos := position_at k in
  let! node := heap_at pos in
  ret (value node).

(** [__setitem__]: the lookup [position[key]] decides between the
    [except KeyError] branch (add) and the [else] branch (update). *)
Definition __setitem__ (k : K) (v : V) : M unit :=
  let! heap := get_heap in
  let! position := get_position in
  match position !! k with
  | None =>
      let n := length heap in
      let prio := keyfn v in
      run! set_heap (heap ++ [mk_Node k v prio]) in
      run! set_position (<[k := n]> position) in
      modify (_swim n)
  | Some pos =>
      let prio := keyfn v in
      let! node := heap_at pos in
      run! set_heap (<[pos := mk_Node (key node) v prio]> heap) in
      modify (_reheapify pos)
  end.

(** [__delitem__].  [end is not node_to_delete] compares object
    identities; a node object sits at one index of the list only, so
    the test is [pos] against the last index.  The method has no
    [return] statement: it gives back [None]. *)
Definition __delitem__ (k : K) : M unit :=
  let! pos := position_pop k in
  let! node_to_delete := heap_at pos in
  let! heap := get_heap in
  match last heap with
  | None => raise IndexError
  | Some end_node =>
      run! set_heap (take (length heap - 1) heap) in
      if decide (pos = length heap - 1) then ret tt
      else
        let! heap := get_heap in
        let! position := get_position in
        run! set_heap (<[pos := end_node]> heap) in
        run! set_position (<[key end_node := pos]> position) in
        modify (_reheapify pos)
  end.

(** [topitem]: [IndexError] on [self._heap[0]] becomes
    [KeyError("pqdict is empty")]. *)
Definition topitem : M (K * V) :=
  let! heap := get_heap in
  match heap !! 0 with
  | None => raise (KeyError pqdict_is_empty)
  | Some node => ret (key node, value node)
  end.

(** [additem]. *)
Definition additem (k : K) (v : V) : M unit :=
  let! position := get_position in
  if decide (is_Some (position !! k))
  then raise (KeyError (already_in_the_queue k))
  else __setitem__ k v.

(** [pushpopitem]: the priority of the new node is [pushpop_prio value],
    the truth-value test of the source, not [keyfn value]. *)
Definition pushpopitem (k : K) (v : V) : M (K * V) :=
  let! heap := get_heap in
  let! position := get_position in
  let new_prio := pushpop_prio v in
  let node := mk_Node k v new_prio in
  let! present := __contains__ k in
  if present then raise (KeyError (already_in_the_queue k))
  else
    match heap with
    | top :: rest =>
        if precedes (prio top) (prio node) then
          (* node, heap[0] = heap[0], node *)
          run! set_heap (node :: rest) in
          run! set_position (<[k := 0]> position) in
          let! _ := position_pop (key top) in
          run! modify (_sink 0) in
          ret (key top, value top)
        else ret (k, v)
    | [] => ret (k, v)
    end.

(** [updateitem]. *)
Definition updateitem (k : K) (new_val : V) : M unit :=
  let! position := get_position in
  if decide (is_Some (position !! k))
  then __setitem__ k new_val
  else raise (KeyError (missing_key k)).

(** [replace_key]. *)
Definition replace_key (k new_key : K) : M unit :=
  let! present := __contains__ new_key in
  if present then raise (KeyError (already_in_the_queue new_key))
  else
    let! pos := position_pop k in
    let! position := get_position in
    run! set_position (<[new_key := pos]> position) in
    let! node := heap_at pos in
    let! heap := get_heap in
    set_heap (<[pos := mk_Node new_key (value node) (prio node)]> heap).

(** ** Public operations as data

    The public methods, so that "after every public operation" can be
    stated once.  [after o q] is the queue as the call leaves it, whether
    it returned or raised. *)
Inductive operation : Type :=
  | op_setitem (k : K) (v : V)
  | op_delitem (k : K)
  | op_additem (k : K) (v : V)
  | op_updateitem (k : K) (new_val : V)
  | op_pushpopitem (k : K) (v : V)
  | op_replace_key (k new_key : K)
  | op_getitem (k : K)
  | op_topitem.

Definition after (o : operation) (q : pqdict) : pqdict :=
  match o with
  | op_setitem k v => fst (__setitem__ k v q)
  | op_delitem k => fst (__delitem__ k q)
  | op_additem k v => fst (additem k v q)
  | op_updateitem k v => fst (updateitem k v q)
  | op_pushpopitem k v => fst (pushpopitem k v q)
  | op_replace_key k k' => fst (replace_key k k' q)
  | op_getitem k => fst (__getitem__ k q)
  | op_topitem => fst (topitem q)
  end.

(** The queues a client can build: the empty one, and whatever a public
    call leaves behind. *)
Inductive reachable : pqdict → Prop :=
  | reachable_empty : reachable empty_pqdict
  | reachable_after o q : reachable q → reachable (after o q).

(** ** The two invariants *)

(** Index consistency: the node at index [i] is filed under its key at
    [i], and every entry of the index points at a node with that key. *)
Definition index_consistent (q : pqdict) : Prop :=
  (∀ i n, _heap q !! i = Some n → _position q !! key n = Some i) ∧
  (∀ k i, _position q !! k = Some i →
          ∃ n, _heap q !! i = Some n ∧ key n = k).

(** Heap order: no child strictly precedes its parent. *)
Definition heap_ordered (heap : list _Node) : Prop :=
  ∀ i c ni nc,
    c = left_child i ∨ c = right_child i →
    heap !! i = Some ni → heap !! c = Some nc →
    precedes (prio nc) (prio ni) = false.

(** Boolean versions, to evaluate the invariants on a given queue. *)
Fixpoint indexed_from (i : nat) (heap : list _Node) (position : gmap K nat)
    : bool :=
  match heap with
  | [] => true
  | n :: heap' =>
      bool_decide (position !! key n = Some i)
      && indexed_from (S i) heap' position
  end.

Definition index_consistentb (q : pqdict) : bool :=
  indexed_from 0 (_heap q) (_position q)
  && bool_decide (map_Forall (λ k i, key <$> _heap q !! i = Some k)
                             (_position q)).

Definition edge_ok (heap : list _Node) (c : nat) : bool :=
  match c, heap !! c, heap !! parent c with
  | S _, Some nc, Some np => negb (precedes (prio nc) (prio np))
  | _, _, _ => true
  end.

Definition heap_orderedb (heap : list _Node) : bool :=
  forallb (edge_ok heap) (seq 0 (length heap)).


(** ** Draining a queue

    The client loop of priority-order extraction: as long as the queue is
    not empty, read the top item, then remove it by its key, and collect
    the items in the order they come out.  Every round removes one node,
    so [len(q)] rounds are enough. *)
Fixpoint drain_loop (fuel : nat) : M (list (K * V)) :=
  match fuel with
  | 0 => ret []
  | S fuel' =>
      let! n := __len__ in
      if decide (n = 0) then ret []
      else
        let! item := topitem in
        run! __delitem__ (fst item) in
        let! items := drain_loop fuel' in
        ret (item :: items)
  end.

Definition drain : M (list (K * V)) :=
  let! n := __len__ in drain_loop n.

(** The key and value of a node, as [topitem] reports them. *)
Definition item_of (node : _Node) : K * V := (key node, value node).

(** ** Insert, then remove the top

    What [pushpopitem] is compared with: [additem(key, value)], then read
    the top item, then remove it by its key; the item read is the result. *)
Definition additem_then_pop_top (k : K) (v : V) : M (K * V) :=
  run! additem k v in
  let! item := topitem in
  run! __delitem__ (fst item) in
  ret item.

(** Insert a key, then remove it again. *)
Definition additem_then_delitem (k : K) (v : V) : M unit :=
  run! additem k v in __delitem__ k.

(** What the comparator is required to be: priorities are "totally
    ordered by the configured precedes comparator, ties permitted", that
    is, [precedes] is a strict weak order. *)
Record priority_order : Prop := {
  precedes_irrefl : ∀ x, precedes x x = false;
  precedes_trans : ∀ x y z,
    precedes x y = true → precedes y z = true → precedes x z = true;
  precedes_negtrans : ∀ x y z,
    precedes x y = false → precedes y z = false → precedes x z = false
}.

(** The edge from [c] up to its parent respects the order. *)
Definition edge_fine (heap : list _Node) (c : nat) : Prop :=
  0 < c → ∀ nc np, heap !! c = Some nc → heap !! parent c = Some np →
  precedes (prio nc) (prio np) = false.

(** The nodes below [pos] do not precede the node above [pos]. *)
Definition skips_fine (heap : list _Node) (pos : nat) : Prop :=
  0 < pos → ∀ c nc ng, 0 < c → parent c = pos →
  heap !! c = Some nc → heap !! parent pos = Some ng →
  precedes (prio nc) (prio ng) = false.

(** The state [_swim pos] starts from: only the edge above [pos] may be
    out of order. *)
Definition swim_ready (heap : list _Node) (pos : nat) : Prop :=
  (∀ c, c ≠ pos → edge_fine heap c) ∧ skips_fine heap pos.

(** The state [_sink pos] starts from: only the edges below [pos] may be
    out of order. *)
Definition sink_ready (heap : list _Node) (pos : nat) : Prop :=
  (∀ c, parent c ≠ pos → edge_fine heap c) ∧ skips_fine heap pos.

(** The state [_reheapify pos] starts from: only the edges at [pos], above
    or below, may be out of order. *)
Definition reheapify_ready (heap : list _Node) (pos : nat) : Prop :=
  (∀ c, c ≠ pos → parent c ≠ pos → edge_fine heap c) ∧ skips_fine heap pos.

(** A property of queues that exchanging two distinct nodes of the array
    preserves. *)
Definition swap_stable (Φ : pqdict → Prop) : Prop :=
  ∀ i j q, i ≠ j → is_Some (_heap q !! i) → is_Some (_heap q !! j) →
           Φ q → Φ (swap_nodes i j q).

(** No two entries of the array tie: of any two, one strictly precedes
    the other. *)
Definition no_ties (heap : list _Node) : Prop :=
  ∀ i j ni nj, i ≠ j → heap !! i = Some ni → heap !! j = Some nj →
  precedes (prio ni) (prio nj) = true ∨ precedes (prio nj) (prio ni) = true.

(** The queue [__delitem__] hands to [_reheapify]: the last node has been
    taken off the array and put in the place of the node of [k]. *)
Definition moved_last (k : K) (pos : nat) (end_node : _Node) (q : pqdict)
    : pqdict :=
  mk_pqdict (<[pos := end_node]> (take (length (_heap q) - 1) (_heap q)))
            (<[key end_node := pos]> (delete k (_position q))).

(** ** Index arithmetic *)

Lemma parent_lt pos : 0 < pos → parent pos < pos.
Proof.
  intros Hpos. unfold parent.
  assert (2 * ((pos - 1) / 2) ≤ pos - 1) by (apply Nat.Div0.mul_div_le).
  lia.
Qed.

Lemma parent_left_child i : parent (left_child i) = i.
Proof.
  unfold parent, left_child.
  replace (2 * i + 1 - 1) with (i * 2) by lia. apply Nat.div_mul. lia.
Qed.

Lemma parent_right_child i : parent (right_child i) = i.
Proof.
  unfold parent, right_child.
  replace (2 * i + 2 - 1) with (1 + i * 2) by lia.
  rewrite Nat.div_add by lia. reflexivity.
Qed.

Lemma child_of_parent c :
  0 < c → c = left_child (parent c) ∨ c = right_child (parent c).
Proof.
  intros Hc. unfold parent, left_child, right_child.
  pose proof (Nat.div_mod_eq (c - 1) 2) as Hdm.
  assert ((c - 1) mod 2 < 2) as Hlt by (apply Nat.mod_upper_bound; lia).
  lia.
Qed.

Lemma parent_child_cases i c :
  c = left_child i ∨ c = right_child i ↔ 0 < c ∧ parent c = i.
Proof.
  split.
  - intros [-> | ->].
    + split; [unfold left_child; lia | apply parent_left_child].
    + split; [unfold right_child; lia | apply parent_right_child].
  - intros [Hc <-]. by apply child_of_parent.
Qed.

(** ** Running the monad *)

Ltac mrun :=
  unfold __len__, __contains__, __getitem__, __setitem__, __delitem__,
    topitem, additem, pushpopitem, updateitem, replace_key,
    bind, ret, raise, get_heap, get_position, set_heap, set_position,
    modify, heap_at, position_at, position_pop; simpl.

(** ** Exchanging two nodes *)

Lemma swap_nodes_eq i j q a b :
  _heap q !! i = Some a → _heap q !! j = Some b →
  swap_nodes i j q =
    mk_pqdict (<[j := a]> (<[i := b]> (_heap q)))
              (<[key a := j]> (<[key b := i]> (_position q))).
Proof. intros Ha Hb. unfold swap_nodes. by rewrite Ha, Hb. Qed.

Lemma swap_nodes_length i j q :
  length (_heap (swap_nodes i j q)) = length (_heap q).
Proof.
  unfold swap_nodes.
  destruct (_heap q !! i), (_heap q !! j); simpl; try done.
  by rewrite !length_insert.
Qed.

Lemma swapped_lookup (heap : list _Node) i j a b x :
  i ≠ j → heap !! i = Some a → heap !! j = Some b →
  <[j := a]> (<[i := b]> heap) !! x =
    if decide (x = j) then Some a
    else if decide (x = i) then Some b
    else heap !! x.
Proof.
  intros Hij Ha Hb.
  apply lookup_lt_Some in Ha as Hi. apply lookup_lt_Some in Hb as Hj.
  destruct (decide (x = j)) as [-> | Hxj].
  - rewrite list_lookup_insert_eq; [done | by rewrite length_insert].
  - rewrite list_lookup_insert_ne by done.
    destruct (decide (x = i)) as [-> | Hxi].
    + by rewrite list_lookup_insert_eq.
    + by rewrite list_lookup_insert_ne.
Qed.

Lemma swap_nodes_lookup i j q a b x :
  i ≠ j → _heap q !! i = Some a → _heap q !! j = Some b →
  _heap (swap_nodes i j q) !! x =
    if decide (x = j) then Some a
    else if decide (x = i) then Some b
    else _heap q !! x.
Proof.
  intros Hij Ha Hb. rewrite (swap_nodes_eq _ _ _ _ _ Ha Hb). simpl.
  by apply swapped_lookup.
Qed.

Lemma swap_nodes_Permutation i j q : _heap (swap_nodes i j q) ≡ₚ _heap q.
Proof.
  unfold swap_nodes.
  destruct (_heap q !! i) as [a|] eqn:Ha; [|done].
  destruct (_heap q !! j) as [b|] eqn:Hb; [|done]. simpl.
  destruct (decide (i = j)) as [-> | Hij].
  { rewrite list_insert_insert_eq. by rewrite list_insert_id. }
  apply Permutation_inj. split; [by rewrite !length_insert|].
  exists (λ x, if decide (x = j) then i else if decide (x = i) then j else x).
  split.
  - intros x y. repeat case_decide; intros; simplify_eq; done.
  - intros x. apply lookup_lt_Some in Ha as Hi. apply lookup_lt_Some in Hb as Hj.
    destruct (decide (x = j)) as [-> | Hxj].
    + rewrite list_lookup_insert_eq; [done | by rewrite length_insert].
    + rewrite list_lookup_insert_ne by done.
      destruct (decide (x = i)) as [-> | Hxi].
      * by rewrite list_lookup_insert_eq.
      * by rewrite list_lookup_insert_ne.
Qed.

Lemma index_consistent_key_inj q i j a b :
  index_consistent q →
  _heap q !! i = Some a → _heap q !! j = Some b → key a = key b → i = j.
Proof.
  intros [Hfwd _] Ha Hb Hkey.
  apply Hfwd in Ha. apply Hfwd in Hb. rewrite Hkey in Ha. congruence.
Qed.

Lemma swap_nodes_index_consistent i j q :
  i ≠ j → is_Some (_heap q !! i) → is_Some (_heap q !! j) →
  index_consistent q → index_consistent (swap_nodes i j q).
Proof.
  intros Hij [a Ha] [b Hb] Hq.
  assert (key a ≠ key b) as Hkab
    by (intros Heq; by apply Hij, (index_consistent_key_inj q i j a b)).
  split.
  - intros x n. rewrite (swap_nodes_lookup i j q a b) by done.
    rewrite (swap_nodes_eq _ _ _ _ _ Ha Hb). simpl.
    repeat case_decide; intros Hx; simplify_eq.
    + by rewrite lookup_insert_eq.
    + rewrite lookup_insert_ne by done. by rewrite lookup_insert_eq.
    + assert (key n ≠ key a)
        by (intros Heq; eauto using index_consistent_key_inj).
      assert (key n ≠ key b)
        by (intros Heq; eauto using index_consistent_key_inj).
      rewrite !lookup_insert_ne by done. by apply Hq.
  - intros k x. rewrite (swap_nodes_eq _ _ _ _ _ Ha Hb). simpl.
    rewrite (swapped_lookup _ i j a b) by done.
    intros Hk.
    destruct (decide (k = key a)) as [-> | Hka].
    { rewrite lookup_insert_eq in Hk. simplify_eq.
      rewrite decide_True by done. eauto. }
    rewrite lookup_insert_ne in Hk by done.
    destruct (decide (k = key b)) as [-> | Hkb].
    { rewrite lookup_insert_eq in Hk. simplify_eq.
      rewrite decide_False by done. rewrite decide_True by done. eauto. }
    rewrite lookup_insert_ne in Hk by done.
    destruct Hq as [_ Hbwd]. destruct (Hbwd _ _ Hk) as (n & Hn & Hkn).
    assert (x ≠ j) by (intros ->; congruence).
    assert (x ≠ i) by (intros ->; congruence).
    rewrite !decide_False by done. eauto.
Qed.

(** ** What swimming and sinking preserve

    Both loops only ever exchange two distinct nodes of the array, so
    whatever an exchange preserves, they preserve. *)

Lemma winning_child_cases pos heap c :
  winning_child pos heap = Some c →
  (c = left_child pos ∨ c = right_child pos) ∧ is_Some (heap !! c).
Proof.
  unfold winning_child.
  destruct (heap !! left_child pos) as [l|] eqn:Hl; [|done].
  destruct (heap !! right_child pos) as [r|] eqn:Hr.
  - repeat case_match; intros; simplify_eq; eauto.
  - intros; simplify_eq; eauto.
Qed.

Lemma swim_loop_stable Φ fuel pos q :
  swap_stable Φ → Φ q → Φ (swim_loop fuel pos q).
Proof.
  intros HΦ. revert pos q. induction fuel as [|fuel IH]; intros pos q Hq; [done|].
  simpl. case_decide; [done|].
  destruct (_heap q !! pos) as [node|] eqn:Hnode; [|done].
  destruct (_heap q !! parent pos) as [pnode|] eqn:Hpnode; [|done].
  case_match; [|done]. apply IH, HΦ; eauto.
  pose proof (parent_lt pos). lia.
Qed.

Lemma sink_loop_stable Φ fuel pos q :
  swap_stable Φ → Φ q → Φ (sink_loop fuel pos q).
Proof.
  intros HΦ. revert pos q. induction fuel as [|fuel IH]; intros pos q Hq; [done|].
  simpl. destruct (winning_child pos (_heap q)) as [c|] eqn:Hc; [|done].
  apply winning_child_cases in Hc as [Hc Hsome].
  destruct (_heap q !! pos) as [node|] eqn:Hnode; [|done].
  destruct (_heap q !! c) as [cnode|] eqn:Hcnode; [|done].
  case_match; [|done]. apply IH, HΦ; eauto.
  unfold left_child, right_child in Hc. lia.
Qed.

Lemma reheapify_stable Φ pos q :
  swap_stable Φ → Φ q → Φ (_reheapify pos q).
Proof.
  intros HΦ Hq. unfold _reheapify, _swim, _sink.
  by apply swim_loop_stable, sink_loop_stable.
Qed.

Lemma index_consistent_swap_stable : swap_stable index_consistent.
Proof. intros i j q. apply swap_nodes_index_consistent. Qed.

Lemma length_swap_stable n : swap_stable (λ q, length (_heap q) = n).
Proof. intros i j q _ _ _. by rewrite swap_nodes_length. Qed.

Lemma Permutation_swap_stable heap : swap_stable (λ q, _heap q ≡ₚ heap).
Proof. intros i j q _ _ _. by rewrite swap_nodes_Permutation. Qed.

(** ** Index consistency of the array and index updates made by the methods *)

Lemma index_consistent_empty : index_consistent empty_pqdict.
Proof. split; intros ??; simpl; [by rewrite lookup_nil | by rewrite lookup_empty]. Qed.

(** [heap.append(_Node(key, value, prio)); position[key] = n] *)
Lemma index_consistent_append heap position k v p :
  index_consistent (mk_pqdict heap position) → position !! k = None →
  index_consistent (mk_pqdict (heap ++ [mk_Node k v p])
                              (<[k := length heap]> position)).
Proof.
  intros [Hfwd Hbwd] Hk. simpl in *. split; simpl.
  - intros i n [Hn | [Hi Hn]]%lookup_app_Some.
    + assert (key n ≠ k) by (intros <-; apply Hfwd in Hn; congruence).
      rewrite lookup_insert_ne by done. by apply Hfwd.
    + destruct (i - length heap) as [|?] eqn:Hd; simplify_eq/=.
      rewrite lookup_insert_eq. f_equal. lia.
  - intros k' i [[<- <-] | [Hne Hk']]%lookup_insert_Some.
    + exists (mk_Node k v p). split; [|done].
      rewrite lookup_app_r by done. by rewrite Nat.sub_diag.
    + destruct (Hbwd _ _ Hk') as (n & Hn & Hkn).
      exists n. split; [|done]. by apply lookup_app_l_Some.
Qed.

(** [heap[pos].value = value; heap[pos].prio = prio] *)
Lemma index_consistent_update heap position pos node v p :
  index_consistent (mk_pqdict heap position) → heap !! pos = Some node →
  index_consistent (mk_pqdict (<[pos := mk_Node (key node) v p]> heap) position).
Proof.
  intros [Hfwd Hbwd] Hpos. simpl in *. split; simpl.
  - intros i n [(-> & <- & _) | [Hne Hn]]%list_lookup_insert_Some; simpl.
    + by apply Hfwd.
    + by apply Hfwd.
  - intros k i Hk. destruct (Hbwd _ _ Hk) as (n & Hn & Hkn).
    destruct (decide (i = pos)) as [-> | Hne].
    + exists (mk_Node (key node) v p). simplify_eq.
      split; [|done]. apply list_lookup_insert_eq. by eapply lookup_lt_Some.
    + exists n. by rewrite list_lookup_insert_ne.
Qed.

(** [position.pop(key); heap.pop(-1)] when the node of [key] is the last *)
Lemma index_consistent_drop_last heap position k :
  index_consistent (mk_pqdict heap position) →
  position !! k = Some (length heap - 1) →
  index_consistent (mk_pqdict (take (length heap - 1) heap) (delete k position)).
Proof.
  intros [Hfwd Hbwd] Hk. simpl in *.
  destruct (Hbwd _ _ Hk) as (nk & Hnk & Hknk).
  split; simpl.
  - intros i n [Hn Hi]%lookup_take_Some.
    assert (key n ≠ k).
    { intros <-. apply Hfwd in Hn. rewrite Hn in Hk. simplify_eq. lia. }
    rewrite lookup_delete_ne by done. by apply Hfwd.
  - intros k' i [Hne Hk']%lookup_delete_Some.
    destruct (Hbwd _ _ Hk') as (n & Hn & Hkn). exists n. split; [|done].
    apply lookup_take_Some. split; [done|].
    apply lookup_lt_Some in Hn as Hlt.
    destruct (decide (i = length heap - 1)) as [-> | ?]; [|lia].
    simplify_eq.
Qed.

(** [position.pop(key); end = heap.pop(-1); heap[pos] = end;
    position[end.key] = pos] when the node of [key] is not the last *)
Lemma index_consistent_move_last heap position k pos end_node :
  index_consistent (mk_pqdict heap position) →
  position !! k = Some pos → pos ≠ length heap - 1 →
  last heap = Some end_node →
  index_consistent
    (mk_pqdict (<[pos := end_node]> (take (length heap - 1) heap))
               (<[key end_node := pos]> (delete k position))).
Proof.
  intros [Hfwd Hbwd] Hk Hpos Hend. simpl in *.
  rewrite last_lookup in Hend.
  replace (pred (length heap)) with (length heap - 1) in Hend by lia.
  destruct (Hbwd _ _ Hk) as (nk & Hnk & Hknk).
  apply lookup_lt_Some in Hnk as Hlt.
  assert (key end_node ≠ k) as Hek.
  { intros <-. apply Hfwd in Hend. rewrite Hend in Hk. by simplify_eq. }
  split; simpl.
  - intros i n [(-> & <- & _) | [Hne [Hn Hi]%lookup_take_Some]]
      %list_lookup_insert_Some.
    + by rewrite lookup_insert_eq.
    + assert (key n ≠ key end_node).
      { intros Heq. apply Hfwd in Hn, Hend. rewrite Heq in Hn.
        rewrite Hn in Hend. simplify_eq. lia. }
      assert (key n ≠ k).
      { intros <-. apply Hfwd in Hn. rewrite Hn in Hk. by simplify_eq. }
      rewrite lookup_insert_ne by done. rewrite lookup_delete_ne by done.
      by apply Hfwd.
  - intros k' i [[<- <-] | [Hne [Hne' Hk']%lookup_delete_Some]]
      %lookup_insert_Some.
    + exists end_node. split; [|done]. apply list_lookup_insert_eq.
      rewrite length_take. lia.
    + destruct (Hbwd _ _ Hk') as (n & Hn & Hkn). exists n. split; [|done].
      assert (i ≠ pos) by (intros ->; simplify_eq).
      rewrite list_lookup_insert_ne by done.
      apply lookup_take_Some. split; [done|].
      apply lookup_lt_Some in Hn as Hlti.
      destruct (decide (i = length heap - 1)) as [-> | ?]; [|lia].
      simplify_eq.
Qed.

(** [heap[0] = node; position[key] = 0; del position[old_root.key]] *)
Lemma index_consistent_replace_root top rest position k v p :
  index_consistent (mk_pqdict (top :: rest) position) → position !! k = None →
  index_consistent (mk_pqdict (mk_Node k v p :: rest)
                              (delete (key top) (<[k := 0]> position))).
Proof.
  intros [Hfwd Hbwd] Hk. simpl in *.
  pose proof (Hfwd 0 top eq_refl) as Htop.
  assert (key top ≠ k) as Htk by (intros <-; congruence).
  split; simpl.
  - intros [|i] n Hn; simplify_eq/=.
    + rewrite lookup_delete_ne by done. by rewrite lookup_insert_eq.
    + pose proof (Hfwd (S i) n Hn) as Hi.
      assert (key n ≠ key top) by (intros Heq; rewrite Heq in Hi; congruence).
      assert (key n ≠ k) by (intros <-; congruence).
      rewrite lookup_delete_ne by done. by rewrite lookup_insert_ne.
  - intros k' i [Hne [[<- <-] | [Hne' Hk']]%lookup_insert_Some]
      %lookup_delete_Some.
    + eauto.
    + destruct (Hbwd _ _ Hk') as (n & Hn & Hkn).
      destruct i as [|i]; simplify_eq/=. eauto.
Qed.

(** [position.pop(key); position[new_key] = pos; heap[pos].key = new_key] *)
Lemma index_consistent_rename heap position k new_key pos node :
  index_consistent (mk_pqdict heap position) →
  position !! k = Some pos → position !! new_key = None →
  heap !! pos = Some node →
  index_consistent
    (mk_pqdict (<[pos := mk_Node new_key (value node) (prio node)]> heap)
               (<[new_key := pos]> (delete k position))).
Proof.
  intros [Hfwd Hbwd] Hk Hnew Hpos. simpl in *.
  split; simpl.
  - intros i n [(-> & <- & _) | [Hne Hn]]%list_lookup_insert_Some; simpl.
    + by rewrite lookup_insert_eq.
    + pose proof (Hfwd _ _ Hn) as Hi.
      assert (key n ≠ new_key) by (intros <-; congruence).
      assert (key n ≠ k) by (intros <-; congruence).
      rewrite lookup_insert_ne by done. by rewrite lookup_delete_ne.
  - intros k' i [[<- <-] | [Hne [Hne' Hk']%lookup_delete_Some]]
      %lookup_insert_Some.
    + exists (mk_Node new_key (value node) (prio node)). split; [|done].
      apply list_lookup_insert_eq. by eapply lookup_lt_Some.
    + destruct (Hbwd _ _ Hk') as (n & Hn & Hkn). exists n. split; [|done].
      destruct (Hbwd _ _ Hk) as (nk & Hnk & Hknk).
      assert (i ≠ pos) by (intros ->; simplify_eq).
      by rewrite list_lookup_insert_ne.
Qed.

(** ** What each method computes *)

Lemma setitem_new k v q :
  _position q !! k = None →
  __setitem__ k v q =
    (_swim (length (_heap q))
       (mk_pqdict (_heap q ++ [mk_Node k v (keyfn v)])
                  (<[k := length (_heap q)]> (_position q))),
     inr tt).
Proof. intros Hk. mrun. by rewrite Hk. Qed.

Lemma setitem_existing k v q pos node :
  _position q !! k = Some pos → _heap q !! pos = Some node →
  __setitem__ k v q =
    (_reheapify pos
       (mk_pqdict (<[pos := mk_Node (key node) v (keyfn v)]> (_heap q))
                  (_position q)),
     inr tt).
Proof. intros Hk Hpos. mrun. rewrite Hk. mrun. by rewrite Hpos. Qed.

Lemma setitem_dangling k v q pos :
  _position q !! k = Some pos → _heap q !! pos = None →
  __setitem__ k v q = (q, inl IndexError).
Proof. intros Hk Hpos. mrun. rewrite Hk. mrun. by rewrite Hpos. Qed.

Lemma delitem_missing k q :
  _position q !! k = None →
  __delitem__ k q = (q, inl (KeyError (missing_key k))).
Proof. intros Hk. mrun. by rewrite Hk. Qed.

Lemma delitem_dangling k q pos :
  _position q !! k = Some pos → _heap q !! pos = None →
  __delitem__ k q =
    (mk_pqdict (_heap q) (delete k (_position q)), inl IndexError).
Proof. intros Hk Hpos. mrun. rewrite Hk. simpl. by rewrite Hpos. Qed.

Lemma last_is_Some (heap : list _Node) pos :
  is_Some (heap !! pos) → is_Some (last heap).
Proof.
  intros [n Hn]. rewrite last_lookup. apply lookup_lt_is_Some.
  apply lookup_lt_Some in Hn. lia.
Qed.

Lemma delitem_last k q :
  _position q !! k = Some (length (_heap q) - 1) → _heap q ≠ [] →
  __delitem__ k q =
    (mk_pqdict (take (length (_heap q) - 1) (_heap q)) (delete k (_position q)),
     inr tt).
Proof.
  intros Hk Hne. mrun. rewrite Hk. simpl.
  assert (is_Some (_heap q !! (length (_heap q) - 1))) as [n Hn].
  { apply lookup_lt_is_Some. destruct (_heap q); [done | simpl; lia]. }
  rewrite Hn. simpl. destruct (last_is_Some _ _ (mk_is_Some _ _ Hn)) as [e ->].
  simpl. by rewrite decide_True.
Qed.

Lemma delitem_inner k q pos node end_node :
  _position q !! k = Some pos → _heap q !! pos = Some node →
  pos ≠ length (_heap q) - 1 → last (_heap q) = Some end_node →
  __delitem__ k q =
    (_reheapify pos
       (mk_pqdict (<[pos := end_node]> (take (length (_heap q) - 1) (_heap q)))
                  (<[key end_node := pos]> (delete k (_position q)))),
     inr tt).
Proof.
  intros Hk Hpos Hne Hend. mrun. rewrite Hk. simpl. rewrite Hpos. simpl.
  rewrite Hend. simpl. by rewrite decide_False.
Qed.

Lemma contains_not_None k q :
  __contains__ k q = (q, inr (bool_decide (is_Some (_position q !! k)))).
Proof. done. Qed.

Lemma additem_present k v q :
  is_Some (_position q !! k) →
  additem k v q = (q, inl (KeyError (already_in_the_queue k))).
Proof. intros Hk. mrun. by rewrite decide_True. Qed.

Lemma additem_absent k v q :
  _position q !! k = None → additem k v q = __setitem__ k v q.
Proof.
  intros Hk. unfold additem, bind, get_position.
  rewrite decide_False; [done|]. rewrite Hk. by intros [??].
Qed.

Lemma updateitem_present k v q :
  is_Some (_position q !! k) → updateitem k v q = __setitem__ k v q.
Proof. intros Hk. unfold updateitem, bind, get_position. by rewrite decide_True. Qed.

Lemma updateitem_absent k v q :
  _position q !! k = None →
  updateitem k v q = (q, inl (KeyError (missing_key k))).
Proof.
  intros Hk. mrun. rewrite decide_False; [done|]. rewrite Hk. by intros [??].
Qed.

Lemma pushpopitem_present k v q :
  is_Some (_position q !! k) →
  pushpopitem k v q = (q, inl (KeyError (already_in_the_queue k))).
Proof. intros Hk. mrun. by rewrite bool_decide_eq_true_2. Qed.

Lemma pushpopitem_empty k v q :
  _position q !! k = None → _heap q = [] → pushpopitem k v q = (q, inr (k, v)).
Proof.
  intros Hk Hh. mrun. rewrite bool_decide_eq_false_2; [|rewrite Hk; by intros [??]].
  by rewrite Hh.
Qed.

Lemma pushpopitem_keep k v q top rest :
  _position q !! k = None → _heap q = top :: rest →
  precedes (prio top) (pushpop_prio v) = false →
  pushpopitem k v q = (q, inr (k, v)).
Proof.
  intros Hk Hh Hp. mrun. rewrite bool_decide_eq_false_2; [|rewrite Hk; by intros [??]].
  rewrite Hh. by rewrite Hp.
Qed.

Lemma pushpopitem_evict k v q top rest :
  _position q !! k = None → _heap q = top :: rest →
  precedes (prio top) (pushpop_prio v) = true →
  is_Some (<[k := 0]> (_position q) !! key top) →
  pushpopitem k v q =
    (_sink 0 (mk_pqdict (mk_Node k v (pushpop_prio v) :: rest)
                        (delete (key top) (<[k := 0]> (_position q)))),
     inr (key top, value top)).
Proof.
  intros Hk Hh Hp [i Hi]. mrun.
  rewrite bool_decide_eq_false_2; [|rewrite Hk; by intros [??]].
  rewrite Hh, Hp. mrun. by rewrite Hi.
Qed.

Lemma pushpopitem_evict_dangling k v q top rest :
  _position q !! k = None → _heap q = top :: rest →
  precedes (prio top) (pushpop_prio v) = true →
  <[k := 0]> (_position q) !! key top = None →
  pushpopitem k v q =
    (mk_pqdict (mk_Node k v (pushpop_prio v) :: rest) (<[k := 0]> (_position q)),
     inl (KeyError (missing_key (key top)))).
Proof.
  intros Hk Hh Hp Hi. mrun.
  rewrite bool_decide_eq_false_2; [|rewrite Hk; by intros [??]].
  rewrite Hh, Hp. mrun. by rewrite Hi.
Qed.

Lemma replace_key_present k new_key q :
  is_Some (_position q !! new_key) →
  replace_key k new_key q = (q, inl (KeyError (already_in_the_queue new_key))).
Proof. intros Hk. mrun. by rewrite bool_decide_eq_true_2. Qed.

Lemma replace_key_missing k new_key q :
  _position q !! new_key = None → _position q !! k = None →
  replace_key k new_key q = (q, inl (KeyError (missing_key k))).
Proof.
  intros Hnew Hk. mrun.
  rewrite bool_decide_eq_false_2; [|rewrite Hnew; by intros [??]].
  by rewrite Hk.
Qed.

Lemma replace_key_renames k new_key q pos node :
  _position q !! new_key = None → _position q !! k = Some pos →
  _heap q !! pos = Some node →
  replace_key k new_key q =
    (mk_pqdict (<[pos := mk_Node new_key (value node) (prio node)]> (_heap q))
               (<[new_key := pos]> (delete k (_position q))),
     inr tt).
Proof.
  intros Hnew Hk Hpos. mrun.
  rewrite bool_decide_eq_false_2; [|rewrite Hnew; by intros [??]].
  rewrite Hk. simpl. by rewrite Hpos.
Qed.

Lemma replace_key_dangling k new_key q pos :
  _position q !! new_key = None → _position q !! k = Some pos →
  _heap q !! pos = None →
  replace_key k new_key q =
    (mk_pqdict (_heap q) (<[new_key := pos]> (delete k (_position q))),
     inl IndexError).
Proof.
  intros Hnew Hk Hpos. mrun.
  rewrite bool_decide_eq_false_2; [|rewrite Hnew; by intros [??]].
  rewrite Hk. simpl. by rewrite Hpos.
Qed.

Lemma getitem_state k q : fst (__getitem__ k q) = q.
Proof. mrun. destruct (_position q !! k); simpl; [|done]. by destruct (_heap q !! n). Qed.

Lemma topitem_state q : fst (topitem q) = q.
Proof. mrun. by destruct (_heap q !! 0). Qed.

(** ** Index consistency is kept by every method *)

Lemma index_consistent_lookup q k pos :
  index_consistent q → _position q !! k = Some pos →
  ∃ node, _heap q !! pos = Some node ∧ key node = k.
Proof. intros [_ Hbwd]. apply Hbwd. Qed.

Lemma swim_index_consistent pos q :
  index_consistent q → index_consistent (_swim pos q).
Proof. apply swim_loop_stable, index_consistent_swap_stable. Qed.

Lemma sink_index_consistent pos q :
  index_consistent q → index_consistent (_sink pos q).
Proof. apply sink_loop_stable, index_consistent_swap_stable. Qed.

Lemma reheapify_index_consistent pos q :
  index_consistent q → index_consistent (_reheapify pos q).
Proof. apply reheapify_stable, index_consistent_swap_stable. Qed.

Lemma setitem_index_consistent k v q :
  index_consistent q → index_consistent (fst (__setitem__ k v q)).
Proof.
  intros Hq. destruct (_position q !! k) as [pos|] eqn:Hk.
  - destruct (index_consistent_lookup _ _ _ Hq Hk) as (node & Hpos & _).
    rewrite (setitem_existing _ _ _ _ _ Hk Hpos). simpl.
    apply reheapify_index_consistent. destruct q.
    by apply index_consistent_update.
  - rewrite (setitem_new _ _ _ Hk). simpl.
    apply swim_index_consistent. destruct q.
    by apply index_consistent_append.
Qed.

Lemma delitem_index_consistent k q :
  index_consistent q → index_consistent (fst (__delitem__ k q)).
Proof.
  intros Hq. destruct (_position q !! k) as [pos|] eqn:Hk.
  - destruct (index_consistent_lookup _ _ _ Hq Hk) as (node & Hpos & _).
    destruct (decide (pos = length (_heap q) - 1)) as [-> | Hne].
    + rewrite delitem_last; [|done|by intros Hnil; rewrite Hnil in Hpos].
      simpl. destruct q. by apply index_consistent_drop_last.
    + destruct (last_is_Some _ _ (mk_is_Some _ _ Hpos)) as [end_node Hend].
      rewrite (delitem_inner _ _ _ _ _ Hk Hpos Hne Hend). simpl.
      apply reheapify_index_consistent. destruct q.
      by apply index_consistent_move_last.
  - by rewrite (delitem_missing _ _ Hk).
Qed.

Lemma index_consistent_top q top rest :
  index_consistent q → _heap q = top :: rest → _position q !! key top = Some 0.
Proof. intros [Hfwd _] Hh. apply Hfwd. by rewrite Hh. Qed.

Lemma pushpopitem_index_consistent k v q :
  index_consistent q → index_consistent (fst (pushpopitem k v q)).
Proof.
  intros Hq. destruct (_position q !! k) as [pos|] eqn:Hk.
  { by rewrite pushpopitem_present. }
  destruct (_heap q) as [|top rest] eqn:Hh.
  { by rewrite pushpopitem_empty. }
  destruct (precedes (prio top) (pushpop_prio v)) eqn:Hp.
  - pose proof (index_consistent_top _ _ _ Hq Hh) as Htop.
    assert (k ≠ key top) by (intros ->; congruence).
    rewrite (pushpopitem_evict _ _ _ _ _ Hk Hh Hp);
      [|by rewrite lookup_insert_ne]. simpl.
    apply sink_index_consistent. destruct q; simplify_eq/=.
    by apply index_consistent_replace_root.
  - by rewrite (pushpopitem_keep _ _ _ _ _ Hk Hh Hp).
Qed.

Lemma replace_key_index_consistent k new_key q :
  index_consistent q → index_consistent (fst (replace_key k new_key q)).
Proof.
  intros Hq. destruct (_position q !! new_key) as [pos'|] eqn:Hnew.
  { by rewrite replace_key_present. }
  destruct (_position q !! k) as [pos|] eqn:Hk.
  - destruct (index_consistent_lookup _ _ _ Hq Hk) as (node & Hpos & _).
    rewrite (replace_key_renames _ _ _ _ _ Hnew Hk Hpos). simpl.
    destruct q. by apply index_consistent_rename.
  - by rewrite replace_key_missing.
Qed.

Lemma after_index_consistent o q :
  index_consistent q → index_consistent (after o q).
Proof.
  intros Hq. destruct o as [k v|k|k v|k v|k v|k k'|k|]; simpl.
  - by apply setitem_index_consistent.
  - by apply delitem_index_consistent.
  - destruct (_position q !! k) eqn:Hk.
    + by rewrite additem_present.
    + rewrite additem_absent by done. by apply setitem_index_consistent.
  - destruct (_position q !! k) eqn:Hk.
    + rewrite updateitem_present by done. by apply setitem_index_consistent.
    + by rewrite updateitem_absent.
  - by apply pushpopitem_index_consistent.
  - by apply replace_key_index_consistent.
  - by rewrite getitem_state.
  - by rewrite topitem_state.
Qed.

Lemma reachable_index_consistent q : reachable q → index_consistent q.
Proof.
  induction 1; [apply index_consistent_empty | by apply after_index_consistent].
Qed.

Lemma index_consistent_NoDup q :
  index_consistent q → NoDup (key <$> _heap q).
Proof.
  intros Hq. apply NoDup_alt. intros i j k.
  rewrite !list_lookup_fmap.
  destruct (_heap q !! i) as [a|] eqn:Ha; [|done].
  destruct (_heap q !! j) as [b|] eqn:Hb; [|done]. simpl.
  intros ??. simplify_eq. eapply index_consistent_key_inj; eauto.
Qed.

Lemma index_consistent_dom q k :
  index_consistent q → k ∈ dom (_position q) ↔ k ∈ key <$> _heap q.
Proof.
  intros [Hfwd Hbwd]. rewrite elem_of_dom. split.
  - intros [i Hi]. destruct (Hbwd _ _ Hi) as (n & Hn & <-).
    apply list_elem_of_fmap. exists n. split; [done|].
    by eapply list_elem_of_lookup_2.
  - intros (n & -> & [i Hi]%list_elem_of_lookup)%list_elem_of_fmap. eauto.
Qed.

(** C4. Index consistency: after every public operation, on a queue whose
    index was consistent before it, every key of the index points at an
    array entry carrying that key, the keys of the index are exactly the
    keys found in the array, and no key occurs twice in the array. *)
Theorem index_consistency_preserved o q :
  index_consistent q →
  (∀ k pos, _position (after o q) !! k = Some pos →
            ∃ node, _heap (after o q) !! pos = Some node ∧ key node = k) ∧
  (∀ k, k ∈ dom (_position (after o q)) ↔ k ∈ key <$> _heap (after o q)) ∧
  NoDup (key <$> _heap (after o q)) ∧
  index_consistent (after o q).
Proof.
  intros Hq. pose proof (after_index_consistent o q Hq) as Hq'.
  split_and!.
  - intros k pos. by apply index_consistent_lookup.
  - intros k. by apply index_consistent_dom.
  - by apply index_consistent_NoDup.
  - done.
Qed.

(** ** Heap order *)

Lemma heap_ordered_edges heap : heap_ordered heap ↔ ∀ c, edge_fine heap c.
Proof.
  split.
  - intros Hh c Hc nc np Hnc Hnp.
    apply (Hh (parent c) c np nc); [|done..]. by apply child_of_parent.
  - intros Hh i c ni nc [Hc <-]%parent_child_cases Hni Hnc.
    by apply (Hh c).
Qed.

Lemma heap_ordered_nil : heap_ordered [].
Proof. intros i c ni nc _ Hi. by rewrite lookup_nil in Hi. Qed.

Section Order.
Hypothesis Hord : priority_order.

Lemma precedes_asym x y : precedes x y = true → precedes y x = false.
Proof.
  intros Hxy. destruct (precedes y x) eqn:Hyx; [|done].
  pose proof (precedes_trans Hord _ _ _ Hxy Hyx) as Hxx.
  by rewrite (precedes_irrefl Hord) in Hxx.
Qed.

(** [z ≤ y] and [x < y] give [z ≤ x]... read contrapositively:
    nothing that fails to precede [y] can precede something before [y]. *)
Lemma precedes_before x y z :
  precedes x y = true → precedes z y = false → precedes z x = false.
Proof.
  intros Hxy Hzy. destruct (precedes z x) eqn:Hzx; [|done].
  pose proof (precedes_trans Hord _ _ _ Hzx Hxy). congruence.
Qed.

Lemma heap_ordered_skips heap pos : heap_ordered heap → skips_fine heap pos.
Proof.
  intros Hh Hpos c nc ng Hc Hpc Hnc Hng.
  pose proof (proj1 (heap_ordered_edges _) Hh) as He. clear Hh. rename He into Hh.
  assert (is_Some (heap !! pos)) as [n Hn].
  { apply lookup_lt_is_Some. apply lookup_lt_Some in Hnc.
    pose proof (parent_lt c Hc). lia. }
  apply (precedes_negtrans Hord _ (prio n)).
  - apply (Hh c); [done..|]. by rewrite Hpc.
  - by apply (Hh pos).
Qed.

Lemma heap_ordered_swim_ready heap pos : heap_ordered heap → swim_ready heap pos.
Proof.
  intros Hh. split; [|by apply heap_ordered_skips].
  intros c _. by apply heap_ordered_edges.
Qed.

Lemma heap_ordered_sink_ready heap pos : heap_ordered heap → sink_ready heap pos.
Proof.
  intros Hh. split; [|by apply heap_ordered_skips].
  intros c _. by apply heap_ordered_edges.
Qed.

Lemma sink_ready_reheapify_ready heap pos :
  sink_ready heap pos → reheapify_ready heap pos.
Proof. intros [Hedges Hskip]. split; [|done]. intros c _. apply Hedges. Qed.

(** *** Swimming restores heap order *)

Lemma swim_ready_done heap pos :
  swim_ready heap pos → edge_fine heap pos → heap_ordered heap.
Proof.
  intros [Hedges _] Hpos. apply heap_ordered_edges. intros c.
  destruct (decide (c = pos)) as [-> | Hne]; [done | by apply Hedges].
Qed.

Lemma swim_ready_step heap pos x y :
  0 < pos → heap !! pos = Some x → heap !! parent pos = Some y →
  precedes (prio x) (prio y) = true → swim_ready heap pos →
  swim_ready (<[parent pos := x]> (<[pos := y]> heap)) (parent pos).
Proof.
  intros Hpos Hx Hy Hxy [Hedges Hskip].
  pose proof (parent_lt pos Hpos) as Hlt.
  assert (∀ z, <[parent pos := x]> (<[pos := y]> heap) !! z =
               if decide (z = parent pos) then Some x
               else if decide (z = pos) then Some y else heap !! z) as Hlook.
  { intros z. apply swapped_lookup; [lia | done..]. }
  split.
  - intros c Hcp Hc nc np. rewrite !Hlook.
    rewrite (decide_False (P := c = parent pos)) by done.
    destruct (decide (c = pos)) as [-> | Hne].
    + rewrite decide_True by done. intros ??; simplify_eq.
      by apply precedes_asym.
    + intros Hnc. pose proof (parent_lt c Hc).
      destruct (decide (parent c = parent pos)) as [Heq | Hne2].
      * intros ?; simplify_eq. apply (precedes_before _ (prio y)); [done|].
        apply (Hedges c Hne Hc); [done|]. by rewrite Heq.
      * destruct (decide (parent c = pos)) as [Heq2 | Hne3].
        -- intros ?; simplify_eq. by apply (Hskip Hpos c).
        -- intros Hnp. by apply (Hedges c Hne Hc).
  - intros Hp c nc ng Hc Hpc. rewrite !Hlook.
    pose proof (parent_lt _ Hp). pose proof (parent_lt c Hc).
    rewrite (decide_False (P := parent (parent pos) = parent pos)) by lia.
    rewrite (decide_False (P := parent (parent pos) = pos)) by lia.
    rewrite (decide_False (P := c = parent pos)) by lia.
    destruct (decide (c = pos)) as [-> | Hne].
    + intros ? Hng; simplify_eq. apply (Hedges (parent pos)); [lia | done..].
    + intros Hnc Hng. apply (precedes_negtrans Hord _ (prio y)).
      * apply (Hedges c Hne Hc); [done|]. by rewrite Hpc.
      * apply (Hedges (parent pos)); [lia | done..].
Qed.

Lemma swim_loop_heap_ordered fuel pos q :
  pos ≤ fuel → swim_ready (_heap q) pos →
  heap_ordered (_heap (swim_loop fuel pos q)).
Proof.
  revert pos q. induction fuel as [|fuel IH]; intros pos q Hfuel Hready.
  { simpl. apply (swim_ready_done _ pos); [done|]. intros ?; lia. }
  simpl. case_decide as Hpos.
  { apply (swim_ready_done _ pos); [done|]. intros ?; lia. }
  destruct (_heap q !! pos) as [x|] eqn:Hx;
    [|apply (swim_ready_done _ pos); [done | intros ????; congruence]].
  destruct (_heap q !! parent pos) as [y|] eqn:Hy;
    [|apply (swim_ready_done _ pos); [done | intros ?????; congruence]].
  destruct (precedes (prio x) (prio y)) eqn:Hxy.
  - pose proof (parent_lt pos). apply IH; [lia|].
    rewrite (swap_nodes_eq _ _ _ _ _ Hx Hy). simpl.
    apply swim_ready_step; [lia | done..].
  - apply (swim_ready_done _ pos); [done|].
    intros ? nc np ??; by simplify_eq.
Qed.

Lemma swim_heap_ordered pos q :
  swim_ready (_heap q) pos → heap_ordered (_heap (_swim pos q)).
Proof. by apply swim_loop_heap_ordered. Qed.

(** *** Sinking restores heap order *)

Lemma winning_child_wins pos heap c s nc ns :
  winning_child pos heap = Some c → 0 < s → parent s = pos →
  heap !! c = Some nc → heap !! s = Some ns →
  precedes (prio ns) (prio nc) = false.
Proof.
  unfold winning_child. intros Hw Hs Hps Hnc Hns.
  assert (s = left_child pos ∨ s = right_child pos) as Hcase
    by by apply parent_child_cases.
  clear Hs Hps.
  destruct (heap !! left_child pos) as [l|] eqn:Hl; [|done].
  destruct (heap !! right_child pos) as [r|] eqn:Hr.
  - destruct (precedes (prio r) (prio l)) eqn:Hrl;
      [|destruct (precedes (prio l) (prio r)) eqn:Hlr; [|destruct tie_right]];
      destruct Hcase as [-> | ->]; simplify_eq;
      first [done | apply (precedes_irrefl Hord) | by apply precedes_asym].
  - destruct Hcase as [-> | ->]; simplify_eq. apply (precedes_irrefl Hord).
Qed.

Lemma sink_ready_done heap pos :
  reheapify_ready heap pos → edge_fine heap pos →
  (∀ c, parent c = pos → edge_fine heap c) → heap_ordered heap.
Proof.
  intros [Hedges _] Hpos Hbelow. apply heap_ordered_edges. intros c.
  destruct (decide (c = pos)) as [-> | Hne]; [done|].
  destruct (decide (parent c = pos)); [by apply Hbelow | by apply Hedges].
Qed.

Lemma sink_ready_step heap pos c x y :
  winning_child pos heap = Some c →
  heap !! pos = Some x → heap !! c = Some y →
  precedes (prio y) (prio x) = true → reheapify_ready heap pos →
  sink_ready (<[c := x]> (<[pos := y]> heap)) c.
Proof.
  intros Hw Hx Hy Hyx [Hedges Hskip].
  destruct (winning_child_cases _ _ _ Hw) as [[Hc Hpc]%parent_child_cases _].
  pose proof (parent_lt c Hc) as Hlt.
  assert (∀ z, <[c := x]> (<[pos := y]> heap) !! z =
               if decide (z = c) then Some x
               else if decide (z = pos) then Some y else heap !! z) as Hlook.
  { intros z. apply swapped_lookup; [lia | done..]. }
  split.
  - intros e Hpe He ne np. rewrite !Hlook.
    rewrite (decide_False (P := parent e = c)) by done.
    pose proof (parent_lt e He).
    destruct (decide (e = c)) as [-> | Hec].
    + rewrite decide_True by done. intros [= <-] [= <-].
      by apply precedes_asym.
    + destruct (decide (e = pos)) as [-> | Hep].
      * rewrite decide_False by lia. intros [= <-] Hnp.
        by apply (Hskip He c).
      * intros Hne.
        destruct (decide (parent e = pos)) as [Heq | Hne2].
        -- intros [= <-]. by apply (winning_child_wins pos heap c e).
        -- intros Hnp. by apply (Hedges e).
  - intros _ d nd ng Hd Hpd. rewrite !Hlook.
    pose proof (parent_lt d Hd).
    rewrite (decide_False (P := d = c)) by lia.
    rewrite (decide_False (P := d = pos)) by lia.
    rewrite (decide_False (P := parent c = c)) by lia.
    rewrite decide_True by done.
    intros Hnd [= <-].
    apply (Hedges d); [lia | lia | done | done |]. by rewrite Hpd.
Qed.

(** When [_sink] stops at [pos], the edges below [pos] are in order. *)
Lemma sink_stops_leaf heap pos :
  heap !! left_child pos = None → ∀ c, parent c = pos → edge_fine heap c.
Proof.
  intros Hl c Hpc Hc nc np Hnc.
  assert (c = left_child pos ∨ c = right_child pos) as [-> | ->]
    by by apply parent_child_cases.
  - congruence.
  - apply lookup_ge_None in Hl. apply lookup_lt_Some in Hnc.
    unfold left_child, right_child in *. lia.
Qed.

Lemma sink_stops_winner heap pos c x y :
  winning_child pos heap = Some c →
  heap !! pos = Some x → heap !! c = Some y →
  precedes (prio y) (prio x) = false →
  ∀ e, parent e = pos → edge_fine heap e.
Proof.
  intros Hw Hx Hy Hyx e Hpe He ne np Hne Hnp.
  rewrite Hpe, Hx in Hnp. injection Hnp as <-.
  apply (precedes_negtrans Hord _ (prio y)); [|done].
  by apply (winning_child_wins pos heap c e).
Qed.

Lemma sink_ready_edge heap pos : sink_ready heap pos → edge_fine heap pos.
Proof.
  intros [Hedges _] Hpos. apply Hedges; [|done].
  pose proof (parent_lt pos Hpos). lia.
Qed.

Lemma sink_loop_heap_ordered fuel pos q :
  length (_heap q) ≤ pos + fuel → sink_ready (_heap q) pos →
  heap_ordered (_heap (sink_loop fuel pos q)).
Proof.
  revert pos q. induction fuel as [|fuel IH]; intros pos q Hfuel Hready;
    pose proof (sink_ready_reheapify_ready _ _ Hready) as Hready';
    pose proof (sink_ready_edge _ _ Hready) as Hedge.
  { simpl. apply (sink_ready_done _ pos); [done..|].
    apply sink_stops_leaf. apply lookup_ge_None. unfold left_child. lia. }
  simpl. destruct (winning_child pos (_heap q)) as [c|] eqn:Hw.
  2:{ apply (sink_ready_done _ pos); [done..|]. apply sink_stops_leaf.
      unfold winning_child in Hw.
      destruct (_heap q !! left_child pos); [|done].
      by destruct (_heap q !! right_child pos); repeat case_match. }
  destruct (winning_child_cases _ _ _ Hw) as [[Hc Hpc]%parent_child_cases [y Hy]].
  pose proof (parent_lt c Hc).
  destruct (_heap q !! pos) as [x|] eqn:Hx.
  2:{ apply lookup_ge_None in Hx. apply lookup_lt_Some in Hy. lia. }
  rewrite Hy. destruct (precedes (prio y) (prio x)) eqn:Hyx.
  - apply IH; [rewrite swap_nodes_length; lia|].
    rewrite (swap_nodes_eq _ _ _ _ _ Hx Hy). simpl.
    by apply (sink_ready_step _ pos).
  - apply (sink_ready_done _ pos); [done..|].
    by apply (sink_stops_winner _ _ c x y).
Qed.

Lemma sink_heap_ordered pos q :
  sink_ready (_heap q) pos → heap_ordered (_heap (_sink pos q)).
Proof. apply sink_loop_heap_ordered. lia. Qed.

(** *** Reheapifying restores heap order

    Either the first comparison of [_sink] already fails, and the queue is
    handed to [_swim] as it is, or the node moves down, the array ends up
    in order and [_swim] finds nothing to do. *)
Lemma sink_loop_first fuel pos q :
  length (_heap q) ≤ pos + fuel → reheapify_ready (_heap q) pos →
  (sink_loop fuel pos q = q ∧ ∀ c, parent c = pos → edge_fine (_heap q) c) ∨
  heap_ordered (_heap (sink_loop fuel pos q)).
Proof.
  intros Hfuel Hready. destruct fuel as [|fuel].
  { left. split; [done|]. apply sink_stops_leaf.
    apply lookup_ge_None. unfold left_child. lia. }
  simpl. destruct (winning_child pos (_heap q)) as [c|] eqn:Hw.
  2:{ left. split; [done|]. apply sink_stops_leaf.
      unfold winning_child in Hw.
      destruct (_heap q !! left_child pos); [|done].
      by destruct (_heap q !! right_child pos); repeat case_match. }
  destruct (winning_child_cases _ _ _ Hw) as [[Hc Hpc]%parent_child_cases [y Hy]].
  pose proof (parent_lt c Hc).
  destruct (_heap q !! pos) as [x|] eqn:Hx.
  2:{ apply lookup_ge_None in Hx. apply lookup_lt_Some in Hy. lia. }
  rewrite Hy. destruct (precedes (prio y) (prio x)) eqn:Hyx.
  - right. apply sink_loop_heap_ordered; [rewrite swap_nodes_length; lia|].
    rewrite (swap_nodes_eq _ _ _ _ _ Hx Hy). simpl.
    by apply (sink_ready_step _ pos).
  - left. split; [done|]. by apply (sink_stops_winner _ _ c x y).
Qed.

Lemma reheapify_heap_ordered pos q :
  reheapify_ready (_heap q) pos → heap_ordered (_heap (_reheapify pos q)).
Proof.
  intros Hready. unfold _reheapify.
  destruct (sink_loop_first (length (_heap q)) pos q) as [[Heq Hbelow] | Hdone];
    [lia | done | |].
  - unfold _sink. rewrite Heq. apply swim_heap_ordered.
    destruct Hready as [Hedges Hskip]. split; [|done].
    intros c Hne. destruct (decide (parent c = pos)); [by apply Hbelow|].
    by apply Hedges.
  - by apply swim_heap_ordered, heap_ordered_swim_ready.
Qed.

(** *** The array updates made by the methods leave a state the restoring
    algorithms can start from *)

Lemma heap_ordered_take heap n : heap_ordered heap → heap_ordered (take n heap).
Proof.
  intros Hh i c ni nc Hc [Hni _]%lookup_take_Some [Hnc _]%lookup_take_Some.
  by apply (Hh i c).
Qed.

Lemma swim_ready_append heap x :
  heap_ordered heap → swim_ready (heap ++ [x]) (length heap).
Proof.
  intros Hh. pose proof (proj1 (heap_ordered_edges _) Hh) as Hedges. split.
  - intros c Hne Hc nc np Hnc Hnp. pose proof (parent_lt c Hc).
    apply lookup_lt_Some in Hnc as Hlt. rewrite length_app in Hlt. simpl in Hlt.
    rewrite lookup_app_l in Hnc, Hnp by lia. by apply (Hedges c).
  - intros _ c nc ng Hc Hpc Hnc. pose proof (parent_lt c Hc).
    apply lookup_lt_Some in Hnc. rewrite length_app in Hnc. simpl in Hnc. lia.
Qed.

Lemma reheapify_ready_insert heap heap' pos :
  heap_ordered heap →
  (∀ z n, z ≠ pos → heap' !! z = Some n → heap !! z = Some n) →
  (∀ z, is_Some (heap' !! z) → is_Some (heap !! z)) →
  reheapify_ready heap' pos.
Proof.
  intros Hh Hsame Hdom.
  pose proof (proj1 (heap_ordered_edges _) Hh) as Hedges. split.
  - intros c Hne Hpne Hc nc np Hnc Hnp. apply (Hedges c); eauto.
  - intros Hpos c nc ng Hc Hpc Hnc Hng.
    pose proof (parent_lt c Hc). pose proof (parent_lt pos Hpos).
    apply (heap_ordered_skips heap pos Hh Hpos c); [done..| |].
    + apply Hsame; [lia | done].
    + apply Hsame; [lia | done].
Qed.

Lemma reheapify_ready_update heap pos x :
  heap_ordered heap → reheapify_ready (<[pos := x]> heap) pos.
Proof.
  intros Hh. apply (reheapify_ready_insert heap); [done|..].
  - intros z n Hz. by rewrite list_lookup_insert_ne.
  - intros z. rewrite !lookup_lt_is_Some. by rewrite length_insert.
Qed.

Lemma reheapify_ready_move_last heap pos x :
  heap_ordered heap →
  reheapify_ready (<[pos := x]> (take (length heap - 1) heap)) pos.
Proof.
  intros Hh. apply (reheapify_ready_insert heap); [done|..].
  - intros z n Hz. rewrite list_lookup_insert_ne by done.
    by intros [??]%lookup_take_Some.
  - intros z. rewrite !lookup_lt_is_Some.
    rewrite length_insert, length_take. lia.
Qed.

Lemma sink_ready_replace_root top rest x :
  heap_ordered (top :: rest) → sink_ready (x :: rest) 0.
Proof.
  intros Hh. pose proof (proj1 (heap_ordered_edges _) Hh) as Hedges. split.
  - intros c Hpc Hc nc np Hnc Hnp. apply (Hedges c); [done|..].
    + destruct c; [lia | done].
    + destruct (parent c); [done | done].
  - intros ?; lia.
Qed.

Lemma heap_ordered_rename heap pos node new_key :
  heap !! pos = Some node → heap_ordered heap →
  heap_ordered (<[pos := mk_Node new_key (value node) (prio node)]> heap).
Proof.
  intros Hpos Hh.
  assert (∀ z n', <[pos := mk_Node new_key (value node) (prio node)]> heap !! z
                  = Some n' →
                  ∃ n, heap !! z = Some n ∧ prio n = prio n') as Hsame.
  { intros z n' [(-> & <- & _) | [? ?]]%list_lookup_insert_Some; eauto. }
  intros i c ni nc Hc (ni' & Hni & <-)%Hsame (nc' & Hnc & <-)%Hsame.
  by apply (Hh i c).
Qed.

(** *** Heap order is kept by every method *)

Lemma setitem_heap_ordered k v q :
  heap_ordered (_heap q) → heap_ordered (_heap (fst (__setitem__ k v q))).
Proof.
  intros Hq. destruct (_position q !! k) as [pos|] eqn:Hk.
  - destruct (_heap q !! pos) as [node|] eqn:Hpos.
    + rewrite (setitem_existing _ _ _ _ _ Hk Hpos). simpl.
      apply reheapify_heap_ordered. simpl. by apply reheapify_ready_update.
    + by rewrite (setitem_dangling _ _ _ _ Hk Hpos).
  - rewrite (setitem_new _ _ _ Hk). simpl.
    apply swim_heap_ordered. simpl. by apply swim_ready_append.
Qed.

Lemma delitem_heap_ordered k q :
  heap_ordered (_heap q) → heap_ordered (_heap (fst (__delitem__ k q))).
Proof.
  intros Hq. destruct (_position q !! k) as [pos|] eqn:Hk.
  - destruct (_heap q !! pos) as [node|] eqn:Hpos.
    + destruct (decide (pos = length (_heap q) - 1)) as [-> | Hne].
      * rewrite delitem_last; [|done|by intros Hnil; rewrite Hnil in Hpos].
        simpl. by apply heap_ordered_take.
      * destruct (last_is_Some _ _ (mk_is_Some _ _ Hpos)) as [end_node Hend].
        rewrite (delitem_inner _ _ _ _ _ Hk Hpos Hne Hend). simpl.
        apply reheapify_heap_ordered. simpl. by apply reheapify_ready_move_last.
    + by rewrite (delitem_dangling _ _ _ Hk Hpos).
  - by rewrite (delitem_missing _ _ Hk).
Qed.

Lemma pushpopitem_heap_ordered k v q :
  index_consistent q → heap_ordered (_heap q) →
  heap_ordered (_heap (fst (pushpopitem k v q))).
Proof.
  intros Hic Hq. destruct (_position q !! k) as [pos|] eqn:Hk.
  { by rewrite pushpopitem_present. }
  destruct (_heap q) as [|top rest] eqn:Hh.
  { rewrite pushpopitem_empty by done. simpl. by rewrite Hh. }
  destruct (precedes (prio top) (pushpop_prio v)) eqn:Hp.
  - pose proof (index_consistent_top _ _ _ Hic Hh) as Htop.
    assert (k ≠ key top) by (intros ->; congruence).
    rewrite (pushpopitem_evict _ _ _ _ _ Hk Hh Hp);
      [|by rewrite lookup_insert_ne]. simpl.
    apply sink_heap_ordered. simpl. by apply (sink_ready_replace_root top).
  - rewrite (pushpopitem_keep _ _ _ _ _ Hk Hh Hp). simpl. by rewrite Hh.
Qed.

Lemma replace_key_heap_ordered k new_key q :
  heap_ordered (_heap q) → heap_ordered (_heap (fst (replace_key k new_key q))).
Proof.
  intros Hq. destruct (_position q !! new_key) as [pos'|] eqn:Hnew.
  { by rewrite replace_key_present. }
  destruct (_position q !! k) as [pos|] eqn:Hk.
  - destruct (_heap q !! pos) as [node|] eqn:Hpos.
    + rewrite (replace_key_renames _ _ _ _ _ Hnew Hk Hpos). simpl.
      by apply heap_ordered_rename.
    + by rewrite (replace_key_dangling _ _ _ _ Hnew Hk Hpos).
  - by rewrite replace_key_missing.
Qed.

Lemma after_heap_ordered o q :
  index_consistent q → heap_ordered (_heap q) →
  heap_ordered (_heap (after o q)).
Proof.
  intros Hic Hq. destruct o as [k v|k|k v|k v|k v|k k'|k|]; simpl.
  - by apply setitem_heap_ordered.
  - by apply delitem_heap_ordered.
  - destruct (_position q !! k) eqn:Hk.
    + by rewrite additem_present.
    + rewrite additem_absent by done. by apply setitem_heap_ordered.
  - destruct (_position q !! k) eqn:Hk.
    + rewrite updateitem_present by done. by apply setitem_heap_ordered.
    + by rewrite updateitem_absent.
  - by apply pushpopitem_heap_ordered.
  - by apply replace_key_heap_ordered.
  - by rewrite getitem_state.
  - by rewrite topitem_state.
Qed.

Lemma reachable_heap_ordered q : reachable q → heap_ordered (_heap q).
Proof.
  induction 1 as [|o q Hq IH]; [apply heap_ordered_nil|].
  apply after_heap_ordered; [by apply reachable_index_consistent | done].
Qed.

(** C3. Heap invariant: on a queue that is index-consistent and in heap
    order, every public operation (assignment, [additem], [updateitem],
    deletion, [pushpopitem], [replace_key], and the reading ones) leaves
    the array in heap order: for every index [i] with an existing child
    [c], the child's priority does not strictly precede the parent's. *)
Theorem heap_order_preserved o q :
  index_consistent q → heap_ordered (_heap q) →
  ∀ i c ni nc,
    c = left_child i ∨ c = right_child i →
    _heap (after o q) !! i = Some ni → _heap (after o q) !! c = Some nc →
    precedes (prio nc) (prio ni) = false.
Proof. intros Hic Hq. by apply after_heap_ordered. Qed.

End Order.

(** ** [pushpopitem], [replace_key] and [additem], method by method *)

(** C1. [pushpopitem(key, value)] on an index-consistent queue that does not
    hold [key]: when the queue is non-empty and the top entry strictly
    precedes the new one, the new node takes array index 0 and is recorded
    there in the index, the old root leaves the index, [_sink(0)] runs on
    that state, and the old root's key and value are returned; otherwise
    the queue is returned as it was, together with the new key and value. *)
Theorem pushpopitem_behaviour k v q :
  index_consistent q → _position q !! k = None →
  match _heap q with
  | top :: rest =>
      if precedes (prio top) (pushpop_prio v) then
        let displaced :=
          mk_pqdict (mk_Node k v (pushpop_prio v) :: rest)
                    (delete (key top) (<[k := 0]> (_position q))) in
        pushpopitem k v q = (_sink 0 displaced, inr (key top, value top)) ∧
        _heap displaced !! 0 = Some (mk_Node k v (pushpop_prio v)) ∧
        _position displaced !! k = Some 0 ∧
        _position displaced !! key top = None
      else pushpopitem k v q = (q, inr (k, v))
  | [] => pushpopitem k v q = (q, inr (k, v))
  end.
Proof.
  intros Hic Hk. destruct (_heap q) as [|top rest] eqn:Hh.
  { by apply pushpopitem_empty. }
  destruct (precedes (prio top) (pushpop_prio v)) eqn:Hp.
  - pose proof (index_consistent_top _ _ _ Hic Hh) as Htop.
    assert (k ≠ key top) by (intros ->; congruence).
    simpl. split_and!.
    + apply pushpopitem_evict; [done..|]. by rewrite lookup_insert_ne.
    + done.
    + rewrite lookup_delete_ne by done. by rewrite lookup_insert_eq.
    + by rewrite lookup_delete_eq.
  - by apply (pushpopitem_keep _ _ _ top rest).
Qed.

(** C8. [replace_key(key, new_key)] on an index-consistent queue that holds
    [key] at [pos] and does not hold [new_key]: the index entry moves from
    [key] to [new_key], the node at [pos] gets the new key and keeps its
    value and priority, which are then found under [new_key]; [key] is
    gone; every other array entry, and every entry's value and priority,
    stay where they were. *)
Theorem replace_key_in_place k new_key q pos node :
  index_consistent q →
  _position q !! k = Some pos → _heap q !! pos = Some node →
  _position q !! new_key = None →
  ∃ q',
    replace_key k new_key q = (q', inr tt) ∧
    _position q' = <[new_key := pos]> (delete k (_position q)) ∧
    _heap q' !! pos = Some (mk_Node new_key (value node) (prio node)) ∧
    __getitem__ new_key q' = (q', inr (value node)) ∧
    _position q' !! k = None ∧ (k ∉ key <$> _heap q') ∧
    length (_heap q') = length (_heap q) ∧
    (∀ i, i ≠ pos → _heap q' !! i = _heap q !! i) ∧
    value <$> _heap q' = value <$> _heap q ∧
    prio <$> _heap q' = prio <$> _heap q.
Proof.
  intros Hic Hk Hpos Hnew.
  assert (k ≠ new_key) as Hne by (intros ->; congruence).
  pose proof (replace_key_index_consistent k new_key q Hic) as Hic'.
  rewrite (replace_key_renames _ _ _ _ _ Hnew Hk Hpos) in Hic' |- *.
  simpl in Hic'. eexists. split; [done|]. simpl.
  assert (<[pos := mk_Node new_key (value node) (prio node)]> (_heap q) !! pos
          = Some (mk_Node new_key (value node) (prio node))) as Hat.
  { apply list_lookup_insert_eq. by eapply lookup_lt_Some. }
  assert (<[new_key := pos]> (delete k (_position q)) !! k = None) as Hgone.
  { rewrite lookup_insert_ne by done. by rewrite lookup_delete_eq. }
  split_and!.
  - done.
  - done.
  - mrun. rewrite lookup_insert_eq. simpl. by rewrite Hat.
  - done.
  - intros Hin. apply (index_consistent_dom _ k Hic') in Hin.
    apply elem_of_dom in Hin as [? Hin]. simpl in Hin. congruence.
  - by rewrite length_insert.
  - intros i Hi. by rewrite list_lookup_insert_ne.
  - rewrite list_fmap_insert. simpl. apply list_insert_id.
    by rewrite list_lookup_fmap, Hpos.
  - rewrite list_fmap_insert. simpl. apply list_insert_id.
    by rewrite list_lookup_fmap, Hpos.
Qed.

(** C9. [additem(key, value)] raises the "already in the queue" [KeyError]
    exactly when [key] is in the index; whenever it raises, it is that
    error and the queue is left as it was; when [key] is absent it
    returns normally. *)
Theorem additem_KeyAlreadyExists k v q :
  (snd (additem k v q) = inl (KeyError (already_in_the_queue k))
   ↔ is_Some (_position q !! k)) ∧
  (∀ e, snd (additem k v q) = inl e →
        additem k v q = (q, inl (KeyError (already_in_the_queue k)))) ∧
  (_position q !! k = None → snd (additem k v q) = inr tt).
Proof.
  destruct (_position q !! k) as [pos|] eqn:Hk.
  - rewrite additem_present by done. simpl. split_and!; [|done..].
    split; [by eauto | done].
  - rewrite additem_absent by done. rewrite (setitem_new _ _ _ Hk). simpl.
    split_and!; [|done..]. split; [done | by intros [??]].
Qed.

(** C10. [replace_key] tests the new key before it looks up the old one:
    whenever [new_key] is in the index the call raises the "already in
    the queue" [KeyError] for [new_key] and leaves the queue as it was.
    So renaming a present key to itself raises, and so does a call whose
    old key is absent. *)
Theorem replace_key_checks_new_key_first k new_key q :
  is_Some (_position q !! new_key) →
  replace_key new_key new_key q
    = (q, inl (KeyError (already_in_the_queue new_key))) ∧
  (_position q !! k = None →
   replace_key k new_key q
     = (q, inl (KeyError (already_in_the_queue new_key)))).
Proof.
  intros Hnew. split; [|intros _]; by apply replace_key_present.
Qed.

(** ** The entries a method keeps *)

Lemma swim_Permutation pos q : _heap (_swim pos q) ≡ₚ _heap q.
Proof.
  unfold _swim.
  by apply (swim_loop_stable (λ q', _heap q' ≡ₚ _heap q));
    [apply Permutation_swap_stable|].
Qed.

Lemma sink_Permutation pos q : _heap (_sink pos q) ≡ₚ _heap q.
Proof.
  unfold _sink.
  by apply (sink_loop_stable (λ q', _heap q' ≡ₚ _heap q));
    [apply Permutation_swap_stable|].
Qed.

Lemma reheapify_Permutation pos q : _heap (_reheapify pos q) ≡ₚ _heap q.
Proof.
  by apply (reheapify_stable (λ q', _heap q' ≡ₚ _heap q));
    [apply Permutation_swap_stable|].
Qed.

Lemma take_last_snoc (heap : list _Node) end_node :
  last heap = Some end_node → take (length heap - 1) heap ++ [end_node] = heap.
Proof.
  intros Hend. destruct (last_Some heap end_node) as [[heap' ->] _]; [done|].
  rewrite length_app. simpl.
  replace (length heap' + 1 - 1) with (length heap') by lia.
  by rewrite take_app_length.
Qed.

Lemma move_last_Permutation (heap : list _Node) pos node end_node :
  heap !! pos = Some node → pos ≠ length heap - 1 →
  last heap = Some end_node →
  node :: <[pos := end_node]> (take (length heap - 1) heap) ≡ₚ heap.
Proof.
  intros Hpos Hne Hend. apply lookup_lt_Some in Hpos as Hlt.
  rewrite <- (take_last_snoc heap end_node Hend) at 3.
  assert (take (length heap - 1) heap !! pos = Some node) as Hpos'
    by (apply lookup_take_Some; split; [done | lia]).
  rewrite insert_take_drop by (rewrite length_take; lia).
  rewrite <- (take_drop_middle _ _ _ Hpos') at 3.
  rewrite <- !Permutation_middle. rewrite app_nil_r.
  apply Permutation_swap.
Qed.

Lemma index_consistent_absent q k :
  index_consistent q → k ∉ (key <$> _heap q) → _position q !! k = None.
Proof.
  intros Hic Hk. apply not_elem_of_dom. by rewrite index_consistent_dom.
Qed.

(** Deleting a key that is there: the call returns, the node of the key
    is the one entry that leaves the array, and the key leaves the index. *)
Lemma delitem_removes k q pos node :
  index_consistent q →
  _position q !! k = Some pos → _heap q !! pos = Some node →
  ∃ q', __delitem__ k q = (q', inr tt) ∧
        node :: _heap q' ≡ₚ _heap q ∧ _position q' !! k = None.
Proof.
  intros Hic Hk Hpos.
  pose proof (delitem_index_consistent k q Hic) as Hic'.
  pose proof (index_consistent_NoDup q Hic) as Hnd.
  assert (key node = k) as Hkey.
  { destruct (index_consistent_lookup _ _ _ Hic Hk) as (n & Hn & Hkn).
    congruence. }
  assert (∀ q', index_consistent q' → node :: _heap q' ≡ₚ _heap q →
                _position q' !! k = None) as Hgone.
  { intros q' Hq' Hperm. apply index_consistent_absent; [done|].
    rewrite <- Hperm in Hnd. rewrite fmap_cons, Hkey in Hnd.
    by apply NoDup_cons in Hnd as [??]. }
  destruct (decide (pos = length (_heap q) - 1)) as [-> | Hne].
  - assert (_heap q ≠ []) as Hnil by (by intros Hnil; rewrite Hnil in Hpos).
    rewrite (delitem_last _ _ Hk Hnil) in Hic' |- *.
    eexists. split; [done|]. simpl in *.
    assert (node :: take (length (_heap q) - 1) (_heap q) ≡ₚ _heap q) as Hperm.
    { rewrite <- (take_last_snoc (_heap q) node) at 3.
      - by rewrite Permutation_cons_append.
      - rewrite last_lookup. rewrite <- Hpos. f_equal. lia. }
    split; [done|]. by apply (Hgone _ Hic').
  - destruct (last_is_Some _ _ (mk_is_Some _ _ Hpos)) as [end_node Hend].
    rewrite (delitem_inner _ _ _ _ _ Hk Hpos Hne Hend) in Hic' |- *.
    eexists. split; [done|]. simpl in *.
    assert (node :: _heap (_reheapify pos
              (mk_pqdict (<[pos := end_node]> (take (length (_heap q) - 1) (_heap q)))
                         (<[key end_node := pos]> (delete k (_position q)))))
            ≡ₚ _heap q) as Hperm.
    { rewrite reheapify_Permutation. simpl. by apply move_last_Permutation. }
    split; [done|]. by apply (Hgone _ Hic').
Qed.

(** ** Extraction in priority order *)

Lemma index_consistent_nil q :
  index_consistent q → _heap q = [] → q = empty_pqdict.
Proof.
  intros [_ Hbwd] Hh. destruct q as [heap position]. simpl in *. subst.
  unfold empty_pqdict. f_equal. apply map_empty. intros k.
  destruct (position !! k) as [i|] eqn:Hk; [|done].
  destruct (Hbwd _ _ Hk) as (n & Hn & _). by rewrite lookup_nil in Hn.
Qed.

Section Extraction.
Hypothesis Hord : priority_order.

(** The root of an array in heap order is preceded by no entry. *)
Lemma root_minimal heap top :
  heap_ordered heap → heap !! 0 = Some top →
  ∀ node, node ∈ heap → precedes (prio node) (prio top) = false.
Proof.
  intros Hh Htop node [i Hi]%list_elem_of_lookup.
  pose proof (proj1 (heap_ordered_edges _) Hh) as Hedges.
  revert node Hi. induction (lt_wf i) as [i _ IH]. intros node Hi.
  destruct (decide (i = 0)) as [-> | Hne].
  { simplify_eq. apply (precedes_irrefl Hord). }
  assert (0 < i) as Hpos by lia. pose proof (parent_lt i Hpos) as Hlt.
  assert (is_Some (heap !! parent i)) as [pn Hpn].
  { apply lookup_lt_is_Some. apply lookup_lt_Some in Hi. lia. }
  apply (precedes_negtrans Hord _ (prio pn)).
  - by apply (Hedges i).
  - by apply (IH (parent i)).
Qed.

Lemma drain_loop_sorted fuel q :
  length (_heap q) ≤ fuel → index_consistent q → heap_ordered (_heap q) →
  ∃ nodes,
    drain_loop fuel q = (empty_pqdict, inr (item_of <$> nodes)) ∧
    nodes ≡ₚ _heap q ∧
    StronglySorted (λ a b, precedes (prio b) (prio a) = false) nodes.
Proof.
  revert q. induction fuel as [|fuel IH]; intros q Hfuel Hic Hq.
  { exists []. assert (_heap q = []) as Hnil by (apply nil_length_inv; lia).
    rewrite Hnil. simpl. unfold ret.
    rewrite (index_consistent_nil q Hic Hnil). split_and!; [done..|constructor]. }
  destruct (_heap q) as [|top rest] eqn:Hh.
  { exists []. rewrite (index_consistent_nil q Hic Hh).
    split_and!; [done..|constructor]. }
  pose proof (index_consistent_top _ _ _ Hic Hh) as Htop.
  assert (_heap q !! 0 = Some top) as Hroot by by rewrite Hh.
  destruct (delitem_removes _ _ _ _ Hic Htop Hroot) as (q' & Hdel & Hperm & _).
  pose proof (delitem_index_consistent (key top) q Hic) as Hic'.
  assert (heap_ordered (_heap q)) as Hq0 by by rewrite Hh.
  pose proof (delitem_heap_ordered Hord (key top) q Hq0) as Hq'.
  rewrite Hdel in Hic', Hq'. simpl in Hic', Hq'.
  destruct (IH q') as (nodes & Hrun & Hnodes & Hsorted); [|done..|].
  { apply Permutation_length in Hperm. rewrite Hh in Hperm.
    simpl in *. lia. }
  exists (top :: nodes). split_and!.
  - simpl. unfold bind at 1. unfold __len__ at 1. unfold bind at 1.
    unfold get_heap at 1, ret at 1. rewrite Hh. simpl.
    unfold bind at 1. unfold topitem, bind at 1, get_heap at 1. rewrite Hh.
    simpl. unfold ret at 1. unfold bind at 1. simpl. rewrite Hdel.
    unfold bind at 1. by rewrite Hrun.
  - rewrite Hnodes. by rewrite Hperm, Hh.
  - constructor; [done|]. apply Forall_forall. intros node Hnode.
    apply (root_minimal (_heap q)); [done..|].
    rewrite <- Hperm. apply list_elem_of_further. by rewrite <- Hnodes.
Qed.

(** C5. Priority-order extraction: on a queue that is index-consistent
    and in heap order, under a comparator that is a strict weak order,
    reading the top item and removing it by key until the queue is empty
    never raises, empties the queue, and yields every entry exactly once,
    in the order of the comparator: no item that comes out later strictly
    precedes one that came out earlier (ascending priorities for [lt]). *)
Theorem drain_in_priority_order q :
  index_consistent q → heap_ordered (_heap q) →
  ∃ nodes,
    drain q = (empty_pqdict, inr (item_of <$> nodes)) ∧
    nodes ≡ₚ _heap q ∧
    StronglySorted (λ a b, precedes (prio b) (prio a) = false) nodes.
Proof.
  intros Hic Hq.
  destruct (drain_loop_sorted (length (_heap q)) q) as (nodes & Hrun & Hrest);
    [done..|].
  exists nodes. split; [|done]. by unfold drain, bind, __len__, bind, get_heap, ret.
Qed.

End Extraction.

(** ** Deleting *)

(** C6 (as the code has it). Deleting a key [k] that is in an
    index-consistent queue with value [v] returns nothing: [__delitem__]
    has no result.  It removes exactly the node of [k] from the array and
    [k] from the index.  The pair [(k, v)] is what [q[k]] gives before
    the deletion. *)
Theorem delitem_returns_nothing k q pos node :
  index_consistent q →
  _position q !! k = Some pos → _heap q !! pos = Some node →
  __getitem__ k q = (q, inr (value node)) ∧
  ∃ q', __delitem__ k q = (q', inr tt) ∧
        node :: _heap q' ≡ₚ _heap q ∧
        _position q' !! k = None ∧ index_consistent q'.
Proof.
  intros Hic Hk Hpos. split.
  - mrun. rewrite Hk. simpl. by rewrite Hpos.
  - destruct (delitem_removes _ _ _ _ Hic Hk Hpos) as (q' & Hdel & Hperm & Hgone).
    exists q'. split_and!; [done..|].
    pose proof (delitem_index_consistent k q Hic) as Hic'.
    by rewrite Hdel in Hic'.
Qed.

(** ** Two queues with the same entries *)

Lemma same_entries_getitem q1 q2 k :
  index_consistent q1 → index_consistent q2 → _heap q1 ≡ₚ _heap q2 →
  snd (__getitem__ k q1) = snd (__getitem__ k q2).
Proof.
  assert (∀ qa qb pos, index_consistent qa → index_consistent qb →
            _heap qa ≡ₚ _heap qb → _position qa !! k = Some pos →
            snd (__getitem__ k qa) = snd (__getitem__ k qb)) as Hsome.
  { intros qa qb pos Ha Hb Hperm Hk.
    destruct (index_consistent_lookup _ _ _ Ha Hk) as (n & Hn & Hkn).
    assert (n ∈ _heap qb) as [j Hj]%list_elem_of_lookup.
    { rewrite <- Hperm. by eapply list_elem_of_lookup_2. }
    pose proof (proj1 Hb _ _ Hj) as Hkb. rewrite Hkn in Hkb.
    mrun. rewrite Hk, Hkb. simpl. by rewrite Hn, Hj. }
  intros H1 H2 Hperm.
  destruct (_position q1 !! k) as [pos|] eqn:Hk1; [by eapply Hsome|].
  destruct (_position q2 !! k) as [pos|] eqn:Hk2.
  { symmetry. by eapply Hsome. }
  mrun. by rewrite Hk1, Hk2.
Qed.

(** ** [pushpopitem] against insert-then-remove-top *)

(** A node that does not precede the root never takes the root's place
    when it swims. *)
Lemma swim_loop_root fuel pos q top x :
  _heap q !! 0 = Some top → _heap q !! pos = Some x → pos ≠ 0 →
  precedes (prio x) (prio top) = false →
  _heap (swim_loop fuel pos q) !! 0 = Some top.
Proof.
  revert pos q. induction fuel as [|fuel IH]; intros pos q Htop Hx Hpos Hxt;
    simpl; [done|].
  rewrite decide_False by done. rewrite Hx.
  destruct (_heap q !! parent pos) as [y|] eqn:Hy; [|done].
  destruct (precedes (prio x) (prio y)) eqn:Hxy; [|done].
  assert (parent pos ≠ 0) as Hpp by (intros H0; rewrite H0 in Hy; congruence).
  pose proof (parent_lt pos) as Hlt.
  apply IH; [| |done..].
  - rewrite (swap_nodes_lookup pos (parent pos) q x y) by (done || lia).
    by rewrite !decide_False by done.
  - rewrite (swap_nodes_lookup pos (parent pos) q x y) by (done || lia).
    by rewrite decide_True.
Qed.

Lemma additem_adds k v q :
  index_consistent q → _position q !! k = None →
  ∃ qa, additem k v q = (qa, inr tt) ∧
        qa = _swim (length (_heap q))
               (mk_pqdict (_heap q ++ [mk_Node k v (keyfn v)])
                          (<[k := length (_heap q)]> (_position q))) ∧
        _heap qa ≡ₚ _heap q ++ [mk_Node k v (keyfn v)] ∧
        index_consistent qa.
Proof.
  intros Hic Hk. eexists. split_and!.
  - rewrite additem_absent by done. by apply setitem_new.
  - done.
  - by rewrite swim_Permutation.
  - apply swim_index_consistent. destruct q. by apply index_consistent_append.
Qed.

Section Equivalence.
Hypothesis Hord : priority_order.

(** C2 (as the code has it). On an index-consistent queue in heap order
    that does not hold [k], under a strict weak order, when [pushpopitem]
    gives [v] the priority that [__setitem__] gives it (as it does when
    [self._keyfn] is [None] or a callable that is true): when the queue
    is empty, or the priority of the new entry does not tie with the
    top's (one of the two strictly precedes the other),
    [pushpopitem(k, v)] and [additem(k, v)] followed by reading and
    removing the top return the same item and leave queues with the same
    entries: the two arrays are permutations of each other, both
    index-consistent and in heap order, and every key reads the same in
    both. *)
Theorem pushpopitem_additem_pop k v q :
  index_consistent q → heap_ordered (_heap q) → _position q !! k = None →
  pushpop_prio v = keyfn v →
  match _heap q with
  | [] => True
  | top :: _ => precedes (prio top) (keyfn v) = true
                ∨ precedes (keyfn v) (prio top) = true
  end →
  ∃ q1 q2 item,
    pushpopitem k v q = (q1, inr item) ∧
    additem_then_pop_top k v q = (q2, inr item) ∧
    _heap q1 ≡ₚ _heap q2 ∧
    index_consistent q1 ∧ index_consistent q2 ∧
    heap_ordered (_heap q1) ∧ heap_ordered (_heap q2) ∧
    ∀ k', snd (__getitem__ k' q1) = snd (__getitem__ k' q2).
Proof.
  intros Hic Hq Hk Hpk Hcase.
  assert (∃ q1 q2 item,
    pushpopitem k v q = (q1, inr item) ∧
    additem_then_pop_top k v q = (q2, inr item) ∧
    _heap q1 ≡ₚ _heap q2) as (q1 & q2 & item & Hpp & Hap & Hperm).
  { set (new := mk_Node k v (keyfn v)).
    destruct (additem_adds k v q Hic Hk) as (qa & Hadd & Hqa & Hperma & Hica).
    fold new in Hqa, Hperma.
    assert (heap_ordered (_heap qa)) as Hoa.
    { pose proof (setitem_heap_ordered Hord k v q Hq) as Ho.
      rewrite additem_absent in Hadd by done. by rewrite Hadd in Ho. }
    assert (is_Some (_heap qa !! 0)) as [t Ht].
    { apply lookup_lt_is_Some. apply Permutation_length in Hperma.
      rewrite length_app in Hperma. simpl in Hperma. lia. }
    pose proof (proj1 Hica _ _ Ht) as Hkt.
    destruct (delitem_removes _ _ _ _ Hica Hkt Ht) as (q2 & Hdel & Hperm2 & _).
    assert (additem_then_pop_top k v q = (q2, inr (item_of t))) as Hrun.
    { unfold additem_then_pop_top, bind at 1. rewrite Hadd.
      unfold bind at 1. unfold topitem, bind at 1, get_heap at 1.
      rewrite Ht. unfold ret at 1. unfold bind at 1. simpl. by rewrite Hdel. }
    destruct (_heap q) as [|top rest] eqn:Hh.
    - (* the queue is empty *)
      exists q, q2, (k, v). rewrite pushpopitem_empty by done.
      assert (t = new) as ->.
      { apply list_elem_of_lookup_2 in Ht. rewrite Hperma in Ht.
        by apply list_elem_of_singleton in Ht. }
      split_and!; [done..|]. rewrite Hh.
      rewrite Hperma in Hperm2. simpl in Hperm2.
      by apply Permutation_cons_inv in Hperm2.
    - destruct Hcase as [Htop | Hnew].
      + (* the top strictly precedes the new entry *)
        pose proof (index_consistent_top _ _ _ Hic Hh) as Htopk.
        assert (k ≠ key top) by (intros ->; congruence).
        eexists _, q2, (item_of top).
        rewrite (pushpopitem_evict k v q top rest Hk Hh)
          by (by rewrite ?Hpk, ?lookup_insert_ne).
        rewrite Hpk.
        assert (t = top) as ->.
        { assert (_heap qa !! 0 = Some top) as Ht'; [|congruence].
          rewrite Hqa. unfold _swim.
          apply (swim_loop_root _ _ _ _ new); simpl.
          - done.
          - by rewrite lookup_app_r, Nat.sub_diag.
          - done.
          - by apply precedes_asym. }
        split_and!; [done..|]. rewrite sink_Permutation. simpl.
        rewrite Hperma in Hperm2. simpl in Hperm2.
        apply Permutation_cons_inv in Hperm2. rewrite Hperm2.
        by rewrite Permutation_cons_append.
      + (* the new entry strictly precedes the top *)
        exists q, q2, (k, v).
        rewrite (pushpopitem_keep k v q top rest Hk Hh)
          by (rewrite Hpk; by apply precedes_asym).
        assert (t = new) as ->.
        { pose proof (list_elem_of_lookup_2 _ _ _ Ht) as Hin.
          rewrite Hperma in Hin. apply elem_of_app in Hin as [Hin | Hin];
            [|by apply list_elem_of_singleton in Hin].
          exfalso.
          assert (precedes (prio new) (prio t) = false) as Hnt.
          { apply (root_minimal Hord (_heap qa)); [done..|].
            rewrite Hperma. apply elem_of_app. right. by left. }
          assert (precedes (prio t) (prio top) = false) as Htt.
          { apply (root_minimal Hord (top :: rest)); done. }
          pose proof (precedes_negtrans Hord _ _ _ Hnt Htt). simpl in *.
          congruence. }
        split_and!; [done..|]. rewrite Hh.
        rewrite Hperma in Hperm2.
        rewrite <- Permutation_cons_append in Hperm2.
        by apply Permutation_cons_inv in Hperm2. }
  assert (index_consistent q1) as Hic1.
  { pose proof (pushpopitem_index_consistent k v q Hic) as Hi.
    by rewrite Hpp in Hi. }
  assert (heap_ordered (_heap q1)) as Ho1.
  { pose proof (pushpopitem_heap_ordered Hord k v q Hic Hq) as Ho.
    by rewrite Hpp in Ho. }
  assert (index_consistent q2 ∧ heap_ordered (_heap q2)) as [Hic2 Ho2].
  { unfold additem_then_pop_top, bind in Hap.
    pose proof (after_index_consistent (op_additem k v) q Hic) as Hia.
    pose proof (after_heap_ordered Hord (op_additem k v) q Hic Hq) as Hoa.
    simpl in Hia, Hoa. destruct (additem k v q) as [qa [e|[]]]; [done|].
    simpl in *. pose proof (topitem_state qa) as Htq.
    destruct (topitem qa) as [qb [e|it]]; [done|]. simpl in *. subst qb.
    pose proof (delitem_index_consistent (fst it) qa Hia) as Hid.
    pose proof (delitem_heap_ordered Hord (fst it) qa Hoa) as Hod.
    destruct (__delitem__ (fst it) qa) as [qc [e|[]]]; [done|].
    unfold ret in Hap. by simplify_eq. }
  exists q1, q2, item. split_and!; [done..|].
  intros k'. by apply same_entries_getitem.
Qed.

End Equivalence.

(** ** Insert, then delete *)

(** On an array in heap order neither loop moves anything. *)
Lemma sink_loop_id fuel pos q :
  heap_ordered (_heap q) → sink_loop fuel pos q = q.
Proof.
  intros Hq. destruct fuel as [|fuel]; [done|]. simpl.
  destruct (winning_child pos (_heap q)) as [c|] eqn:Hw; [|done].
  destruct (winning_child_cases _ _ _ Hw) as [Hc _].
  destruct (_heap q !! pos) as [x|] eqn:Hx; [|done].
  destruct (_heap q !! c) as [y|] eqn:Hy; [|done].
  by rewrite (Hq pos c x y).
Qed.

Lemma swim_loop_id fuel pos q :
  heap_ordered (_heap q) → swim_loop fuel pos q = q.
Proof.
  intros Hq. destruct fuel as [|fuel]; [done|]. simpl.
  case_decide as Hpos; [done|].
  destruct (_heap q !! pos) as [x|] eqn:Hx; [|done].
  destruct (_heap q !! parent pos) as [y|] eqn:Hy; [|done].
  rewrite (Hq (parent pos) pos y x); [done| |done..].
  apply child_of_parent. lia.
Qed.

Lemma sink_loop_step fuel pos c q x y :
  winning_child pos (_heap q) = Some c →
  _heap q !! pos = Some x → _heap q !! c = Some y →
  precedes (prio y) (prio x) = true →
  sink_loop (S fuel) pos q = sink_loop fuel c (swap_nodes pos c q).
Proof. intros Hw Hx Hy Hp. simpl. by rewrite Hw, Hx, Hy, Hp. Qed.

(** [_sink] has fuel to spare: one more round changes nothing. *)
Lemma sink_loop_fuel fuel pos q :
  length (_heap q) ≤ pos + fuel →
  sink_loop (S fuel) pos q = sink_loop fuel pos q.
Proof.
  revert pos q. induction fuel as [|fuel IH]; intros pos q Hfuel.
  - simpl. unfold winning_child.
    rewrite (proj2 (lookup_ge_None (_heap q) (left_child pos))); [done|].
    unfold left_child. lia.
  - change (sink_loop (S (S fuel)) pos q) with
      (match winning_child pos (_heap q) with
       | None => q
       | Some child_pos =>
           match _heap q !! pos, _heap q !! child_pos with
           | Some node, Some child_node =>
               if precedes (prio child_node) (prio node)
               then sink_loop (S fuel) child_pos (swap_nodes pos child_pos q)
               else q
           | _, _ => q
           end
       end).
    simpl. destruct (winning_child pos (_heap q)) as [c|] eqn:Hw; [|done].
    destruct (winning_child_cases _ _ _ Hw) as [Hc _].
    destruct (_heap q !! pos) as [x|] eqn:Hx; [|done].
    destruct (_heap q !! c) as [y|] eqn:Hy; [|done].
    case_match; [|done]. apply IH. rewrite swap_nodes_length.
    unfold left_child, right_child in Hc. lia.
Qed.

Lemma swim_loop_step fuel pos q x y :
  pos ≠ 0 → _heap q !! pos = Some x → _heap q !! parent pos = Some y →
  precedes (prio x) (prio y) = true →
  swim_loop (S fuel) pos q
  = swim_loop fuel (parent pos) (swap_nodes pos (parent pos) q).
Proof.
  intros Hpos Hx Hy Hp. simpl. by rewrite decide_False, Hx, Hy, Hp.
Qed.

Lemma swim_loop_stop fuel pos q x y :
  _heap q !! pos = Some x → _heap q !! parent pos = Some y →
  precedes (prio x) (prio y) = false →
  swim_loop fuel pos q = q.
Proof.
  intros Hx Hy Hp. destruct fuel; [done|]. simpl.
  case_decide; [done|]. by rewrite Hx, Hy, Hp.
Qed.

(** [_swim] too: the loop run with fuel [pos] has come to its end. *)
Lemma swim_loop_fuel fuel pos q :
  pos ≤ fuel → swim_loop (S fuel) pos q = swim_loop fuel pos q.
Proof.
  revert pos q. induction fuel as [|fuel IH]; intros pos q Hfuel.
  - simpl. rewrite decide_True; [done | lia].
  - change (swim_loop (S (S fuel)) pos q) with
      (if decide (pos = 0) then q
       else
         match _heap q !! pos, _heap q !! parent pos with
         | Some node, Some parent_node =>
             if precedes (prio node) (prio parent_node)
             then swim_loop (S fuel) (parent pos)
                    (swap_nodes pos (parent pos) q)
             else q
         | _, _ => q
         end).
    simpl. case_decide as Hpos; [done|].
    destruct (_heap q !! pos) as [x|] eqn:Hx; [|done].
    destruct (_heap q !! parent pos) as [y|] eqn:Hy; [|done].
    case_match; [|done]. apply IH. pose proof (parent_lt pos). lia.
Qed.

Lemma iter_parent_le i d : Nat.iter i parent d ≤ d.
Proof.
  induction i as [|i IH]; simpl; [done|].
  destruct (decide (Nat.iter i parent d = 0)) as [-> | Hne]; [by compute; lia|].
  pose proof (parent_lt (Nat.iter i parent d)). lia.
Qed.

Ltac list_pointwise :=
  apply list_eq; intros ?;
  repeat (rewrite list_lookup_insert || rewrite lookup_take
          || rewrite length_insert || rewrite length_take);
  repeat case_decide; destruct_and?; simplify_eq;
  try done; try congruence; try lia.

Ltac map_pointwise :=
  apply map_eq; intros ?;
  repeat (rewrite lookup_insert || rewrite lookup_delete);
  repeat case_decide; simplify_eq; try done; try congruence.

(** Deleting [k] after its node has moved one level up starts [_sink] one
    level higher; once the parent has come back down, the queue is the one
    deleting [k] before the move starts from. *)
Lemma moved_last_swap q k pos x y e :
  index_consistent q → 0 < pos → pos < length (_heap q) - 1 →
  _heap q !! pos = Some x → key x = k → _heap q !! parent pos = Some y →
  last (_heap q) = Some e →
  swap_nodes (parent pos) pos
    (moved_last k (parent pos) e (swap_nodes pos (parent pos) q))
  = moved_last k pos e q.
Proof.
  intros Hic Hpos Hlt Hx Hkx Hy He.
  pose proof (parent_lt pos Hpos) as Hp.
  rewrite last_lookup in He.
  replace (pred (length (_heap q))) with (length (_heap q) - 1) in He by lia.
  assert (key x ≠ key y) as Hxy
    by (intros Heq; pose proof (index_consistent_key_inj _ _ _ _ _ Hic Hx Hy Heq); lia).
  assert (key x ≠ key e) as Hxe
    by (intros Heq; pose proof (index_consistent_key_inj _ _ _ _ _ Hic Hx He Heq); lia).
  assert (key y ≠ key e) as Hye
    by (intros Heq; pose proof (index_consistent_key_inj _ _ _ _ _ Hic Hy He Heq); lia).
  pose proof (proj1 Hic _ _ Hy) as Hky.
  rewrite (swap_nodes_eq pos (parent pos) q x y) by done.
  unfold moved_last. simpl. rewrite !length_insert.
  rewrite (swap_nodes_eq (parent pos) pos _ e y); simpl.
  - f_equal.
    + list_pointwise.
    + subst k. map_pointwise.
  - apply list_lookup_insert_eq. rewrite length_take, !length_insert. lia.
  - rewrite list_lookup_insert_ne by lia.
    rewrite lookup_take_lt by lia. rewrite list_lookup_insert_ne by lia.
    apply list_lookup_insert_eq. lia.
Qed.

Section RoundTrip.
Hypothesis Hord : priority_order.

(** In heap order, an entry does not precede any of its ancestors. *)
Lemma ancestor_not_preceded heap i d nd na :
  heap_ordered heap → heap !! d = Some nd →
  heap !! Nat.iter i parent d = Some na →
  precedes (prio nd) (prio na) = false.
Proof.
  intros Hh Hd. pose proof (proj1 (heap_ordered_edges _) Hh) as Hedges.
  revert na. induction i as [|i IH]; intros na Ha; simpl in *.
  { simplify_eq. apply (precedes_irrefl Hord). }
  destruct (decide (Nat.iter i parent d = 0)) as [H0 | Hne].
  { rewrite H0 in *. by apply IH. }
  assert (is_Some (heap !! Nat.iter i parent d)) as [m Hm].
  { apply lookup_lt_is_Some. apply lookup_lt_Some in Hd.
    pose proof (iter_parent_le i d). lia. }
  apply (precedes_negtrans Hord _ (prio m)); [by apply IH|].
  apply (Hedges (Nat.iter i parent d)); [lia | done..].
Qed.

Lemma no_ties_strict heap i j ni nj :
  no_ties heap → i ≠ j → heap !! i = Some ni → heap !! j = Some nj →
  precedes (prio nj) (prio ni) = false → precedes (prio ni) (prio nj) = true.
Proof.
  intros Hnt Hij Hi Hj Hji.
  destruct (Hnt i j ni nj Hij Hi Hj) as [? | ?]; [done | congruence].
Qed.

(** Deleting [k] where swimming left its node, when no array entry has
    moved yet except along the path the node came up. *)
Lemma delitem_where_swim_stopped original k x e pos q :
  index_consistent q → heap_ordered (_heap original) →
  key x = k → length (_heap q) = S (length (_heap original)) →
  _heap q !! pos = Some x → _heap q !! length (_heap original) = Some e →
  pos < length (_heap original) →
  _sink pos (moved_last k pos e q) = original →
  __delitem__ k q = (original, inr tt).
Proof.
  intros Hic Ho Hkx Hlen Hx He Hlt Hsink.
  pose proof (proj1 Hic _ _ Hx) as Hk. rewrite Hkx in Hk.
  rewrite (delitem_inner k q pos x e); [|done|done|lia|].
  - unfold _reheapify. fold (moved_last k pos e q). rewrite Hsink.
    unfold _swim. by rewrite swim_loop_id.
  - rewrite last_lookup, Hlen. done.
Qed.

Lemma swim_then_delitem original k x e fuel pos q :
  index_consistent original → heap_ordered (_heap original) →
  no_ties (_heap original) → key x = k →
  _heap original !! parent (length (_heap original)) = Some e →
  index_consistent q → length (_heap q) = S (length (_heap original)) →
  _heap q !! pos = Some x → _heap q !! length (_heap original) = Some e →
  pos < length (_heap original) →
  (∀ j, j < pos → _heap q !! j = _heap original !! j) →
  (0 < pos → ∀ j, 0 < j → parent j = parent pos → j ≠ pos →
             j < length (_heap original) →
             _heap q !! j = _heap original !! j) →
  (∃ i, Nat.iter i parent (parent (length (_heap original))) = pos) →
  _sink pos (moved_last k pos e q) = original →
  pos ≤ fuel →
  __delitem__ k (swim_loop fuel pos q) = (original, inr tt).
Proof.
  intros Hico Ho Hnt Hkx Heo. revert pos q.
  induction fuel as [|fuel IH];
    intros pos q Hic Hlen Hx He Hlt Hbefore Hsibling [i Hanc] Hsink Hfuel;
    simpl.
  { by apply (delitem_where_swim_stopped original k x e pos). }
  case_decide as Hpos.
  { by apply (delitem_where_swim_stopped original k x e pos). }
  rewrite Hx.
  pose proof (parent_lt pos) as Hp.
  assert (is_Some (_heap q !! parent pos)) as [y Hy].
  { apply lookup_lt_is_Some. lia. }
  rewrite Hy. destruct (precedes (prio x) (prio y)) eqn:Hxy;
    [|by apply (delitem_where_swim_stopped original k x e pos)].
  assert (_heap original !! parent pos = Some y) as Hyo
    by (rewrite <- Hbefore; [done | lia]).
  assert (∀ z, _heap (swap_nodes pos (parent pos) q) !! z =
               if decide (z = parent pos) then Some x
               else if decide (z = pos) then Some y else _heap q !! z) as Hlook.
  { intros z. apply swap_nodes_lookup; [lia | done..]. }
  apply IH.
  - apply swap_nodes_index_consistent; [lia | by eauto..].
  - by rewrite swap_nodes_length.
  - rewrite Hlook. by rewrite decide_True.
  - rewrite Hlook. by rewrite !decide_False by lia.
  - lia.
  - intros j Hj. rewrite Hlook. rewrite !decide_False by lia.
    apply Hbefore. lia.
  - intros Hpp j Hj Hpj Hne Hjn.
    assert (j < pos).
    { destruct (child_of_parent j Hj) as [Hcj | Hcj];
        destruct (child_of_parent (parent pos) Hpp) as [Hcp | Hcp];
        destruct (child_of_parent pos) as [Hcq | Hcq]; try lia;
        unfold left_child, right_child in *; lia. }
    rewrite Hlook. rewrite !decide_False by lia. by apply Hbefore.
  - exists (S i). simpl. by rewrite Hanc.
  - (* one round of [_sink] brings the parent back down *)
    assert (precedes (prio y) (prio e) = true) as Hye.
    { apply (no_ties_strict (_heap original)
               (parent pos) (parent (length (_heap original)))); [done| |done..|].
      - pose proof (iter_parent_le i (parent (length (_heap original)))). lia.
      - apply (ancestor_not_preceded (_heap original) (S i)
                 (parent (length (_heap original)))); [done..|].
        simpl. by rewrite Hanc. }
    assert (length (_heap (moved_last k (parent pos) e
                             (swap_nodes pos (parent pos) q)))
            = length (_heap original)) as Hlen'.
    { unfold moved_last. simpl.
      rewrite length_insert, length_take, swap_nodes_length. lia. }
    assert (∀ z, _heap (moved_last k (parent pos) e
                          (swap_nodes pos (parent pos) q)) !! z =
                 if decide (z = parent pos) then Some e
                 else if decide (z = pos) then Some y
                 else if decide (z < length (_heap original)) then _heap q !! z
                 else None) as Hlook'.
    { intros z. unfold moved_last. simpl.
      rewrite list_lookup_insert, lookup_take, length_take, Hlook.
      rewrite !swap_nodes_length, Hlen.
      repeat case_decide; destruct_and?; simplify_eq; try done; lia. }
    unfold _sink. rewrite Hlen'.
    destruct (length (_heap original)) as [|n'] eqn:Hn; [lia|].
    assert (winning_child (parent pos)
              (_heap (moved_last k (parent pos) e
                        (swap_nodes pos (parent pos) q))) = Some pos) as Hw.
    { unfold winning_child. rewrite !Hlook'.
      assert (∀ s os, s ≠ pos → (s = left_child (parent pos)
                                 ∨ s = right_child (parent pos)) →
                _heap q !! s = Some os → s < S n' →
                precedes (prio y) (prio os) = true) as Hsib.
      { intros s os Hs Hcs Hos Hsn.
        apply parent_child_cases in Hcs as [Hs0 Hps].
        apply (no_ties_strict (_heap original) (parent pos) s); [done| |done| |].
        - pose proof (parent_lt s Hs0). lia.
        - rewrite <- Hsibling; [done | lia | done..].
        - apply (Ho (parent pos) s); [by apply parent_child_cases|done|].
          rewrite <- Hsibling; [done | lia | done..]. }
      destruct (child_of_parent pos) as [Hc | Hc]; [lia|..].
      - (* [pos] is the left child *)
        rewrite (decide_False (P := left_child (parent pos) = parent pos))
          by (unfold left_child; lia).
        rewrite (decide_True (P := left_child (parent pos) = pos)) by done.
        rewrite (decide_False (P := right_child (parent pos) = parent pos))
          by (unfold right_child; lia).
        rewrite (decide_False (P := right_child (parent pos) = pos))
          by (unfold left_child, right_child in *; lia).
        case_decide as Hr; [|by rewrite <- Hc].
        destruct (_heap q !! right_child (parent pos)) as [r|] eqn:Hqr;
          [|by rewrite <- Hc].
        assert (precedes (prio y) (prio r) = true) as Hyr.
        { apply (Hsib (right_child (parent pos))); [|by right|done..].
          unfold left_child, right_child in *; lia. }
        rewrite (precedes_asym Hord _ _ Hyr), Hyr. by rewrite <- Hc.
      - (* [pos] is the right child *)
        rewrite (decide_False (P := left_child (parent pos) = parent pos))
          by (unfold left_child; lia).
        rewrite (decide_False (P := left_child (parent pos) = pos))
          by (unfold left_child, right_child in *; lia).
        rewrite (decide_False (P := right_child (parent pos) = parent pos))
          by (unfold right_child; lia).
        rewrite (decide_True (P := right_child (parent pos) = pos)) by done.
        rewrite decide_True by (unfold left_child, right_child in *; lia).
        assert (is_Some (_heap q !! left_child (parent pos))) as [l Hql].
        { apply lookup_lt_is_Some. unfold left_child, right_child in *; lia. }
        rewrite Hql.
        assert (precedes (prio y) (prio l) = true) as Hyl.
        { apply (Hsib (left_child (parent pos))); [|by left|done|].
          - unfold left_child, right_child in *; lia.
          - unfold left_child, right_child in *; lia. }
        rewrite Hyl. by rewrite <- Hc. }
    rewrite (sink_loop_step n' (parent pos) pos _ e y); [|done| | |done].
    2:{ rewrite Hlook'. by rewrite decide_True. }
    2:{ rewrite Hlook'. rewrite decide_False by lia. by rewrite decide_True. }
    rewrite (moved_last_swap q k pos x y e); [|done|lia|lia|done..|].
    2:{ by rewrite last_lookup, Hlen. }
    rewrite <- sink_loop_fuel.
    + rewrite <- Hsink. unfold _sink. f_equal.
      unfold moved_last. simpl. rewrite length_insert, length_take. lia.
    + unfold moved_last. simpl. rewrite length_insert, length_take. lia.
  - lia.
Qed.

(** With no ties in the queue, deleting the key just added undoes every
    move [_swim] made. *)
Lemma delitem_after_swim k v q :
  index_consistent q → heap_ordered (_heap q) → no_ties (_heap q) →
  _position q !! k = None →
  __delitem__ k
    (_swim (length (_heap q))
       (mk_pqdict (_heap q ++ [mk_Node k v (keyfn v)])
                  (<[k := length (_heap q)]> (_position q))))
  = (q, inr tt).
Proof.
  intros Hic Ho Hnt Hk. destruct q as [heap position]. simpl in *.
  set (new := mk_Node k v (keyfn v)).
  set (q0 := mk_pqdict (heap ++ [new]) (<[k := length heap]> position)).
  assert (index_consistent q0) as Hic0 by by apply index_consistent_append.
  assert (_heap q0 !! length heap = Some new) as Hnew
    by (simpl; by rewrite lookup_app_r, Nat.sub_diag).
  assert (__delitem__ k q0 = (mk_pqdict heap position, inr tt)) as Hlast.
  { rewrite delitem_last; simpl.
    - rewrite length_app. simpl.
      replace (length heap + 1 - 1) with (length heap) by lia.
      rewrite take_app_length. by rewrite delete_insert_id.
    - rewrite length_app. simpl. rewrite lookup_insert_eq. f_equal. lia.
    - by destruct heap. }
  unfold _swim. destruct (decide (length heap = 0)) as [Hn0 | Hn].
  { assert (swim_loop (length heap) (length heap) q0 = q0) as ->; [|done].
    by rewrite Hn0. }
  pose proof (parent_lt (length heap)) as Hp.
  assert (is_Some (heap !! parent (length heap))) as [y Hy]
    by (apply lookup_lt_is_Some; lia).
  assert (_heap q0 !! parent (length heap) = Some y) as Hy0
    by (simpl; rewrite lookup_app_l by lia; done).
  destruct (precedes (prio new) (prio y)) eqn:Hxy;
    [|by rewrite (swim_loop_stop _ _ _ new y)].
  replace (swim_loop (length heap) (length heap) q0)
    with (swim_loop (S (length heap - 1)) (length heap) q0)
    by (f_equal; lia).
  rewrite (swim_loop_step _ _ _ new y) by done.
  assert (∀ z, _heap (swap_nodes (length heap) (parent (length heap)) q0) !! z =
               if decide (z = parent (length heap)) then Some new
               else if decide (z = length heap) then Some y
               else _heap q0 !! z) as Hlook.
  { intros z. apply swap_nodes_lookup; [lia | done..]. }
  pose proof (proj1 Hic _ _ Hy) as Hky. simpl in Hky.
  assert (key y ≠ k) as Hyk by (intros <-; congruence).
  apply (swim_then_delitem (mk_pqdict heap position) k new y); simpl;
    try done.
  - apply swap_nodes_index_consistent; [lia | by eauto..].
  - rewrite swap_nodes_length. simpl. rewrite length_app. simpl. lia.
  - rewrite Hlook. by rewrite decide_True.
  - rewrite Hlook. by rewrite decide_False, decide_True by lia.
  - lia.
  - intros j Hj. rewrite Hlook. rewrite !decide_False by lia.
    simpl. by rewrite lookup_app_l by lia.
  - intros _ j _ _ Hj Hjn. rewrite Hlook. rewrite !decide_False by lia.
    simpl. by rewrite lookup_app_l by lia.
  - by exists 0.
  - assert (moved_last k (parent (length heap)) y
              (swap_nodes (length heap) (parent (length heap)) q0)
            = mk_pqdict heap position) as ->.
    { rewrite (swap_nodes_eq _ _ _ new y) by done.
      unfold moved_last. simpl. rewrite !length_insert, length_app. simpl.
      replace (length heap + 1 - 1) with (length heap) by lia.
      f_equal.
      - rewrite take_insert_lt by lia. rewrite take_insert_ge by lia.
        rewrite take_app_length. rewrite list_insert_insert_eq.
        by apply list_insert_id.
      - map_pointwise. }
    unfold _sink. by apply sink_loop_id.
  - lia.
Qed.

(** C7 (as the code has it). On an index-consistent queue in heap order
    that does not hold [k], under a strict weak order, [additem(k, v)]
    followed by deleting [k] returns and leaves an index-consistent queue
    in heap order with the same size and the same entries; when no two
    entries of the prior queue tie in priority, it is the prior queue
    itself: the same array, in the same order, and the same index. *)
Theorem additem_delitem_round_trip k v q :
  index_consistent q → heap_ordered (_heap q) → _position q !! k = None →
  ∃ q',
    additem_then_delitem k v q = (q', inr tt) ∧
    length (_heap q') = length (_heap q) ∧
    _heap q' ≡ₚ _heap q ∧
    index_consistent q' ∧ heap_ordered (_heap q') ∧
    (no_ties (_heap q) → q' = q).
Proof.
  intros Hic Ho Hk.
  destruct (additem_adds k v q Hic Hk) as (qa & Hadd & Hqa & Hperma & Hica).
  assert (heap_ordered (_heap qa)) as Hoa.
  { pose proof (setitem_heap_ordered Hord k v q Ho) as Ho'.
    rewrite additem_absent in Hadd by done. by rewrite Hadd in Ho'. }
  assert (mk_Node k v (keyfn v) ∈ _heap qa) as [j Hj]%list_elem_of_lookup.
  { rewrite Hperma. apply elem_of_app. right. by left. }
  pose proof (proj1 Hica _ _ Hj) as Hkj. simpl in Hkj.
  destruct (delitem_removes _ _ _ _ Hica Hkj Hj) as (q' & Hdel & Hperm & _).
  assert (_heap q' ≡ₚ _heap q) as Hperm'.
  { rewrite Hperma in Hperm. rewrite <- Permutation_cons_append in Hperm.
    by apply Permutation_cons_inv in Hperm. }
  exists q'. split_and!.
  - unfold additem_then_delitem, bind. by rewrite Hadd.
  - by apply Permutation_length.
  - done.
  - pose proof (delitem_index_consistent k qa Hica) as Hi.
    by rewrite Hdel in Hi.
  - pose proof (delitem_heap_ordered Hord k qa Hoa) as Ho'.
    by rewrite Hdel in Ho'.
  - intros Hnt. rewrite Hqa in Hdel.
    rewrite (delitem_after_swim k v q Hic Ho Hnt Hk) in Hdel. congruence.
Qed.

End RoundTrip.

(** ** The loops have fuel enough *)

Lemma swim_fuel_enough fuel pos q :
  pos ≤ fuel → swim_loop fuel pos q = _swim pos q.
Proof.
  intros Hfuel. unfold _swim. induction Hfuel as [|fuel Hfuel IH]; [done|].
  by rewrite swim_loop_fuel.
Qed.

Lemma sink_fuel_enough fuel pos q :
  length (_heap q) ≤ fuel → sink_loop fuel pos q = _sink pos q.
Proof.
  intros Hfuel. unfold _sink. induction Hfuel as [|fuel Hfuel IH]; [done|].
  rewrite sink_loop_fuel; [done | lia].
Qed.

(** ** The boolean invariants decide the stated ones *)

Lemma indexed_from_sound i heap position :
  indexed_from i heap position = true →
  ∀ j n, heap !! j = Some n → position !! key n = Some (i + j).
Proof.
  revert i. induction heap as [|a heap IH]; intros i Hb j n Hj; [done|].
  simpl in Hb. apply andb_true_iff in Hb as [Ha Hrest].
  apply bool_decide_eq_true in Ha.
  destruct j as [|j]; simplify_eq/=.
  - by rewrite Nat.add_0_r.
  - rewrite (IH (S i) Hrest j n Hj). f_equal. lia.
Qed.

Lemma index_consistentb_sound q :
  index_consistentb q = true → index_consistent q.
Proof.
  unfold index_consistentb. intros [Hfwd Hbwd]%andb_true_iff. split.
  - intros i n Hn. by apply (indexed_from_sound 0 _ _ Hfwd).
  - apply bool_decide_eq_true in Hbwd. intros k i Hk.
    specialize (Hbwd k i Hk). simpl in Hbwd.
    destruct (_heap q !! i) as [n|]; simplify_eq/=. eauto.
Qed.

Lemma heap_orderedb_sound heap :
  heap_orderedb heap = true → heap_ordered heap.
Proof.
  unfold heap_orderedb. intros Hb. apply heap_ordered_edges.
  intros c Hc nc np Hnc Hnp.
  assert (edge_ok heap c = true) as Hok.
  { rewrite forallb_forall in Hb. apply Hb. apply in_seq.
    apply lookup_lt_Some in Hnc. lia. }
  unfold edge_ok in Hok. destruct c as [|c']; [lia|].
  rewrite Hnc, Hnp in Hok. by apply negb_true_iff in Hok.
Qed.

(** * The rest of the mapping interface *)

(** [__iter__]: [for node in self._heap: yield node.key], the keys in
    array order, as a run of the generator to its end yields them. *)
Definition __iter__ (q : pqdict) : list K := key <$> _heap q.

(** [update(data)] for an iterable of pairs, as the constructor calls it:
    [MutableMapping.update] runs [self[key] = value] for each pair in
    turn. *)
Definition update (data : list (K * V)) (q : pqdict) : pqdict :=
  foldl (λ q' kv, fst (__setitem__ kv.1 kv.2 q')) q data.

(** Every node carries the priority [keyfn] gives its value, as
    [__setitem__] stores it ([prio = keygen(value)]). *)
Definition prio_coherent (q : pqdict) : Prop :=
  Forall (λ node, prio node = keyfn (value node)) (_heap q).

(** The call takes for the value it is handed the priority [keyfn] gives
    it.  Only [pushpopitem] computes a priority by a test of its own, so
    only there is this a condition: it holds when [self._keyfn] is [None]
    or a callable that is true. *)
Definition pushpop_prio_agrees (o : operation) : Prop :=
  match o with
  | op_pushpopitem _ v => pushpop_prio v = keyfn v
  | _ => True
  end.

(** The exception a call ended with, if it raised. *)
Definition error_of {A} (r : pqdict * (exn + A)) : option exn :=
  match r.2 with inl e => Some e | inr _ => None end.

Definition raised (o : operation) (q : pqdict) : option exn :=
  match o with
  | op_setitem k v => error_of (__setitem__ k v q)
  | op_delitem k => error_of (__delitem__ k q)
  | op_additem k v => error_of (additem k v q)
  | op_updateitem k v => error_of (updateitem k v q)
  | op_pushpopitem k v => error_of (pushpopitem k v q)
  | op_replace_key k k' => error_of (replace_key k k' q)
  | op_getitem k => error_of (__getitem__ k q)
  | op_topitem => error_of (topitem q)
  end.

(** ** Reading a key *)

Lemma getitem_of_node q node :
  index_consistent q → node ∈ _heap q →
  __getitem__ (key node) q = (q, inr (value node)).
Proof.
  intros [Hfwd _] [i Hi]%list_elem_of_lookup. mrun.
  rewrite (Hfwd _ _ Hi). simpl. by rewrite Hi.
Qed.

Lemma getitem_missing q k :
  _position q !! k = None →
  __getitem__ k q = (q, inl (KeyError (missing_key k))).
Proof. intros Hk. mrun. by rewrite Hk. Qed.

(** Two index-consistent queues with the same nodes under [k] read [k]
    alike. *)
Lemma getitem_agree q1 q2 k :
  index_consistent q1 → index_consistent q2 →
  (∀ node, key node = k → node ∈ _heap q1 ↔ node ∈ _heap q2) →
  snd (__getitem__ k q1) = snd (__getitem__ k q2).
Proof.
  assert (∀ qa qb pos, index_consistent qa → index_consistent qb →
            (∀ node, key node = k → node ∈ _heap qa → node ∈ _heap qb) →
            _position qa !! k = Some pos →
            snd (__getitem__ k qa) = snd (__getitem__ k qb)) as Hsome.
  { intros qa qb pos Ha Hb Hsub Hk.
    destruct (index_consistent_lookup _ _ _ Ha Hk) as (n & Hn & <-).
    apply list_elem_of_lookup_2 in Hn as Hin.
    rewrite (getitem_of_node qa n Ha Hin).
    by rewrite (getitem_of_node qb n Hb (Hsub n eq_refl Hin)). }
  intros H1 H2 Hsame.
  destruct (_position q1 !! k) as [pos|] eqn:Hk1.
  { eapply Hsome; [done..| |done]. intros n Hn. by apply Hsame. }
  destruct (_position q2 !! k) as [pos|] eqn:Hk2.
  { symmetry. eapply Hsome; [done..| |done]. intros n Hn. by apply Hsame. }
  by rewrite !getitem_missing.
Qed.

(** X3. On an index-consistent queue [q[k]] never raises [IndexError] and
    never changes the queue: it returns a value exactly when [k in q], and
    raises [KeyError(k)] exactly when not. *)
Theorem getitem_iff_contains k q :
  index_consistent q →
  if bool_decide (is_Some (_position q !! k))
  then __contains__ k q = (q, inr true) ∧
       ∃ node, node ∈ _heap q ∧ key node = k ∧
               __getitem__ k q = (q, inr (value node))
  else __contains__ k q = (q, inr false) ∧
       __getitem__ k q = (q, inl (KeyError (missing_key k))).
Proof.
  intros Hic. rewrite contains_not_None.
  destruct (_position q !! k) as [pos|] eqn:Hk.
  - rewrite bool_decide_eq_true_2 by eauto. split; [done|].
    destruct (index_consistent_lookup _ _ _ Hic Hk) as (n & Hn & <-).
    apply list_elem_of_lookup_2 in Hn as Hin.
    exists n. split_and!; [done..|]. by apply getitem_of_node.
  - rewrite bool_decide_eq_false_2 by (by intros [??]). split; [done|].
    by apply getitem_missing.
Qed.

(** ** [len] and iteration *)

Lemma index_consistent_dom_keys q :
  index_consistent q → dom (_position q) = list_to_set (key <$> _heap q).
Proof.
  intros Hic. apply set_eq. intros k.
  rewrite (index_consistent_dom q k Hic). by rewrite elem_of_list_to_set.
Qed.

(** X1. On an index-consistent queue [len(q)] is the number of keys in the
    index, and it leaves the queue as it was. *)
Theorem len_counts_keys q :
  index_consistent q → __len__ q = (q, inr (size (_position q))).
Proof.
  intros Hic. unfold __len__, bind, get_heap, ret. do 2 f_equal.
  rewrite <- size_dom, (index_consistent_dom_keys q Hic).
  rewrite size_list_to_set by by apply index_consistent_NoDup.
  by rewrite length_fmap.
Qed.

(** X2. Iterating over an index-consistent queue yields every key of the
    queue exactly once: no key comes twice, a key comes out exactly when
    [key in q], there are [len(q)] of them, and the first is the key of
    the top item. *)
Theorem iter_yields_each_key_once q :
  index_consistent q →
  NoDup (__iter__ q) ∧
  (∀ k, k ∈ __iter__ q ↔ __contains__ k q = (q, inr true)) ∧
  __len__ q = (q, inr (length (__iter__ q))) ∧
  (∀ k v, topitem q = (q, inr (k, v)) → head (__iter__ q) = Some k).
Proof.
  intros Hic. unfold __iter__. split_and!.
  - by apply index_consistent_NoDup.
  - intros k. rewrite <- (index_consistent_dom q k Hic), elem_of_dom.
    rewrite contains_not_None. split.
    + intros Hk. by rewrite bool_decide_eq_true_2.
    + intros [= Hk]. by apply bool_decide_eq_true in Hk.
  - unfold __len__, bind, get_heap, ret. by rewrite length_fmap.
  - intros k v. unfold topitem, bind, get_heap.
    destruct (_heap q) as [|top rest]; simpl; [done|].
    unfold ret. by intros [= <- _].
Qed.

(** ** Assignment, update and deletion, seen through the keys *)

Lemma insert_Permutation_delete (heap : list _Node) pos old x :
  heap !! pos = Some old →
  <[pos := x]> heap ≡ₚ x :: delete pos heap ∧ heap ≡ₚ old :: delete pos heap.
Proof.
  intros Hpos. split; [|by apply delete_Permutation].
  rewrite insert_take_drop by by eapply lookup_lt_Some.
  rewrite delete_take_drop. by rewrite Permutation_middle.
Qed.

(** What [q[k] = v] does to the entries: the new node for [k] is in, the
    old node of [k], if there was one, is out, the rest stay. *)
Lemma setitem_entries k v q :
  index_consistent q →
  ∃ q' rest,
    __setitem__ k v q = (q', inr tt) ∧ index_consistent q' ∧
    _heap q' ≡ₚ mk_Node k v (keyfn v) :: rest ∧
    match _position q !! k with
    | None => _heap q = rest
    | Some pos => ∃ old, _heap q !! pos = Some old ∧ key old = k ∧
                         _heap q ≡ₚ old :: rest
    end.
Proof.
  intros Hic. pose proof (setitem_index_consistent k v q Hic) as Hic'.
  destruct (_position q !! k) as [pos|] eqn:Hk.
  - destruct (index_consistent_lookup _ _ _ Hic Hk) as (old & Hpos & Hkey).
    rewrite (setitem_existing _ _ _ _ _ Hk Hpos) in Hic' |- *.
    destruct (insert_Permutation_delete (_heap q) pos old
                (mk_Node k v (keyfn v)) Hpos) as [Hins Hdel].
    eexists _, (delete pos (_heap q)). split_and!; [done..| |by eauto].
    rewrite reheapify_Permutation. simpl. by rewrite Hkey.
  - rewrite (setitem_new _ _ _ Hk) in Hic' |- *.
    eexists _, (_heap q). split_and!; [done..| |done].
    rewrite swim_Permutation. simpl. symmetry. apply Permutation_cons_append.
Qed.

(** X4. Assignment on an index-consistent queue never raises; afterwards
    [q[k]] reads the value just assigned, every other key reads as it did
    before, and [len(q)] has grown by one if [k] is new and is unchanged
    if [k] was there. *)
Theorem setitem_then_getitem k v q :
  index_consistent q →
  ∃ q',
    __setitem__ k v q = (q', inr tt) ∧
    __getitem__ k q' = (q', inr v) ∧
    (∀ k', k' ≠ k → snd (__getitem__ k' q') = snd (__getitem__ k' q)) ∧
    length (_heap q') =
      (if decide (is_Some (_position q !! k)) then length (_heap q)
       else S (length (_heap q))) ∧
    index_consistent q'.
Proof.
  intros Hic.
  destruct (setitem_entries k v q Hic) as (q' & rest & Hrun & Hic' & Hnew & Hold).
  exists q'. split_and!; [done| | | |done].
  - apply (getitem_of_node q' (mk_Node k v (keyfn v)) Hic').
    rewrite Hnew. by left.
  - intros k' Hne. apply getitem_agree; [done..|].
    intros node Hnode. rewrite Hnew.
    destruct (_position q !! k) as [pos|].
    + destruct Hold as (old & _ & Hkold & ->).
      rewrite !elem_of_cons. split; intros [-> | ?]; auto; simpl in *; congruence.
    + rewrite Hold. rewrite elem_of_cons. split; [|by auto].
      intros [-> | ?]; [simpl in *; congruence | done].
  - apply Permutation_length in Hnew. rewrite Hnew. simpl.
    destruct (_position q !! k) as [pos|].
    + rewrite decide_True by eauto.
      destruct Hold as (old & _ & _ & Hperm).
      apply Permutation_length in Hperm. by rewrite Hperm.
    + rewrite decide_False by (by intros [??]). by rewrite Hold.
Qed.

(** X5. [updateitem(key, new_val)] on an index-consistent queue: a missing
    key raises [KeyError(key)] and nothing changes; a present key is
    given the new value, every other key reads as before, and the number
    of entries stays. *)
Theorem updateitem_updates k v q :
  index_consistent q →
  match _position q !! k with
  | None => updateitem k v q = (q, inl (KeyError (missing_key k)))
  | Some _ =>
      ∃ q',
        updateitem k v q = (q', inr tt) ∧
        __getitem__ k q' = (q', inr v) ∧
        (∀ k', k' ≠ k → snd (__getitem__ k' q') = snd (__getitem__ k' q)) ∧
        length (_heap q') = length (_heap q) ∧
        dom (_position q') = dom (_position q) ∧
        index_consistent q'
  end.
Proof.
  intros Hic. destruct (_position q !! k) as [pos|] eqn:Hk.
  - rewrite updateitem_present by eauto.
    destruct (setitem_entries k v q Hic)
      as (q' & rest & Hrun & Hic' & Hnew & Hold).
    destruct (setitem_then_getitem k v q Hic)
      as (q'' & Hrun' & Hget & Hother & Hlen & _).
    rewrite Hrun in Hrun'. injection Hrun' as <-.
    rewrite decide_True in Hlen by (rewrite Hk; eauto).
    exists q'. split_and!; [done..|  |done].
    rewrite Hk in Hold. destruct Hold as (old & _ & Hkold & Hperm).
    rewrite !index_consistent_dom_keys by done.
    apply set_eq. intros k'. rewrite !elem_of_list_to_set.
    rewrite Hnew, Hperm. rewrite !fmap_cons, !elem_of_cons. simpl.
    by rewrite Hkold.
  - by apply updateitem_absent.
Qed.

(** X6. Deleting on an index-consistent queue: a missing key raises
    [KeyError(key)] and nothing changes; a present key is gone afterwards
    ([key in q] is false and [q[key]] raises), every other key reads as
    before, and [len(q)] has gone down by one. *)
Theorem delitem_frame k q :
  index_consistent q →
  match _position q !! k with
  | None => __delitem__ k q = (q, inl (KeyError (missing_key k)))
  | Some _ =>
      ∃ q',
        __delitem__ k q = (q', inr tt) ∧
        __contains__ k q' = (q', inr false) ∧
        __getitem__ k q' = (q', inl (KeyError (missing_key k))) ∧
        (∀ k', k' ≠ k → snd (__getitem__ k' q') = snd (__getitem__ k' q)) ∧
        S (length (_heap q')) = length (_heap q)
  end.
Proof.
  intros Hic. destruct (_position q !! k) as [pos|] eqn:Hk;
    [|by apply delitem_missing].
  destruct (index_consistent_lookup _ _ _ Hic Hk) as (node & Hpos & Hkey).
  destruct (delitem_removes _ _ _ _ Hic Hk Hpos) as (q' & Hrun & Hperm & Hgone).
  pose proof (delitem_index_consistent k q Hic) as Hic'.
  rewrite Hrun in Hic'. simpl in Hic'.
  exists q'. split_and!; [done| | | |].
  - rewrite contains_not_None. rewrite bool_decide_eq_false_2; [done|].
    rewrite Hgone. by intros [??].
  - by apply getitem_missing.
  - intros k' Hne. apply getitem_agree; [done..|].
    intros n Hn. rewrite <- Hperm. rewrite elem_of_cons. split; [by auto|].
    intros [-> | ?]; [congruence | done].
  - apply Permutation_length in Hperm. by rewrite <- Hperm.
Qed.

(** ** Stored priorities *)

Lemma prio_coherent_Permutation q q' :
  _heap q' ≡ₚ _heap q → prio_coherent q → prio_coherent q'.
Proof. unfold prio_coherent. by intros ->. Qed.

(** What [pushpopitem] does to the entries when the key is new: one node
    of the old entries and the new one comes back, the others stay. *)
Lemma pushpopitem_entries k v q :
  index_consistent q → _position q !! k = None →
  ∃ q' ret,
    pushpopitem k v q = (q', inr (item_of ret)) ∧
    ret :: _heap q' ≡ₚ mk_Node k v (pushpop_prio v) :: _heap q ∧
    (ret = mk_Node k v (pushpop_prio v) ∧ q' = q ∧
       (∀ top, _heap q !! 0 = Some top →
               precedes (prio top) (pushpop_prio v) = false)
     ∨ _heap q !! 0 = Some ret ∧ precedes (prio ret) (pushpop_prio v) = true).
Proof.
  intros Hic Hk. destruct (_heap q) as [|top rest] eqn:Hh.
  { exists q, (mk_Node k v (pushpop_prio v)). rewrite pushpopitem_empty by done.
    rewrite Hh. split_and!; [done..|]. left. by split_and!. }
  destruct (precedes (prio top) (pushpop_prio v)) eqn:Hp.
  - pose proof (index_consistent_top _ _ _ Hic Hh) as Htop.
    assert (k ≠ key top) by (intros ->; congruence).
    rewrite (pushpopitem_evict _ _ _ _ _ Hk Hh Hp)
      by (by rewrite lookup_insert_ne).
    eexists _, top. split_and!; [done| |by right].
    rewrite sink_Permutation. simpl. apply Permutation_swap.
  - exists q, (mk_Node k v (pushpop_prio v)).
    rewrite (pushpopitem_keep _ _ _ _ _ Hk Hh Hp). rewrite Hh.
    split_and!; [done..|]. left. split_and!; [done..|].
    intros top' [= <-]. done.
Qed.

Lemma setitem_prio_coherent k v q :
  index_consistent q → prio_coherent q →
  prio_coherent (fst (__setitem__ k v q)).
Proof.
  intros Hic Hq.
  destruct (setitem_entries k v q Hic) as (q' & rest & -> & _ & Hnew & Hold).
  simpl. unfold prio_coherent in *. rewrite Hnew.
  constructor; [done|]. destruct (_position q !! k).
  - destruct Hold as (old & _ & _ & Hperm). rewrite Hperm in Hq.
    by apply Forall_cons in Hq as [_ ?].
  - by rewrite <- Hold.
Qed.

Lemma after_prio_coherent o q :
  index_consistent q → prio_coherent q → pushpop_prio_agrees o →
  prio_coherent (after o q).
Proof.
  intros Hic Hq Hagree. destruct o as [k v|k|k v|k v|k v|k k'|k|]; simpl.
  - by apply setitem_prio_coherent.
  - destruct (_position q !! k) as [pos|] eqn:Hk;
      [|by rewrite delitem_missing].
    destruct (index_consistent_lookup _ _ _ Hic Hk) as (node & Hpos & _).
    destruct (delitem_removes _ _ _ _ Hic Hk Hpos) as (q' & -> & Hperm & _).
    simpl. unfold prio_coherent in *. rewrite <- Hperm in Hq.
    by apply Forall_cons in Hq as [_ ?].
  - destruct (_position q !! k) as [pos|] eqn:Hk;
      [by rewrite additem_present|].
    rewrite additem_absent by done.
    destruct (setitem_entries k v q Hic) as (q' & rest & -> & _ & Hnew & Hold).
    simpl. unfold prio_coherent in *. rewrite Hnew, Hk in *.
    constructor; [done | by rewrite <- Hold].
  - destruct (_position q !! k) as [pos|] eqn:Hk;
      [|by rewrite updateitem_absent].
    rewrite updateitem_present by eauto.
    destruct (setitem_entries k v q Hic) as (q' & rest & -> & _ & Hnew & Hold).
    simpl. unfold prio_coherent in *. rewrite Hnew, Hk in *.
    constructor; [done|].
    destruct Hold as (old & _ & _ & Hperm). rewrite Hperm in Hq.
    by apply Forall_cons in Hq as [_ ?].
  - destruct (_position q !! k) as [pos|] eqn:Hk;
      [by rewrite pushpopitem_present|].
    destruct (pushpopitem_entries k v q Hic Hk) as (q' & ret & -> & Hperm & _).
    simpl. unfold prio_coherent in *.
    assert (Forall (λ node, prio node = keyfn (value node)) (ret :: _heap q'))
      as [_ ?]%Forall_cons; [|done].
    rewrite Hperm. by constructor.
  - destruct (_position q !! k') as [pos'|] eqn:Hnew;
      [by rewrite replace_key_present|].
    destruct (_position q !! k) as [pos|] eqn:Hk;
      [|by rewrite replace_key_missing].
    destruct (index_consistent_lookup _ _ _ Hic Hk) as (node & Hpos & _).
    rewrite (replace_key_renames _ _ _ _ _ Hnew Hk Hpos). simpl.
    unfold prio_coherent in *. simpl. apply Forall_insert; [done|]. simpl.
    by apply (Forall_lookup_1 _ _ _ _ Hq Hpos).
  - by rewrite getitem_state.
  - by rewrite topitem_state.
Qed.

(** X8. On an index-consistent queue in which the stored priority of
    every entry is the priority key of its value, every public operation
    leaves such a queue again; for a [pushpopitem] this needs the priority
    it takes for its value to be the one [keyfn] gives (as it is when
    [self._keyfn] is [None] or a callable that is true). *)
Theorem prio_is_keyfn_of_value o q :
  index_consistent q → prio_coherent q → pushpop_prio_agrees o →
  index_consistent (after o q) ∧
  Forall (λ node, prio node = keyfn (value node)) (_heap (after o q)).
Proof.
  intros Hic Hq Hagree. split.
  - by apply after_index_consistent.
  - by apply after_prio_coherent.
Qed.

(** X23. [pushpopitem] and [__setitem__] do not take the priority alike.
    When the priority [pushpopitem] takes for its value is not the one
    [keyfn] gives (a callable [self._keyfn] that is false), a
    [pushpopitem] that evicts the top leaves in the queue a node whose
    stored priority is not the priority key of its value. *)
Theorem pushpopitem_prio_differs k v q top rest :
  index_consistent q → _position q !! k = None → _heap q = top :: rest →
  precedes (prio top) (pushpop_prio v) = true →
  pushpop_prio v ≠ keyfn v →
  ∃ q', pushpopitem k v q = (q', inr (key top, value top)) ∧
        mk_Node k v (pushpop_prio v) ∈ _heap q' ∧
        ¬ prio_coherent q'.
Proof.
  intros Hic Hk Hh Hp Hne.
  pose proof (index_consistent_top _ _ _ Hic Hh) as Htopk.
  assert (k ≠ key top) by (intros ->; congruence).
  eexists. split; [|split].
  - apply (pushpopitem_evict k v q top rest Hk Hh Hp).
    by rewrite lookup_insert_ne.
  - rewrite sink_Permutation. simpl. left.
  - intros Hco. unfold prio_coherent in Hco. rewrite Forall_forall in Hco.
    apply Hne.
    apply (Hco (mk_Node k v (pushpop_prio v))).
    rewrite sink_Permutation. simpl. left.
Qed.

Lemma reachable_prio_coherent q :
  (∀ v, pushpop_prio v = keyfn v) → reachable q → prio_coherent q.
Proof.
  intros Hagree. induction 1 as [|o q Hq IH]; [by constructor|].
  apply after_prio_coherent; [by apply reachable_index_consistent | done |].
  destruct o; simpl; done.
Qed.

(** X9. Writing back the value just read changes nothing: on an
    index-consistent queue in heap order whose priorities are those of
    the values, if [q[k]] reads [v] then [q[k] = v] and
    [updateitem(k, v)] return and leave the queue exactly as it was. *)
Theorem setitem_same_value k v q :
  index_consistent q → heap_ordered (_heap q) → prio_coherent q →
  __getitem__ k q = (q, inr v) →
  __setitem__ k v q = (q, inr tt) ∧ updateitem k v q = (q, inr tt).
Proof.
  intros Hic Ho Hco Hget.
  destruct (_position q !! k) as [pos|] eqn:Hk;
    [|by rewrite getitem_missing in Hget].
  destruct (index_consistent_lookup _ _ _ Hic Hk) as (node & Hpos & Hkey).
  assert (value node = v) as Hv.
  { revert Hget. mrun. rewrite Hk. simpl. rewrite Hpos. by intros [= ->]. }
  assert (__setitem__ k v q = (q, inr tt)) as Hset.
  { rewrite (setitem_existing _ _ _ _ _ Hk Hpos).
    assert (mk_Node (key node) v (keyfn v) = node) as ->.
    { pose proof (Forall_lookup_1 _ _ _ _ Hco Hpos) as Hp. simpl in Hp.
      destruct node. simpl in *. by subst. }
    rewrite list_insert_id by done.
    unfold _reheapify, _swim, _sink. simpl.
    rewrite sink_loop_id by done. rewrite swim_loop_id by done.
    by destruct q. }
  split; [done|]. by rewrite updateitem_present by eauto.
Qed.

(** ** A call that raises *)

(** X10. On an index-consistent queue no public method raises
    [IndexError], and a call that raises leaves the queue exactly as it
    was: every [KeyError] comes before the first change. *)
Theorem failed_call_changes_nothing o q e :
  index_consistent q → raised o q = Some e →
  after o q = q ∧ ∃ a, e = KeyError a.
Proof.
  intros Hic. destruct o as [k v|k|k v|k v|k v|k k'|k|]; simpl.
  - destruct (setitem_entries k v q Hic) as (q' & rest & -> & _). done.
  - destruct (_position q !! k) as [pos|] eqn:Hk.
    + destruct (index_consistent_lookup _ _ _ Hic Hk) as (node & Hpos & _).
      by destruct (delitem_removes _ _ _ _ Hic Hk Hpos) as (q' & -> & _).
    + rewrite delitem_missing by done. intros [= <-]. eauto.
  - destruct (_position q !! k) as [pos|] eqn:Hk.
    + rewrite additem_present by eauto. intros [= <-]. eauto.
    + rewrite additem_absent by done.
      destruct (setitem_entries k v q Hic) as (q' & rest & -> & _). done.
  - destruct (_position q !! k) as [pos|] eqn:Hk.
    + rewrite updateitem_present by eauto.
      destruct (setitem_entries k v q Hic) as (q' & rest & -> & _). done.
    + rewrite updateitem_absent by done. intros [= <-]. eauto.
  - destruct (_position q !! k) as [pos|] eqn:Hk.
    + rewrite pushpopitem_present by eauto. intros [= <-]. eauto.
    + by destruct (pushpopitem_entries k v q Hic Hk) as (q' & ret & -> & _).
  - destruct (_position q !! k') as [pos'|] eqn:Hnew.
    { rewrite replace_key_present by eauto. intros [= <-]. eauto. }
    destruct (_position q !! k) as [pos|] eqn:Hk.
    + destruct (index_consistent_lookup _ _ _ Hic Hk) as (node & Hpos & _).
      by rewrite (replace_key_renames _ _ _ _ _ Hnew Hk Hpos).
    + rewrite replace_key_missing by done. intros [= <-]. eauto.
  - destruct (_position q !! k) as [pos|] eqn:Hk.
    + destruct (index_consistent_lookup _ _ _ Hic Hk) as (node & Hpos & <-).
      apply list_elem_of_lookup_2 in Hpos. by rewrite getitem_of_node.
    + rewrite getitem_missing by done. intros [= <-]. eauto.
  - unfold topitem, bind, get_heap.
    destruct (_heap q !! 0); simpl; [done|]. intros [= <-]. eauto.
Qed.

(** ** Renaming there and back *)

(** X13. Renaming a key and renaming it back is the identity: on an
    index-consistent queue holding [k] and not [new_key],
    [replace_key(k, new_key)] followed by [replace_key(new_key, k)]
    returns twice and restores the queue exactly. *)
Theorem replace_key_back k new_key q :
  index_consistent q →
  is_Some (_position q !! k) → _position q !! new_key = None →
  ∃ q', replace_key k new_key q = (q', inr tt) ∧
        replace_key new_key k q' = (q, inr tt).
Proof.
  intros Hic [pos Hk] Hnew.
  destruct (index_consistent_lookup _ _ _ Hic Hk) as (node & Hpos & Hkey).
  assert (k ≠ new_key) as Hne by (intros ->; congruence).
  rewrite (replace_key_renames _ _ _ _ _ Hnew Hk Hpos).
  eexists. split; [done|].
  rewrite (replace_key_renames _ _ _ pos
             (mk_Node new_key (value node) (prio node))); simpl.
  - destruct q as [heap position]. simpl in *. f_equal. f_equal.
    + rewrite list_insert_insert_eq. apply list_insert_id.
      rewrite Hpos. f_equal. destruct node. simpl in *. by subst.
    + rewrite delete_insert_id by by rewrite lookup_delete_ne.
      by apply insert_delete_id.
  - rewrite lookup_insert_ne by done. by rewrite lookup_delete_eq.
  - by rewrite lookup_insert_eq.
  - apply list_lookup_insert_eq. by eapply lookup_lt_Some.
Qed.

(** ** The top of the queue *)

Section Top.
Hypothesis Hord : priority_order.

(** X7. [topitem()] never changes the queue; on an empty queue it raises
    [KeyError("pqdict is empty")], and on a queue in heap order it returns
    the key and value of an entry that no entry of the queue strictly
    precedes. *)
Theorem topitem_highest_priority q :
  heap_ordered (_heap q) →
  match _heap q with
  | [] => topitem q = (q, inl (KeyError pqdict_is_empty))
  | top :: _ =>
      topitem q = (q, inr (key top, value top)) ∧
      ∀ node, node ∈ _heap q → precedes (prio node) (prio top) = false
  end.
Proof.
  intros Ho. unfold topitem, bind, get_heap.
  destruct (_heap q) as [|top rest] eqn:Hh; simpl; [done|].
  split; [done|]. intros node Hnode.
  by apply (root_minimal Hord (top :: rest)).
Qed.

(** X11. [pushpopitem(k, v)] with a new key, on an index-consistent queue
    in heap order: of the old entries and the new one, one comes back and
    the others are the queue afterwards; no entry left in the queue
    strictly precedes the one that came back; and [len(q)] is what it
    was. *)
Theorem pushpopitem_returns_best k v q :
  index_consistent q → heap_ordered (_heap q) → _position q !! k = None →
  ∃ q' ret,
    pushpopitem k v q = (q', inr (item_of ret)) ∧
    ret :: _heap q' ≡ₚ mk_Node k v (pushpop_prio v) :: _heap q ∧
    (∀ node, node ∈ _heap q' → precedes (prio node) (prio ret) = false) ∧
    length (_heap q') = length (_heap q).
Proof.
  intros Hic Ho Hk.
  destruct (pushpopitem_entries k v q Hic Hk)
    as (q' & ret & Hrun & Hperm & Hcase).
  exists q', ret. split_and!; [done..| |].
  - intros node Hnode.
    destruct Hcase as [(-> & -> & Hkeep) | [Htop Hp]].
    + simpl. destruct (_heap q !! 0) as [top|] eqn:Htop.
      * apply (precedes_negtrans Hord _ (prio top)); [|by apply Hkeep].
        by apply (root_minimal Hord (_heap q)).
      * apply lookup_ge_None in Htop.
        apply list_elem_of_lookup in Hnode as [i Hi].
        apply lookup_lt_Some in Hi. lia.
    + assert (node ∈ ret :: _heap q') as Hin by by right.
      rewrite Hperm in Hin. apply elem_of_cons in Hin as [-> | Hin].
      * simpl. by apply (precedes_asym Hord).
      * by apply (root_minimal Hord (_heap q)).
  - apply Permutation_length in Hperm. simpl in Hperm. lia.
Qed.

(** X12. After [additem(k, v)] with a new key, on an index-consistent
    queue in heap order, the top is the new entry when the queue was empty
    or the new priority strictly precedes the old top's, and the old top
    otherwise. *)
Theorem additem_then_topitem k v q :
  index_consistent q → heap_ordered (_heap q) → _position q !! k = None →
  ∃ q',
    additem k v q = (q', inr tt) ∧
    topitem q' =
      (q', inr match _heap q with
               | [] => (k, v)
               | top :: _ => if precedes (keyfn v) (prio top) then (k, v)
                             else (key top, value top)
               end).
Proof.
  intros Hic Ho Hk.
  destruct (additem_adds k v q Hic Hk) as (qa & Hadd & Hqa & Hperma & Hica).
  exists qa. split; [done|].
  assert (heap_ordered (_heap qa)) as Hoa.
  { pose proof (setitem_heap_ordered Hord k v q Ho) as Ho'.
    rewrite additem_absent in Hadd by done. by rewrite Hadd in Ho'. }
  assert (is_Some (_heap qa !! 0)) as [t Ht].
  { apply lookup_lt_is_Some. apply Permutation_length in Hperma.
    rewrite length_app in Hperma. simpl in Hperma. lia. }
  assert (topitem qa = (qa, inr (item_of t))) as ->.
  { unfold topitem, bind, get_heap. by rewrite Ht. }
  do 2 f_equal.
  pose proof (list_elem_of_lookup_2 _ _ _ Ht) as Hin. rewrite Hperma in Hin.
  destruct (_heap q) as [|top rest] eqn:Hh.
  { by apply list_elem_of_singleton in Hin as ->. }
  destruct (precedes (keyfn v) (prio top)) eqn:Hp.
  - apply elem_of_app in Hin as [Hin | Hin];
      [|by apply list_elem_of_singleton in Hin as ->].
    exfalso.
    assert (precedes (keyfn v) (prio t) = false) as Hnt.
    { apply (root_minimal Hord (_heap qa) t Hoa Ht (mk_Node k v (keyfn v))).
      rewrite Hperma. apply elem_of_app. right. by left. }
    assert (precedes (prio t) (prio top) = false) as Htt
      by by apply (root_minimal Hord (top :: rest)).
    pose proof (precedes_negtrans Hord _ _ _ Hnt Htt). congruence.
  - assert (_heap qa !! 0 = Some top) as Ht'; [|by simplify_eq].
    rewrite Hqa. unfold _swim.
    apply (swim_loop_root _ _ _ _ (mk_Node k v (keyfn v))); simpl; [done| |done..].
    by rewrite lookup_app_r, Nat.sub_diag.
Qed.

(** ** Loading pairs *)

Lemma update_cons kv data q :
  update (kv :: data) q = update data (fst (__setitem__ kv.1 kv.2 q)).
Proof. done. Qed.

(** X14. [update(data)] on an index-consistent queue in heap order leaves
    an index-consistent queue in heap order in which every key of [data]
    reads the value of its last pair in [data], and every other key reads
    as before. *)
Theorem update_last_value_wins data q :
  index_consistent q → heap_ordered (_heap q) →
  index_consistent (update data q) ∧ heap_ordered (_heap (update data q)) ∧
  ∀ k, snd (__getitem__ k (update data q)) =
       match (list_to_map (reverse data) : gmap K V) !! k with
       | Some v => inr v
       | None => snd (__getitem__ k q)
       end.
Proof.
  revert q. induction data as [|[k v] data IH]; intros q Hic Ho.
  { split_and!; [done..|]. intros k.
    by rewrite reverse_nil, list_to_map_nil, lookup_empty. }
  rewrite update_cons. simpl.
  destruct (setitem_then_getitem k v q Hic)
    as (q1 & Hrun & Hget & Hother & _ & Hic1).
  pose proof (setitem_heap_ordered Hord k v q Ho) as Ho1.
  rewrite Hrun in Ho1 |- *. simpl in *.
  destruct (IH q1 Hic1 Ho1) as (Hic' & Ho' & Hread).
  split_and!; [done..|]. intros k'. rewrite Hread.
  rewrite reverse_cons, list_to_map_app, lookup_union. simpl.
  destruct (list_to_map (reverse data) !! k') as [v'|]; simpl.
  { by rewrite union_Some_l. }
  rewrite (left_id None _).
  destruct (decide (k' = k)) as [-> | Hne].
  - rewrite lookup_insert_eq. by rewrite Hget.
  - rewrite lookup_insert_ne by done. rewrite lookup_empty. by apply Hother.
Qed.

(** ** Raising a key to the top *)

(** X18. Assigning to [k] a value whose priority strictly precedes that of
    every entry under another key makes [k] the top: on an
    index-consistent queue in heap order, [q[k] = v] returns and
    [topitem()] then gives [(k, v)], whether [k] was in the queue or not. *)
Theorem setitem_to_the_top k v q :
  index_consistent q → heap_ordered (_heap q) →
  (∀ node, node ∈ _heap q → key node ≠ k →
           precedes (keyfn v) (prio node) = true) →
  ∃ q', __setitem__ k v q = (q', inr tt) ∧ topitem q' = (q', inr (k, v)).
Proof.
  intros Hic Ho Hbest.
  destruct (setitem_entries k v q Hic) as (q' & rest & Hrun & Hic' & Hnew & Hold).
  pose proof (setitem_heap_ordered Hord k v q Ho) as Ho'.
  rewrite Hrun in Ho'. simpl in Ho'.
  exists q'. split; [done|].
  assert (is_Some (_heap q' !! 0)) as [t Ht].
  { apply lookup_lt_is_Some. apply Permutation_length in Hnew.
    rewrite Hnew. simpl. lia. }
  unfold topitem, bind, get_heap. rewrite Ht. unfold ret. do 2 f_equal.
  pose proof (list_elem_of_lookup_2 _ _ _ Ht) as Hin. rewrite Hnew in Hin.
  apply elem_of_cons in Hin as [-> | Hin]; [done|]. exfalso.
  assert (precedes (keyfn v) (prio t) = false) as Hnt.
  { apply (root_minimal Hord (_heap q') t Ho' Ht (mk_Node k v (keyfn v))).
    rewrite Hnew. by left. }
  assert (t ∈ _heap q ∧ key t ≠ k) as [Htq Htk].
  { destruct (_position q !! k) as [pos|] eqn:Hk.
    - destruct Hold as (old & _ & Hkold & Hperm).
      split; [rewrite Hperm; by right|].
      pose proof (index_consistent_NoDup q Hic) as Hnd.
      rewrite Hperm, fmap_cons, Hkold in Hnd.
      apply NoDup_cons in Hnd as [Hnotin _]. intros <-. apply Hnotin.
      apply list_elem_of_fmap. by exists t.
    - rewrite Hold. split; [done|]. intros <-.
      apply list_elem_of_lookup in Hin as [i Hi]. rewrite <- Hold in Hi.
      pose proof (proj1 Hic _ _ Hi). congruence. }
  rewrite (Hbest t Htq Htk) in Hnt. done.
Qed.

(** ** Every queue a client can build *)

(** X19. Whatever sequence of public calls, returning or raising, built a
    queue from the empty one, the queue is index-consistent and in heap
    order; and it stores with every value the priority that value gives,
    when [pushpopitem] takes the priority as [__setitem__] does (as it
    does when [self._keyfn] is [None] or a callable that is true). *)
Theorem reachable_invariants q :
  reachable q →
  index_consistent q ∧ heap_ordered (_heap q) ∧
  ((∀ v, pushpop_prio v = keyfn v) → prio_coherent q).
Proof.
  intros Hq. split_and!.
  - by apply reachable_index_consistent.
  - by apply (reachable_heap_ordered Hord).
  - intros Hagree. by apply reachable_prio_coherent.
Qed.

End Top.

Lemma update_prio_coherent data q :
  index_consistent q → prio_coherent q → prio_coherent (update data q).
Proof.
  revert q. induction data as [|kv data IH]; intros q Hic Hq; [done|].
  rewrite update_cons. apply IH.
  - by apply setitem_index_consistent.
  - by apply setitem_prio_coherent.
Qed.

(** * The queue among objects

    So far a node is a value.  In Python it is an object: [copy] makes new
    ones, [heap[pos].value = value] and [heap[pos].key = new_key] write
    into one in place, and [end is not node_to_delete] compares two of
    them by identity.  Here the nodes live in a store, at references, and
    the heap array holds references.  The list and the dict of a queue
    stay values: [_heap] and [_position] are only ever bound to a list or
    dict made on the spot (in [__init__] and in [copy]), so no two queues
    share one. *)

(** A [pqdict] object over a store of nodes: [self._heap] as a list of
    references, and [self._position]. *)
Record queue_object : Type := mk_queue_object {
  heap_refs : list nat;
  position_dict : gmap K nat
}.

(** The store of node objects, and the queue at work in it.  A reference
    held by a queue always denotes a node; the [None] cases of a store
    lookup below are there for totality only. *)
Definition world : Type := gmap nat _Node * queue_object.

(** [heap[pos]], the node object itself. *)
Definition node_at (w : world) (pos : nat) : option _Node :=
  heap_refs w.2 !! pos ≫= λ l, w.1 !! l.

(** Modelled from the spec: the swap of [_swim] and [_sink], on
    references. *)
Definition obj_swap (i j : nat) (w : world) : world :=
  match heap_refs w.2 !! i, heap_refs w.2 !! j, node_at w i, node_at w j with
  | Some la, Some lb, Some a, Some b =>
      (w.1, mk_queue_object
              (<[j := la]> (<[i := lb]> (heap_refs w.2)))
              (<[key a := j]> (<[key b := i]> (position_dict w.2))))
  | _, _, _, _ => w
  end.

(** Modelled from the spec: [_swim], on references. *)
Fixpoint obj_swim_loop (fuel pos : nat) (w : world) : world :=
  match fuel with
  | 0 => w
  | S fuel' =>
      if decide (pos = 0) then w
      else
        match node_at w pos, node_at w (parent pos) with
        | Some node, Some parent_node =>
            if precedes (prio node) (prio parent_node)
            then obj_swim_loop fuel' (parent pos) (obj_swap pos (parent pos) w)
            else w
        | _, _ => w
        end
  end.

(** Modelled from the spec: [_swim(pos)], on references. *)
Definition obj_swim (pos : nat) (w : world) : world := obj_swim_loop pos pos w.

(** Modelled from the spec: the winning child of [_sink], on references. *)
Definition obj_winning_child (pos : nat) (w : world) : option nat :=
  match node_at w (left_child pos), node_at w (right_child pos) with
  | None, _ => None
  | Some _, None => Some (left_child pos)
  | Some l, Some r =>
      if precedes (prio r) (prio l) then Some (right_child pos)
      else if precedes (prio l) (prio r) then Some (left_child pos)
      else if tie_right then Some (right_child pos)
      else Some (left_child pos)
  end.

(** Modelled from the spec: [_sink], on references. *)
Fixpoint obj_sink_loop (fuel pos : nat) (w : world) : world :=
  match fuel with
  | 0 => w
  | S fuel' =>
      match obj_winning_child pos w with
      | None => w
      | Some child_pos =>
          match node_at w pos, node_at w child_pos with
          | Some node, Some child_node =>
              if precedes (prio child_node) (prio node)
              then obj_sink_loop fuel' child_pos (obj_swap pos child_pos w)
              else w
          | _, _ => w
          end
      end
  end.

(** Modelled from the spec: [_sink(pos)], on references. *)
Definition obj_sink (pos : nat) (w : world) : world :=
  obj_sink_loop (length (heap_refs w.2)) pos w.

(** Modelled from the spec: [_reheapify(pos)], on references. *)
Definition obj_reheapify (pos : nat) (w : world) : world :=
  obj_swim pos (obj_sink pos w).

(** [_Node(key, value, prio)]: a new object, at a reference the store
    does not hold yet. *)
Definition new_node (node : _Node) (store : gmap nat _Node)
    : gmap nat _Node * nat :=
  (<[fresh (dom store) := node]> store, fresh (dom store)).

(** [__setitem__], on objects. *)
Definition obj_setitem (k : K) (v : V) (w : world) : world * (exn + unit) :=
  match position_dict w.2 !! k with
  | None =>
      let n := length (heap_refs w.2) in
      let '(store, l) := new_node (mk_Node k v (keyfn v)) w.1 in
      (obj_swim n (store, mk_queue_object (heap_refs w.2 ++ [l])
                                          (<[k := n]> (position_dict w.2))),
       inr tt)
  | Some pos =>
      match heap_refs w.2 !! pos with
      | None => (w, inl IndexError)
      | Some l =>
          match w.1 !! l with
          | None => (w, inl IndexError)
          | Some node =>
              (obj_reheapify pos
                 (<[l := mk_Node (key node) v (keyfn v)]> w.1, w.2),
               inr tt)
          end
      end
  end.

(** [__delitem__], on objects: [end is not node_to_delete] compares the
    two references. *)
Definition obj_delitem (k : K) (w : world) : world * (exn + unit) :=
  match position_dict w.2 !! k with
  | None => (w, inl (KeyError (missing_key k)))
  | Some pos =>
      let position := delete k (position_dict w.2) in
      let popped := (w.1, mk_queue_object (heap_refs w.2) position) in
      match heap_refs w.2 !! pos, last (heap_refs w.2) with
      | Some node_to_delete, Some end_ref =>
          let heap := take (length (heap_refs w.2) - 1) (heap_refs w.2) in
          if decide (end_ref = node_to_delete)
          then ((w.1, mk_queue_object heap position), inr tt)
          else
            match w.1 !! end_ref with
            | None => (popped, inl IndexError)
            | Some end_node =>
                (obj_reheapify pos
                   (w.1, mk_queue_object (<[pos := end_ref]> heap)
                                         (<[key end_node := pos]> position)),
                 inr tt)
            end
      | _, _ => (popped, inl IndexError)
      end
  end.

(** [additem], on objects. *)
Definition obj_additem (k : K) (v : V) (w : world) : world * (exn + unit) :=
  if decide (is_Some (position_dict w.2 !! k))
  then (w, inl (KeyError (already_in_the_queue k)))
  else obj_setitem k v w.

(** [updateitem], on objects. *)
Definition obj_updateitem (k : K) (new_val : V) (w : world)
    : world * (exn + unit) :=
  if decide (is_Some (position_dict w.2 !! k))
  then obj_setitem k new_val w
  else (w, inl (KeyError (missing_key k))).

(** [pushpopitem], on objects.  [node = _Node(key, value, prio)] is made
    before anything is tested. *)
Definition obj_pushpopitem (k : K) (v : V) (w : world)
    : world * (exn + K * V) :=
  let '(store, l) := new_node (mk_Node k v (pushpop_prio v)) w.1 in
  if decide (is_Some (position_dict w.2 !! k))
  then ((store, w.2), inl (KeyError (already_in_the_queue k)))
  else
    match heap_refs w.2 with
    | top_ref :: rest =>
        match store !! top_ref with
        | None => ((store, w.2), inl IndexError)
        | Some top =>
            if precedes (prio top) (pushpop_prio v) then
              let position := <[k := 0]> (position_dict w.2) in
              match position !! key top with
              | None =>
                  ((store, mk_queue_object (l :: rest) position),
                   inl (KeyError (missing_key (key top))))
              | Some _ =>
                  (obj_sink 0
                     (store, mk_queue_object (l :: rest)
                                             (delete (key top) position)),
                   inr (key top, value top))
              end
            else ((store, w.2), inr (k, v))
        end
    | [] => ((store, w.2), inr (k, v))
    end.

(** [replace_key], on objects: [heap[pos].key = new_key] writes into the
    node. *)
Definition obj_replace_key (k new_key : K) (w : world)
    : world * (exn + unit) :=
  if decide (is_Some (position_dict w.2 !! new_key))
  then (w, inl (KeyError (already_in_the_queue new_key)))
  else
    match position_dict w.2 !! k with
    | None => (w, inl (KeyError (missing_key k)))
    | Some pos =>
        let position := <[new_key := pos]> (delete k (position_dict w.2)) in
        let moved := (w.1, mk_queue_object (heap_refs w.2) position) in
        match heap_refs w.2 !! pos with
        | None => (moved, inl IndexError)
        | Some l =>
            match w.1 !! l with
            | None => (moved, inl IndexError)
            | Some node =>
                ((<[l := mk_Node new_key (value node) (prio node)]> w.1,
                  mk_queue_object (heap_refs w.2) position),
                 inr tt)
            end
        end
    end.

(** [[_Node(node.key, node.value, node.prio) for node in self._heap]]: a
    new node for every node of the list, in order. *)
Fixpoint copy_nodes (refs : list nat) (store : gmap nat _Node)
    : gmap nat _Node * list nat :=
  match refs with
  | [] => (store, [])
  | l :: refs' =>
      match store !! l with
      | None => copy_nodes refs' store
      | Some node =>
          let '(store1, l') :=
            new_node (mk_Node (key node) (value node) (prio node)) store in
          let '(store2, copies) := copy_nodes refs' store1 in
          (store2, l' :: copies)
      end
  end.

(** [copy]: the store with the new nodes in it, and the new queue object,
    with [self._position.copy()] for its index. *)
Definition obj_copy (w : world) : world :=
  let '(store, copies) := copy_nodes (heap_refs w.2) w.1 in
  (store, mk_queue_object copies (position_dict w.2)).

(** [__getitem__], on objects. *)
Definition obj_getitem (k : K) (w : world) : exn + V :=
  match position_dict w.2 !! k with
  | None => inl (KeyError (missing_key k))
  | Some pos =>
      match node_at w pos with
      | None => inl IndexError
      | Some node => inr (value node)
      end
  end.

(** [topitem], on objects. *)
Definition obj_topitem (w : world) : exn + K * V :=
  match node_at w 0 with
  | None => inl (KeyError pqdict_is_empty)
  | Some node => inr (key node, value node)
  end.

(** The mutating calls, on objects. *)
Definition obj_after (o : operation) (w : world) : world :=
  match o with
  | op_setitem k v => (obj_setitem k v w).1
  | op_delitem k => (obj_delitem k w).1
  | op_additem k v => (obj_additem k v w).1
  | op_updateitem k v => (obj_updateitem k v w).1
  | op_pushpopitem k v => (obj_pushpopitem k v w).1
  | op_replace_key k k' => (obj_replace_key k k' w).1
  | op_getitem _ | op_topitem => w
  end.

(** A run of calls, one after the other, on a queue and on a queue
    object. *)
Definition after_all (ops : list operation) (q : pqdict) : pqdict :=
  foldl (λ q' o, after o q') q ops.

Definition obj_after_all (ops : list operation) (w : world) : world :=
  foldl (λ w' o, obj_after o w') w ops.

(** The queue object [o] in [store] stands for the queue [q]: no node
    object sits at two indices, and index by index the references denote
    the nodes of [q]. *)
Definition stands_for (store : gmap nat _Node) (o : queue_object)
    (q : pqdict) : Prop :=
  NoDup (heap_refs o) ∧
  position_dict o = _position q ∧
  Forall2 (λ l node, store !! l = Some node) (heap_refs o) (_heap q).

(** ** The objects stand for the values *)

Lemma stands_for_length store o q :
  stands_for store o q → length (heap_refs o) = length (_heap q).
Proof. intros (_ & _ & Hnodes). by eapply Forall2_length. Qed.

Lemma stands_for_node_at store o q i :
  stands_for store o q → node_at (store, o) i = _heap q !! i.
Proof.
  intros (_ & _ & Hnodes). unfold node_at. simpl.
  pose proof (proj1 (Forall2_lookup _ _ _) Hnodes i) as Hi.
  destruct Hi as [l node Hl|]; simpl; done.
Qed.

Lemma stands_for_ref store o q i node :
  stands_for store o q → _heap q !! i = Some node →
  ∃ l, heap_refs o !! i = Some l ∧ store !! l = Some node.
Proof.
  intros (_ & _ & Hnodes) Hi.
  destruct (Forall2_lookup_r _ _ _ _ _ Hnodes Hi) as (l & Hl & Hstore). eauto.
Qed.

Lemma stands_for_ref_None store o q i :
  stands_for store o q → _heap q !! i = None → heap_refs o !! i = None.
Proof.
  intros Hq Hi. apply lookup_ge_None. apply lookup_ge_None in Hi.
  by rewrite (stands_for_length _ _ _ Hq).
Qed.

Lemma stands_for_dom store o q l :
  stands_for store o q → l ∈ heap_refs o → l ∈ dom store.
Proof.
  intros (_ & _ & Hnodes) [i Hi]%list_elem_of_lookup.
  destruct (Forall2_lookup_l _ _ _ _ _ Hnodes Hi) as (node & _ & Hstore).
  apply elem_of_dom. eauto.
Qed.

Lemma swapped_Permutation {A} (l : list A) i j a b :
  l !! i = Some a → l !! j = Some b → <[j := a]> (<[i := b]> l) ≡ₚ l.
Proof.
  intros Ha Hb. destruct (decide (i = j)) as [-> | Hij].
  { rewrite list_insert_insert_eq. by rewrite list_insert_id. }
  apply lookup_lt_Some in Ha as Hi. apply lookup_lt_Some in Hb as Hj.
  apply Permutation_inj. split; [by rewrite !length_insert|].
  exists (λ x, if decide (x = j) then i else if decide (x = i) then j else x).
  split.
  - intros x y. repeat case_decide; intros; simplify_eq; done.
  - intros x. destruct (decide (x = j)) as [-> | Hxj].
    + rewrite list_lookup_insert_eq; [done | by rewrite length_insert].
    + rewrite list_lookup_insert_ne by done.
      destruct (decide (x = i)) as [-> | Hxi].
      * by rewrite list_lookup_insert_eq.
      * by rewrite list_lookup_insert_ne.
Qed.

(** A step that moves references about in the array and leaves the store
    alone. *)
Definition rearranged (w w' : world) : Prop :=
  w'.1 = w.1 ∧ heap_refs w'.2 ≡ₚ heap_refs w.2.

(** A step of a queue that keeps to itself: it leaves alone every node of
    the store that is not one of its own, and the references it comes to
    hold are its own or new ones. *)
Definition keeps_to_itself (w w' : world) : Prop :=
  (∀ l, l ∈ dom w.1 → l ∉ heap_refs w.2 → w'.1 !! l = w.1 !! l) ∧
  (∀ l, l ∈ heap_refs w'.2 → l ∈ heap_refs w.2 ∨ l ∉ dom w.1).

Lemma rearranged_refl w : rearranged w w.
Proof. by split. Qed.

Lemma rearranged_trans w1 w2 w3 :
  rearranged w1 w2 → rearranged w2 w3 → rearranged w1 w3.
Proof. intros [H1 H2] [H3 H4]. split; [congruence | by rewrite H4]. Qed.

Lemma obj_swap_stands_for i j w q :
  stands_for w.1 w.2 q →
  stands_for (obj_swap i j w).1 (obj_swap i j w).2 (swap_nodes i j q) ∧
  rearranged w (obj_swap i j w).
Proof.
  intros Hq. unfold obj_swap, swap_nodes.
  destruct w as [store o]. simpl in *.
  rewrite !(stands_for_node_at store o q) by done.
  destruct (_heap q !! i) as [a|] eqn:Ha.
  2:{ rewrite (stands_for_ref_None _ _ _ _ Hq Ha). split; [done|].
      apply rearranged_refl. }
  destruct (stands_for_ref _ _ _ _ _ Hq Ha) as (la & Hla & Hsa). rewrite Hla.
  destruct (_heap q !! j) as [b|] eqn:Hb.
  2:{ rewrite (stands_for_ref_None _ _ _ _ Hq Hb). split; [done|].
      apply rearranged_refl. }
  destruct (stands_for_ref _ _ _ _ _ Hq Hb) as (lb & Hlb & Hsb). rewrite Hlb.
  simpl. destruct Hq as (Hnd & Hpos & Hnodes).
  pose proof (swapped_Permutation _ _ _ _ _ Hla Hlb) as Hperm.
  split; [|by split]. split_and!; simpl.
  - by rewrite Hperm.
  - by rewrite Hpos.
  - apply Forall2_insert; [by apply Forall2_insert | done].
Qed.

Lemma obj_swim_loop_stands_for fuel pos w q :
  stands_for w.1 w.2 q →
  stands_for (obj_swim_loop fuel pos w).1 (obj_swim_loop fuel pos w).2
             (swim_loop fuel pos q) ∧
  rearranged w (obj_swim_loop fuel pos w).
Proof.
  revert pos w q. induction fuel as [|fuel IH]; intros pos w q Hq; simpl.
  { split; [done | apply rearranged_refl]. }
  case_decide; [split; [done | apply rearranged_refl]|].
  destruct w as [store o].
  rewrite !(stands_for_node_at store o q) by done.
  destruct (_heap q !! pos) as [x|]; [|split; [done | apply rearranged_refl]].
  destruct (_heap q !! parent pos) as [y|];
    [|split; [done | apply rearranged_refl]].
  destruct (precedes (prio x) (prio y));
    [|split; [done | apply rearranged_refl]].
  destruct (obj_swap_stands_for pos (parent pos) (store, o) q Hq) as [Hq' Hr].
  destruct (IH (parent pos) _ _ Hq') as [Hq'' Hr'].
  split; [done | by eapply rearranged_trans].
Qed.

Lemma obj_winning_child_eq pos w q :
  stands_for w.1 w.2 q → obj_winning_child pos w = winning_child pos (_heap q).
Proof.
  intros Hq. unfold obj_winning_child, winning_child. destruct w as [store o].
  by rewrite !(stands_for_node_at store o q).
Qed.

Lemma obj_sink_loop_stands_for fuel pos w q :
  stands_for w.1 w.2 q →
  stands_for (obj_sink_loop fuel pos w).1 (obj_sink_loop fuel pos w).2
             (sink_loop fuel pos q) ∧
  rearranged w (obj_sink_loop fuel pos w).
Proof.
  revert pos w q. induction fuel as [|fuel IH]; intros pos w q Hq; simpl.
  { split; [done | apply rearranged_refl]. }
  rewrite (obj_winning_child_eq pos w q Hq).
  destruct (winning_child pos (_heap q)) as [c|];
    [|split; [done | apply rearranged_refl]].
  destruct w as [store o].
  rewrite !(stands_for_node_at store o q) by done.
  destruct (_heap q !! pos) as [x|]; [|split; [done | apply rearranged_refl]].
  destruct (_heap q !! c) as [y|]; [|split; [done | apply rearranged_refl]].
  destruct (precedes (prio y) (prio x));
    [|split; [done | apply rearranged_refl]].
  destruct (obj_swap_stands_for pos c (store, o) q Hq) as [Hq' Hr].
  destruct (IH c _ _ Hq') as [Hq'' Hr'].
  split; [done | by eapply rearranged_trans].
Qed.

Lemma obj_swim_stands_for pos w q :
  stands_for w.1 w.2 q →
  stands_for (obj_swim pos w).1 (obj_swim pos w).2 (_swim pos q) ∧
  rearranged w (obj_swim pos w).
Proof. apply obj_swim_loop_stands_for. Qed.

Lemma obj_sink_stands_for pos w q :
  stands_for w.1 w.2 q →
  stands_for (obj_sink pos w).1 (obj_sink pos w).2 (_sink pos q) ∧
  rearranged w (obj_sink pos w).
Proof.
  intros Hq. unfold obj_sink, _sink.
  rewrite (stands_for_length _ _ _ Hq). by apply obj_sink_loop_stands_for.
Qed.

Lemma obj_reheapify_stands_for pos w q :
  stands_for w.1 w.2 q →
  stands_for (obj_reheapify pos w).1 (obj_reheapify pos w).2
             (_reheapify pos q) ∧
  rearranged w (obj_reheapify pos w).
Proof.
  intros Hq. unfold obj_reheapify, _reheapify.
  destruct (obj_sink_stands_for pos w q Hq) as [Hq' Hr].
  destruct (obj_swim_stands_for pos _ _ Hq') as [Hq'' Hr'].
  split; [done | by eapply rearranged_trans].
Qed.

Lemma keeps_to_itself_refl w : keeps_to_itself w w.
Proof. split; [done | by left]. Qed.

Lemma keeps_to_itself_rearranged w w1 w2 :
  keeps_to_itself w w1 → rearranged w1 w2 → keeps_to_itself w w2.
Proof.
  intros [Hstore Hrefs] [Hs Hr]. split.
  - intros l ??. rewrite Hs. by apply Hstore.
  - intros l Hl. rewrite Hr in Hl. by apply Hrefs.
Qed.

Lemma fresh_not_ref store o q :
  stands_for store o q → fresh (dom store) ∉ heap_refs o.
Proof.
  intros Hq Hin. apply (is_fresh (dom store)).
  by eapply stands_for_dom.
Qed.

Lemma stands_for_alloc store o q l x :
  stands_for store o q → l ∉ dom store → stands_for (<[l := x]> store) o q.
Proof.
  intros Hq Hl. pose proof Hq as (Hnd & Hpos & Hnodes). split_and!; [done..|].
  apply Forall2_lookup. intros i.
  pose proof (proj1 (Forall2_lookup _ _ _) Hnodes i) as Hi.
  destruct Hi as [l' node Hl'|]; constructor.
  rewrite lookup_insert_ne; [done|]. intros <-. apply Hl.
  apply elem_of_dom. eauto.
Qed.

(** Writing into the node at [pos] changes that entry of the array and no
    other: the node sits at no other index. *)
Lemma stands_for_write store o q pos l x :
  stands_for store o q → heap_refs o !! pos = Some l →
  stands_for (<[l := x]> store) o
             (mk_pqdict (<[pos := x]> (_heap q)) (_position q)).
Proof.
  intros (Hnd & Hpos & Hnodes) Hl. split_and!; [done..|]. simpl.
  apply Forall2_lookup. intros i.
  pose proof (proj1 (Forall2_lookup _ _ _) Hnodes i) as Hi.
  destruct (decide (i = pos)) as [-> | Hne].
  - rewrite Hl in Hi |- *. inversion Hi as [? node ? Heq1 Heq2|]; subst.
    rewrite list_lookup_insert_eq by (by eapply lookup_lt_Some).
    constructor. by rewrite lookup_insert_eq.
  - rewrite list_lookup_insert_ne by done.
    destruct (heap_refs o !! i) as [l'|] eqn:Hri;
      inversion Hi as [? node Hl' Heq1 Heq2|]; constructor.
    rewrite lookup_insert_ne; [done|]. intros <-.
    apply Hne. by eapply NoDup_lookup.
Qed.

(** ** Every method on objects does what the method on values does *)

Lemma obj_setitem_sim k v w q :
  stands_for w.1 w.2 q →
  (obj_setitem k v w).2 = (__setitem__ k v q).2 ∧
  stands_for (obj_setitem k v w).1.1 (obj_setitem k v w).1.2
             (__setitem__ k v q).1 ∧
  keeps_to_itself w (obj_setitem k v w).1.
Proof.
  intros Hq. destruct w as [store o]. simpl in Hq.
  pose proof Hq as (Hnd & Hpos & Hnodes).
  unfold obj_setitem. simpl. rewrite Hpos.
  destruct (_position q !! k) as [pos|] eqn:Hk.
  - destruct (_heap q !! pos) as [node|] eqn:Hnode.
    + destruct (stands_for_ref _ _ _ _ _ Hq Hnode) as (l & Hl & Hs).
      rewrite Hl, Hs. rewrite (setitem_existing _ _ _ _ _ Hk Hnode). simpl.
      pose proof (stands_for_write _ _ _ _ _ (mk_Node (key node) v (keyfn v))
                    Hq Hl) as Hq1.
      destruct (obj_reheapify_stands_for pos
                  (<[l := mk_Node (key node) v (keyfn v)]> store, o) _ Hq1)
        as [Hq2 Hr].
      split_and!; [done..|].
      eapply keeps_to_itself_rearranged; [|done]. split; simpl.
      * intros l' _ Hl'. rewrite lookup_insert_ne; [done|]. intros <-.
        apply Hl'. by eapply list_elem_of_lookup_2.
      * intros l' ?. by left.
    + rewrite (stands_for_ref_None _ _ _ _ Hq Hnode).
      rewrite (setitem_dangling _ _ _ _ Hk Hnode). simpl.
      split_and!; [done..|]. apply keeps_to_itself_refl.
  - rewrite (setitem_new _ _ _ Hk). simpl.
    pose proof (is_fresh (dom store)) as Hfresh.
    pose proof (fresh_not_ref _ _ _ Hq) as Hnotref.
    set (l := fresh (dom store)) in *.
    rewrite (stands_for_length _ _ _ Hq).
    set (w1 := (<[l := mk_Node k v (keyfn v)]> store,
                mk_queue_object (heap_refs o ++ [l])
                                (<[k := length (_heap q)]> (_position q)))).
    assert (stands_for w1.1 w1.2
              (mk_pqdict (_heap q ++ [mk_Node k v (keyfn v)])
                         (<[k := length (_heap q)]> (_position q)))) as Hq1.
    { split_and!; simpl.
      - apply NoDup_app. split_and!; [done| |apply NoDup_singleton].
        by intros x Hx ->%list_elem_of_singleton.
      - done.
      - apply Forall2_app.
        + by apply (stands_for_alloc store o q).
        + constructor; [|constructor]. by rewrite lookup_insert_eq. }
    destruct (obj_swim_stands_for (length (_heap q)) w1 _ Hq1) as [Hq2 Hr].
    split_and!; [done..|].
    eapply keeps_to_itself_rearranged; [|done]. split; simpl.
    + intros l' Hl' _. rewrite lookup_insert_ne; [done|]. by intros <-.
    + intros l' [?| ->%list_elem_of_singleton]%elem_of_app; [by left | by right].
Qed.

Lemma stands_for_last store o q end_node :
  stands_for store o q → last (_heap q) = Some end_node →
  ∃ end_ref, last (heap_refs o) = Some end_ref ∧
             heap_refs o !! (length (_heap q) - 1) = Some end_ref ∧
             store !! end_ref = Some end_node.
Proof.
  intros Hq He. rewrite last_lookup in He.
  replace (pred (length (_heap q))) with (length (_heap q) - 1) in He by lia.
  destruct (stands_for_ref _ _ _ _ _ Hq He) as (l & Hl & Hs).
  exists l. split_and!; [|done..].
  rewrite last_lookup, (stands_for_length _ _ _ Hq).
  by replace (pred (length (_heap q))) with (length (_heap q) - 1) by lia.
Qed.

Lemma obj_delitem_sim k w q :
  stands_for w.1 w.2 q →
  (obj_delitem k w).2 = (__delitem__ k q).2 ∧
  stands_for (obj_delitem k w).1.1 (obj_delitem k w).1.2 (__delitem__ k q).1 ∧
  keeps_to_itself w (obj_delitem k w).1.
Proof.
  intros Hq. destruct w as [store o]. simpl in Hq.
  pose proof Hq as (Hnd & Hpos & Hnodes).
  pose proof (stands_for_length _ _ _ Hq) as Hlen.
  unfold obj_delitem. simpl. rewrite Hpos.
  destruct (_position q !! k) as [pos|] eqn:Hk.
  2:{ rewrite (delitem_missing _ _ Hk). simpl.
      split_and!; [done..|]. apply keeps_to_itself_refl. }
  destruct (_heap q !! pos) as [node|] eqn:Hnode.
  2:{ rewrite (stands_for_ref_None _ _ _ _ Hq Hnode).
      rewrite (delitem_dangling _ _ _ Hk Hnode). simpl.
      split_and!; [done|by split_and!|]. split; simpl; [done | by left]. }
  destruct (stands_for_ref _ _ _ _ _ Hq Hnode) as (l & Hl & Hs).
  rewrite Hl.
  assert (is_Some (last (_heap q))) as [end_node Hend].
  { rewrite last_lookup. apply lookup_lt_is_Some.
    apply lookup_lt_Some in Hnode. lia. }
  destruct (stands_for_last _ _ _ _ Hq Hend) as (end_ref & He & Hel & Hes).
  rewrite He, Hlen.
  assert (pos < length (_heap q)) as Hlt by (by eapply lookup_lt_Some).
  destruct (decide (pos = length (_heap q) - 1)) as [-> | Hne].
  - assert (end_ref = l) as -> by congruence.
    rewrite decide_True by done.
    rewrite (delitem_last _ _ Hk) by (by intros Hnil; rewrite Hnil in Hnode).
    simpl. split_and!; [done| |].
    + split_and!; simpl; [|done|by apply Forall2_take].
      eapply sublist_NoDup; [done | apply sublist_take].
    + split; simpl; [done|].
      intros l' (i & Hi & _)%elem_of_take. left.
      by eapply list_elem_of_lookup_2.
  - assert (end_ref ≠ l) as Hrefne.
    { intros ->. apply Hne. by eapply NoDup_lookup. }
    rewrite decide_False by done. rewrite Hes.
    rewrite (delitem_inner _ _ _ _ _ Hk Hnode Hne Hend). simpl.
    set (w1 := (store,
                mk_queue_object
                  (<[pos := end_ref]> (take (length (_heap q) - 1) (heap_refs o)))
                  (<[key end_node := pos]> (delete k (_position q))))).
    assert (stands_for w1.1 w1.2
              (mk_pqdict
                 (<[pos := end_node]> (take (length (_heap q) - 1) (_heap q)))
                 (<[key end_node := pos]> (delete k (_position q))))) as Hq1.
    { split_and!; simpl; [|done|].
      - apply NoDup_alt. intros i j x.
        rewrite !list_lookup_insert_Some, !lookup_take_Some.
        intros [(<- & <- & _) | (Hi & Hix & Hin)] [(<- & Hx & _) | (Hj & Hjx & Hjn)];
          try done.
        + exfalso. assert (j = length (_heap q) - 1) by (by eapply NoDup_lookup).
          lia.
        + subst x. exfalso.
          assert (i = length (_heap q) - 1) by (by eapply NoDup_lookup). lia.
        + by eapply NoDup_lookup.
      - apply Forall2_insert; [by apply Forall2_take | done]. }
    destruct (obj_reheapify_stands_for pos w1 _ Hq1) as [Hq2 Hr].
    split_and!; [done..|].
    eapply keeps_to_itself_rearranged; [|done]. split; simpl; [done|].
    intros l' [i Hi]%list_elem_of_lookup. left.
    apply list_lookup_insert_Some in Hi
      as [(_ & <- & _) | (_ & [Hi _]%lookup_take_Some)];
      by eapply list_elem_of_lookup_2.
Qed.

Lemma obj_additem_sim k v w q :
  stands_for w.1 w.2 q →
  (obj_additem k v w).2 = (additem k v q).2 ∧
  stands_for (obj_additem k v w).1.1 (obj_additem k v w).1.2 (additem k v q).1 ∧
  keeps_to_itself w (obj_additem k v w).1.
Proof.
  intros Hq. pose proof Hq as (_ & Hpos & _). unfold obj_additem.
  rewrite Hpos. destruct (decide (is_Some (_position q !! k))) as [Hin | Hout].
  - rewrite (additem_present _ _ _ Hin). simpl.
    split_and!; [done..|]. apply keeps_to_itself_refl.
  - rewrite additem_absent by (by apply eq_None_not_Some).
    by apply obj_setitem_sim.
Qed.

Lemma obj_updateitem_sim k v w q :
  stands_for w.1 w.2 q →
  (obj_updateitem k v w).2 = (updateitem k v q).2 ∧
  stands_for (obj_updateitem k v w).1.1 (obj_updateitem k v w).1.2
             (updateitem k v q).1 ∧
  keeps_to_itself w (obj_updateitem k v w).1.
Proof.
  intros Hq. pose proof Hq as (_ & Hpos & _). unfold obj_updateitem.
  rewrite Hpos. destruct (decide (is_Some (_position q !! k))) as [Hin | Hout].
  - rewrite (updateitem_present _ _ _ Hin). by apply obj_setitem_sim.
  - rewrite updateitem_absent by (by apply eq_None_not_Some). simpl.
    split_and!; [done..|]. apply keeps_to_itself_refl.
Qed.

Lemma obj_replace_key_sim k new_key w q :
  stands_for w.1 w.2 q →
  (obj_replace_key k new_key w).2 = (replace_key k new_key q).2 ∧
  stands_for (obj_replace_key k new_key w).1.1 (obj_replace_key k new_key w).1.2
             (replace_key k new_key q).1 ∧
  keeps_to_itself w (obj_replace_key k new_key w).1.
Proof.
  intros Hq. destruct w as [store o]. simpl in Hq.
  pose proof Hq as (Hnd & Hpos & Hnodes).
  unfold obj_replace_key. simpl. rewrite Hpos.
  destruct (decide (is_Some (_position q !! new_key))) as [Hin | Hout].
  { rewrite (replace_key_present _ _ _ Hin). simpl.
    split_and!; [done..|]. apply keeps_to_itself_refl. }
  apply eq_None_not_Some in Hout.
  destruct (_position q !! k) as [pos|] eqn:Hk.
  2:{ rewrite (replace_key_missing _ _ _ Hout Hk). simpl.
      split_and!; [done..|]. apply keeps_to_itself_refl. }
  destruct (_heap q !! pos) as [node|] eqn:Hnode.
  - destruct (stands_for_ref _ _ _ _ _ Hq Hnode) as (l & Hl & Hs).
    rewrite Hl, Hs. rewrite (replace_key_renames _ _ _ _ _ Hout Hk Hnode). simpl.
    split_and!; [done| |].
    + pose proof (stands_for_write _ _ _ _ _
                    (mk_Node new_key (value node) (prio node)) Hq Hl)
        as (? & ? & ?).
      by split_and!.
    + split; simpl; [|by left].
      intros l' _ Hl'. rewrite lookup_insert_ne; [done|]. intros <-.
      apply Hl'. by eapply list_elem_of_lookup_2.
  - rewrite (stands_for_ref_None _ _ _ _ Hq Hnode).
    rewrite (replace_key_dangling _ _ _ _ Hout Hk Hnode). simpl.
    split_and!; [done|by split_and!|]. split; simpl; [done | by left].
Qed.

Lemma obj_pushpopitem_sim k v w q :
  stands_for w.1 w.2 q →
  (obj_pushpopitem k v w).2 = (pushpopitem k v q).2 ∧
  stands_for (obj_pushpopitem k v w).1.1 (obj_pushpopitem k v w).1.2
             (pushpopitem k v q).1 ∧
  keeps_to_itself w (obj_pushpopitem k v w).1.
Proof.
  intros Hq. destruct w as [store o]. simpl in Hq.
  pose proof Hq as (Hnd & Hpos & Hnodes).
  pose proof (is_fresh (dom store)) as Hfresh.
  pose proof (fresh_not_ref _ _ _ Hq) as Hnotref.
  unfold obj_pushpopitem, new_node. simpl.
  set (l := fresh (dom store)) in *.
  set (new := mk_Node k v (pushpop_prio v)).
  pose proof (stands_for_alloc _ _ _ l new Hq Hfresh) as Hq'.
  assert (keeps_to_itself (store, o) (<[l := new]> store, o)) as Hsame.
  { split; simpl; [|by left].
    intros l' Hl' _. rewrite lookup_insert_ne; [done|]. by intros <-. }
  rewrite Hpos. destruct (decide (is_Some (_position q !! k))) as [Hin | Hout].
  { by rewrite (pushpopitem_present _ _ _ Hin). }
  apply eq_None_not_Some in Hout.
  destruct (_heap q) as [|top rest] eqn:Hheap.
  { rewrite (pushpopitem_empty _ _ _ Hout Hheap).
    pose proof (stands_for_length _ _ _ Hq) as Hlen. rewrite Hheap in Hlen.
    destruct (heap_refs o); [done | discriminate]. }
  destruct (heap_refs o) as [|top_ref rest_refs] eqn:Hrefs;
    inversion Hnodes as [|? ? ? ? Htop Hrest]; subst.
  assert (top_ref ≠ l) as Htopne.
  { intros ->. apply Hnotref. left. }
  rewrite lookup_insert_ne by done. rewrite Htop.
  destruct (precedes (prio top) (pushpop_prio v)) eqn:Hp.
  2:{ rewrite (pushpopitem_keep _ _ _ _ _ Hout Hheap Hp).
      done. }
  set (w1 := (<[l := new]> store,
              mk_queue_object (l :: rest_refs) (<[k := 0]> (_position q)))).
  assert (stands_for w1.1 w1.2
            (mk_pqdict (new :: rest) (<[k := 0]> (_position q)))) as Hq1.
  { split_and!; simpl; [|done|].
    - apply NoDup_cons. split; [|by eapply NoDup_cons_1_2].
      intros Hl. apply Hnotref. by right.
    - constructor; [by rewrite lookup_insert_eq|].
      apply Forall2_lookup. intros i.
      pose proof (proj1 (Forall2_lookup _ _ _) Hrest i) as Hi.
      destruct (rest_refs !! i) as [l'|] eqn:Hri;
        inversion Hi as [? node Hl' Heq1 Heq2|]; constructor.
      rewrite lookup_insert_ne; [done|]. intros <-.
      apply Hnotref. right. by eapply list_elem_of_lookup_2. }
  assert (keeps_to_itself (store, o) w1) as Hk1.
  { split; simpl.
    - intros l' Hl' _. rewrite lookup_insert_ne; [done|]. by intros <-.
    - rewrite Hrefs.
      intros l' [-> | Hl']%elem_of_cons; [by right | left; by right]. }
  destruct (<[k := 0]> (_position q) !! key top) as [pos|] eqn:Hkt.
  - rewrite (pushpopitem_evict _ _ _ _ _ Hout Hheap Hp) by (by rewrite Hkt).
    set (w2 := (<[l := new]> store,
                mk_queue_object (l :: rest_refs)
                  (delete (key top) (<[k := 0]> (_position q))))).
    assert (stands_for w2.1 w2.2
              (mk_pqdict (new :: rest)
                         (delete (key top) (<[k := 0]> (_position q)))))
      as Hq2 by (destruct Hq1 as (? & ? & ?); by split_and!).
    destruct (obj_sink_stands_for 0 w2 _ Hq2) as [Hq3 Hr].
    split_and!; [done..|].
    eapply keeps_to_itself_rearranged; [|done].
    destruct Hk1 as [? ?]. by split.
  - by rewrite (pushpopitem_evict_dangling _ _ _ _ _ Hout Hheap Hp Hkt).
Qed.

Lemma obj_getitem_eq k w q :
  stands_for w.1 w.2 q → obj_getitem k w = (__getitem__ k q).2.
Proof.
  intros Hq. destruct w as [store o]. pose proof Hq as (_ & Hpos & _).
  unfold obj_getitem. simpl in *.
  rewrite Hpos. mrun. destruct (_position q !! k) as [pos|]; simpl; [|done].
  rewrite (stands_for_node_at _ _ _ _ Hq). by destruct (_heap q !! pos).
Qed.

Lemma obj_topitem_eq w q :
  stands_for w.1 w.2 q → obj_topitem w = (topitem q).2.
Proof.
  intros Hq. destruct w as [store o].
  unfold obj_topitem. simpl in Hq. rewrite (stands_for_node_at _ _ _ _ Hq).
  mrun. by destruct (_heap q !! 0).
Qed.

Lemma obj_after_sim o w q :
  stands_for w.1 w.2 q →
  stands_for (obj_after o w).1 (obj_after o w).2 (after o q) ∧
  keeps_to_itself w (obj_after o w).
Proof.
  intros Hq. destruct o as [k v|k|k v|k v|k v|k k'|k|]; simpl.
  - by destruct (obj_setitem_sim k v w q Hq) as (_ & ? & ?).
  - by destruct (obj_delitem_sim k w q Hq) as (_ & ? & ?).
  - by destruct (obj_additem_sim k v w q Hq) as (_ & ? & ?).
  - by destruct (obj_updateitem_sim k v w q Hq) as (_ & ? & ?).
  - by destruct (obj_pushpopitem_sim k v w q Hq) as (_ & ? & ?).
  - by destruct (obj_replace_key_sim k k' w q Hq) as (_ & ? & ?).
  - rewrite getitem_state. split; [done | apply keeps_to_itself_refl].
  - rewrite topitem_state. split; [done | apply keeps_to_itself_refl].
Qed.

(** A queue that keeps to itself leaves a queue that shares no node with it
    as it was, and still shares no node with it afterwards. *)
Lemma keeps_to_itself_other w w' o2 q2 :
  keeps_to_itself w w' → stands_for w.1 o2 q2 →
  (∀ l, l ∈ heap_refs w.2 → l ∉ heap_refs o2) →
  stands_for w'.1 o2 q2 ∧ (∀ l, l ∈ heap_refs w'.2 → l ∉ heap_refs o2).
Proof.
  intros [Hstore Hrefs] Hq2 Hdisj. pose proof Hq2 as (Hnd & Hpos & Hnodes).
  split.
  - split_and!; [done..|]. apply Forall2_lookup. intros i.
    pose proof (proj1 (Forall2_lookup _ _ _) Hnodes i) as Hi.
    destruct (heap_refs o2 !! i) as [l|] eqn:Hri;
      inversion Hi as [? node Hl Heq1 Heq2|]; constructor.
    rewrite Hstore; [done| |].
    + apply elem_of_dom. eauto.
    + intros Hin. apply (Hdisj _ Hin). by eapply list_elem_of_lookup_2.
  - intros l Hl Hl2. destruct (Hrefs _ Hl) as [Hin | Hnew].
    + by apply (Hdisj _ Hin).
    + apply Hnew. by eapply stands_for_dom.
Qed.

Lemma obj_after_all_other ops w q o2 q2 :
  stands_for w.1 w.2 q → stands_for w.1 o2 q2 →
  (∀ l, l ∈ heap_refs w.2 → l ∉ heap_refs o2) →
  stands_for (obj_after_all ops w).1 (obj_after_all ops w).2 (after_all ops q) ∧
  stands_for (obj_after_all ops w).1 o2 q2 ∧
  (∀ l, l ∈ heap_refs (obj_after_all ops w).2 → l ∉ heap_refs o2).
Proof.
  revert w q. induction ops as [|o ops IH]; intros w q Hq Hq2 Hdisj; [done|].
  destruct (obj_after_sim o w q Hq) as [Hq' Hkeeps].
  destruct (keeps_to_itself_other _ _ _ _ Hkeeps Hq2 Hdisj) as [Hq2' Hdisj'].
  by apply IH.
Qed.

(** [copy_nodes] makes one new node for each node of the list, equal to it
    field by field, and changes no node that was there. *)
Lemma copy_nodes_spec refs nodes store :
  Forall2 (λ l node, store !! l = Some node) refs nodes →
  (∀ l, l ∈ dom store → (copy_nodes refs store).1 !! l = store !! l) ∧
  Forall2 (λ l node, (copy_nodes refs store).1 !! l = Some node)
          (copy_nodes refs store).2 nodes ∧
  NoDup (copy_nodes refs store).2 ∧
  (∀ l, l ∈ (copy_nodes refs store).2 → l ∉ dom store).
Proof.
  intros Hnodes. revert store Hnodes.
  induction nodes as [|node nodes IH] in refs |- *; intros store Hnodes;
    inversion Hnodes as [|l ? refs' ? Hl Hrest]; subst; simpl.
  { split_and!; [done|constructor|constructor|]. by intros l ?%elem_of_nil. }
  rewrite Hl. unfold new_node.
  pose proof (is_fresh (dom store)) as Hfresh.
  set (f := fresh (dom store)) in *.
  replace (mk_Node (key node) (value node) (prio node)) with node
    by (by destruct node).
  set (store1 := <[f := node]> store).
  assert (∀ l', l' ∈ dom store → store1 !! l' = store !! l') as Hold.
  { intros l' Hl'. unfold store1. rewrite lookup_insert_ne; [done|].
    by intros <-. }
  assert (Forall2 (λ l node, store1 !! l = Some node) refs' nodes) as Hrest1.
  { apply Forall2_lookup. intros i.
    pose proof (proj1 (Forall2_lookup _ _ _) Hrest i) as Hi.
    destruct (refs' !! i) as [l'|] eqn:Hri;
      inversion Hi as [? node' Hl' Heq1 Heq2|]; constructor.
    rewrite Hold; [done|]. apply elem_of_dom. eauto. }
  destruct (IH _ _ Hrest1) as (Hkept & Hcopies & Hnd & Hnew).
  destruct (copy_nodes refs' store1) as [store2 copies] eqn:Hc. simpl in *.
  assert (f ∈ dom store1) as Hf.
  { apply elem_of_dom. unfold store1. rewrite lookup_insert_eq. eauto. }
  split_and!.
  - intros l' Hl'. rewrite Hkept, Hold; [done..|].
    apply elem_of_dom. unfold store1. rewrite lookup_insert_ne.
    + by apply elem_of_dom.
    + by intros <-.
  - constructor; [|done]. rewrite Hkept by done.
    unfold store1. by rewrite lookup_insert_eq.
  - apply NoDup_cons. split; [|done]. intros Hin. by apply (Hnew _ Hin).
  - intros l' [-> | Hin]%elem_of_cons; [done|].
    intros Hl'. apply (Hnew _ Hin).
    apply elem_of_dom. unfold store1. rewrite lookup_insert_ne.
    + by apply elem_of_dom.
    + by intros <-.
Qed.

Lemma obj_copy_spec w q :
  stands_for w.1 w.2 q →
  stands_for (obj_copy w).1 (obj_copy w).2 q ∧
  stands_for (obj_copy w).1 w.2 q ∧
  (∀ l, l ∈ heap_refs (obj_copy w).2 → l ∉ heap_refs w.2).
Proof.
  intros Hq. pose proof Hq as (Hnd & Hpos & Hnodes).
  destruct (copy_nodes_spec _ _ _ Hnodes) as (Hkept & Hcopies & Hndc & Hnew).
  unfold obj_copy.
  destruct (copy_nodes (heap_refs w.2) w.1) as [store copies]. simpl in *.
  split_and!.
  - by split_and!.
  - split_and!; [done..|]. apply Forall2_lookup. intros i.
    pose proof (proj1 (Forall2_lookup _ _ _) Hnodes i) as Hi.
    destruct (heap_refs w.2 !! i) as [l|] eqn:Hri;
      inversion Hi as [? node Hl Heq1 Heq2|]; constructor.
    rewrite Hkept; [done|]. apply elem_of_dom. eauto.
  - intros l Hl Hin. apply (Hnew _ Hl). by eapply stands_for_dom.
Qed.

(** X20.  Working on node objects gives what working on values gives.  In
    a store where a queue object stands for the queue [q] (index by index
    its references denote the nodes of [q], and no node object sits at two
    indices), every method returns or raises on the object what it returns
    or raises on [q], and leaves an object that stands for the queue it
    leaves of [q]: the writes into a node ([heap[pos].value = value],
    [heap[pos].key = new_key]) change that entry of the list and no other,
    and [end is not node_to_delete] holds exactly when the deleted node is
    not the last of the list. *)
Theorem objects_do_as_values w q :
  stands_for w.1 w.2 q →
  (∀ o, stands_for (obj_after o w).1 (obj_after o w).2 (after o q)) ∧
  (∀ k v, (obj_setitem k v w).2 = (__setitem__ k v q).2) ∧
  (∀ k, (obj_delitem k w).2 = (__delitem__ k q).2) ∧
  (∀ k v, (obj_additem k v w).2 = (additem k v q).2) ∧
  (∀ k v, (obj_updateitem k v w).2 = (updateitem k v q).2) ∧
  (∀ k v, (obj_pushpopitem k v w).2 = (pushpopitem k v q).2) ∧
  (∀ k k', (obj_replace_key k k' w).2 = (replace_key k k' q).2) ∧
  (∀ k, obj_getitem k w = (__getitem__ k q).2) ∧
  obj_topitem w = (topitem q).2.
Proof.
  intros Hq. split_and!.
  - intros o. by apply obj_after_sim.
  - intros k v. by apply obj_setitem_sim.
  - intros k. by apply obj_delitem_sim.
  - intros k v. by apply obj_additem_sim.
  - intros k v. by apply obj_updateitem_sim.
  - intros k v. by apply obj_pushpopitem_sim.
  - intros k k'. by apply obj_replace_key_sim.
  - intros k. by apply obj_getitem_eq.
  - by apply obj_topitem_eq.
Qed.

(** X21.  [copy] gives a queue with the same items and its own nodes: the
    new queue object stands for the same queue as the one copied, the one
    copied still stands for it, and no node object is in both. *)
Theorem copy_same_items_own_nodes w q :
  stands_for w.1 w.2 q →
  stands_for (obj_copy w).1 (obj_copy w).2 q ∧
  stands_for (obj_copy w).1 w.2 q ∧
  (∀ l, l ∈ heap_refs (obj_copy w).2 → l ∉ heap_refs w.2).
Proof. apply obj_copy_spec. Qed.

(** X22.  A copy and its original are independent.  After [c = q.copy()],
    whatever calls are made on [c], in any number, [q] still holds what it
    held, and [c] holds what [q] would hold after the same calls; and the
    other way round, calls on [q] leave [c] holding what [q] held when it
    was copied. *)
Theorem copy_is_independent ops w q :
  stands_for w.1 w.2 q →
  (stands_for (obj_after_all ops (obj_copy w)).1
              (obj_after_all ops (obj_copy w)).2 (after_all ops q) ∧
   stands_for (obj_after_all ops (obj_copy w)).1 w.2 q) ∧
  (stands_for (obj_after_all ops ((obj_copy w).1, w.2)).1
              (obj_after_all ops ((obj_copy w).1, w.2)).2 (after_all ops q) ∧
   stands_for (obj_after_all ops ((obj_copy w).1, w.2)).1 (obj_copy w).2 q).
Proof.
  intros Hq. destruct (obj_copy_spec w q Hq) as (Hc & Ho & Hdisj). split.
  - destruct (obj_after_all_other ops (obj_copy w) q w.2 q Hc Ho Hdisj)
      as (? & ? & _). done.
  - destruct (obj_after_all_other ops ((obj_copy w).1, w.2) q (obj_copy w).2 q
                Ho Hc) as (? & ? & _); [|done].
    intros l Hl Hl'. by apply (Hdisj _ Hl').
Qed.

End Queue.

(** * A queue of integers under [lt]

    The default configuration: string keys, integer values, no priority-key
    function (the priority is the value itself) and [precedes = lt]. *)

Definition lt_precedes : Z → Z → bool := Z.ltb.
Definition value_itself : Z → Z := λ v, v.

(** [pqdict(data)]: the constructor runs [self.update(data)], that is
    [self[key] = value] for each pair in turn. *)
Definition pqdict_of (tie_right : bool) (data : list (string * Z))
    : @pqdict string Z Z _ _ :=
  foldl (λ q kv, fst (__setitem__ value_itself lt_precedes tie_right kv.1 kv.2 q))
        empty_pqdict data.

(** The items of the array, in array order. *)
Definition items (q : @pqdict string Z Z _ _) : list (string * Z) :=
  item_of <$> _heap q.

Lemma lt_priority_order : priority_order lt_precedes.
Proof.
  unfold lt_precedes. split.
  - intros x. apply Z.ltb_irrefl.
  - intros x y z ?%Z.ltb_lt ?%Z.ltb_lt. apply Z.ltb_lt. lia.
  - intros x y z ?%Z.ltb_ge ?%Z.ltb_ge. apply Z.ltb_ge. lia.
Qed.

(** ** The scenarios of the specification *)

Example scenario_top :
  snd (topitem (pqdict_of false [("a", 5); ("b", 2); ("c", 8)]%Z))
  = inr ("b", 2%Z).
Proof. vm_compute. reflexivity. Qed.

Example scenario_delete_then_top :
  snd (topitem (fst (__delitem__ lt_precedes false "b"
                       (pqdict_of false [("a", 5); ("b", 2); ("c", 8)]%Z))))
  = inr ("a", 5%Z).
Proof. vm_compute. reflexivity. Qed.

Example scenario_pushpop_unchanged :
  let q := pqdict_of false [("a", 5); ("c", 8)]%Z in
  pushpopitem value_itself lt_precedes false "d" 1%Z q = (q, inr ("d", 1%Z)).
Proof. vm_compute. reflexivity. Qed.

Example scenario_pushpop_evicts :
  let q := pqdict_of false [("a", 5); ("c", 8)]%Z in
  snd (pushpopitem value_itself lt_precedes false "e" 9%Z q) = inr ("a", 5%Z) ∧
  items (fst (pushpopitem value_itself lt_precedes false "e" 9%Z q))
  = [("c", 8); ("e", 9)]%Z.
Proof. vm_compute. split; reflexivity. Qed.

Example scenario_additem_twice :
  let q := pqdict_of false [("x", 1%Z)] in
  additem value_itself lt_precedes false "x" 2%Z q
  = (q, inl (KeyError (already_in_the_queue "x"))) ∧
  items q = [("x", 1%Z)].
Proof. vm_compute. split; reflexivity. Qed.

Example scenario_replace_key :
  let q := fst (replace_key "c" "z"
                  (pqdict_of false [("a", 5); ("b", 2); ("c", 8)]%Z)) in
  snd (__getitem__ "z" q) = inr 8%Z ∧
  snd (__getitem__ "c" q) = inl (KeyError (missing_key "c")).
Proof. vm_compute. split; reflexivity. Qed.

(** ** The general results at work on given queues *)

Definition queue_a : @pqdict string Z Z _ _ := pqdict_of false [("a", 5%Z)].
Definition queue_ac : @pqdict string Z Z _ _ :=
  pqdict_of false [("a", 5); ("c", 8)]%Z.
Definition queue_abc : @pqdict string Z Z _ _ :=
  pqdict_of false [("a", 5); ("b", 2); ("c", 8)]%Z.
Definition queue_tied (tie_right : bool) : @pqdict string Z Z _ _ :=
  pqdict_of tie_right [("a", 1); ("b", 1); ("c", 1)]%Z.
Definition queue_152 (tie_right : bool) : @pqdict string Z Z _ _ :=
  pqdict_of tie_right [("a", 1); ("b", 5); ("c", 2)]%Z.

(** Queues under a priority-key function: [pqdict({"a": 5, "c": 8}, key=neg)]
    and [pqdict({"a": 5}, key=neg)], for a callable [neg] that negates. *)
Definition neg : Z → Z := Z.opp.
Definition queue_neg : @pqdict string Z Z _ _ :=
  update neg lt_precedes false [("a", 5); ("c", 8)]%Z empty_pqdict.
Definition queue_neg_a : @pqdict string Z Z _ _ :=
  update neg lt_precedes false [("a", 5)]%Z empty_pqdict.

Lemma queue_ac_consistent : index_consistent queue_ac.
Proof. apply index_consistentb_sound. vm_compute. reflexivity. Qed.

Lemma queue_ac_ordered : heap_ordered lt_precedes (_heap queue_ac).
Proof. apply heap_orderedb_sound. vm_compute. reflexivity. Qed.

Lemma queue_abc_consistent : index_consistent queue_abc.
Proof. apply index_consistentb_sound. vm_compute. reflexivity. Qed.

Lemma queue_abc_ordered : heap_ordered lt_precedes (_heap queue_abc).
Proof. apply heap_orderedb_sound. vm_compute. reflexivity. Qed.

Lemma queue_abc_no_ties : no_ties lt_precedes (_heap queue_abc).
Proof.
  intros i j ni nj Hij Hi Hj.
  destruct i as [|[|[|i]]]; destruct j as [|[|[|j]]];
    vm_compute in Hi, Hj; simplify_eq; vm_compute; auto.
Qed.

(** C1 at work: [pushpopitem("e", 9)] on [{a: 5, c: 8}] evicts [("a", 5)]. *)
Lemma pushpopitem_behaviour_witness :
  pushpopitem value_itself lt_precedes false "e" 9%Z queue_ac
  = (_sink lt_precedes false 0
       (mk_pqdict [mk_Node "e" 9%Z 9%Z; mk_Node "c" 8%Z 8%Z]
                  (delete "a" (<["e" := 0]> (_position queue_ac)))),
     inr ("a", 5%Z)).
Proof.
  apply (pushpopitem_behaviour value_itself lt_precedes false "e" 9%Z queue_ac).
  - apply index_consistentb_sound. vm_compute. reflexivity.
  - vm_compute. reflexivity.
Defined.

(** C3 at work: after [additem("b", 1)] on [{a: 5, c: 8}] the new root
    is not preceded by its left child. *)
Lemma heap_order_preserved_witness :
  _heap (after value_itself value_itself lt_precedes false (op_additem "b" 1%Z) queue_ac) !! 0
    = Some (mk_Node "b" 1%Z 1%Z) ∧
  _heap (after value_itself value_itself lt_precedes false (op_additem "b" 1%Z) queue_ac) !! 1
    = Some (mk_Node "c" 8%Z 8%Z) ∧
  lt_precedes (prio (mk_Node "c" 8%Z 8%Z : @_Node string Z Z))
              (prio (mk_Node "b" 1%Z 1%Z : @_Node string Z Z)) = false.
Proof.
  assert (_heap (after value_itself value_itself lt_precedes false (op_additem "b" 1%Z)
                   queue_ac) !! 0 = Some (mk_Node "b" 1%Z 1%Z)) as H0
    by (vm_compute; reflexivity).
  assert (_heap (after value_itself value_itself lt_precedes false (op_additem "b" 1%Z)
                   queue_ac) !! 1 = Some (mk_Node "c" 8%Z 8%Z)) as H1
    by (vm_compute; reflexivity).
  split; [exact H0|]. split; [exact H1|].
  apply (heap_order_preserved value_itself value_itself lt_precedes false lt_priority_order
           (op_additem "b" 1%Z) queue_ac queue_ac_consistent queue_ac_ordered
           0 1 _ _ (or_introl eq_refl) H0 H1).
Defined.

(** C4 at work: the index of [{a: 5, b: 2, c: 8}] after deleting ["b"]. *)
Lemma index_consistency_preserved_witness :
  (∀ k pos,
     _position (after value_itself value_itself lt_precedes false (op_delitem "b") queue_abc)
       !! k = Some pos →
     ∃ node,
       _heap (after value_itself value_itself lt_precedes false (op_delitem "b") queue_abc)
         !! pos = Some node ∧ key node = k) ∧
  (∀ k,
     k ∈ dom (_position (after value_itself value_itself lt_precedes false (op_delitem "b")
                           queue_abc))
     ↔ k ∈ key <$> _heap (after value_itself value_itself lt_precedes false
                            (op_delitem "b") queue_abc)) ∧
  NoDup (key <$> _heap (after value_itself value_itself lt_precedes false (op_delitem "b")
                          queue_abc)) ∧
  index_consistent (after value_itself value_itself lt_precedes false (op_delitem "b")
                      queue_abc).
Proof.
  apply (index_consistency_preserved value_itself value_itself lt_precedes false
           (op_delitem "b") queue_abc).
  apply index_consistentb_sound. vm_compute. reflexivity.
Defined.

(** C5 at work: draining [{a: 5, b: 2, c: 8}]. *)
Lemma drain_in_priority_order_witness :
  ∃ nodes,
    drain lt_precedes false queue_abc = (empty_pqdict, inr (item_of <$> nodes)) ∧
    nodes ≡ₚ _heap queue_abc ∧
    StronglySorted (λ a b, lt_precedes (prio b) (prio a) = false) nodes.
Proof.
  apply (drain_in_priority_order lt_precedes false lt_priority_order queue_abc).
  - apply index_consistentb_sound. vm_compute. reflexivity.
  - apply heap_orderedb_sound. vm_compute. reflexivity.
Defined.

Example drain_abc :
  snd (drain lt_precedes false queue_abc)
  = inr [("b", 2); ("a", 5); ("c", 8)]%Z.
Proof. vm_compute. reflexivity. Qed.

(** C2 at work: [pushpopitem("e", 9)] against insert-then-remove-top on
    [{a: 5, c: 8}], where the top [5] strictly precedes [9]. *)
Lemma pushpopitem_additem_pop_witness :
  ∃ q1 q2 item,
    pushpopitem value_itself lt_precedes false "e" 9%Z queue_ac
      = (q1, inr item) ∧
    additem_then_pop_top value_itself lt_precedes false "e" 9%Z queue_ac
      = (q2, inr item) ∧
    _heap q1 ≡ₚ _heap q2 ∧
    index_consistent q1 ∧ index_consistent q2 ∧
    heap_ordered lt_precedes (_heap q1) ∧ heap_ordered lt_precedes (_heap q2) ∧
    ∀ k', snd (__getitem__ k' q1) = snd (__getitem__ k' q2).
Proof.
  apply (pushpopitem_additem_pop value_itself value_itself lt_precedes false
           lt_priority_order "e" 9%Z queue_ac).
  - apply index_consistentb_sound. vm_compute. reflexivity.
  - apply heap_orderedb_sound. vm_compute. reflexivity.
  - vm_compute. reflexivity.
  - reflexivity.
  - left. vm_compute. reflexivity.
Defined.

(** C2 fails as stated.  On [{a: 5}], [pushpopitem("b", 5)] ties with the
    top: it gives back [("b", 5)] and keeps ["a"], while insert-then-
    remove-top gives back [("a", 5)] and keeps ["b"].  And without a tie,
    on [{a: 1, b: 5, c: 2}] with [("d", 3)], both evict [("a", 1)] but
    leave the arrays in different orders.  Either way of breaking ties in
    [_sink] gives the same.  And under a callable [key=neg] that is false,
    on [{a: 5}] with [("b", 9)], [pushpopitem] takes the priority [9] and
    gives back [("a", 5)], while insert-then-remove-top takes [-9] and
    gives back [("b", 9)]. *)
Lemma pushpopitem_additem_pop_counterexample :
  (pushpopitem value_itself lt_precedes false "b" 5%Z queue_a
     = (queue_a, inr ("b", 5%Z)) ∧
   snd (additem_then_pop_top value_itself lt_precedes false "b" 5%Z queue_a)
     = inr ("a", 5%Z) ∧
   items (fst (additem_then_pop_top value_itself lt_precedes false "b" 5%Z
                 queue_a)) = [("b", 5%Z)] ∧
   snd (additem_then_pop_top value_itself lt_precedes true "b" 5%Z queue_a)
     = inr ("a", 5%Z)) ∧
  (items (fst (pushpopitem value_itself lt_precedes false "d" 3%Z
                 (queue_152 false)))
     = [("c", 2); ("b", 5); ("d", 3)]%Z ∧
   items (fst (additem_then_pop_top value_itself lt_precedes false "d" 3%Z
                 (queue_152 false)))
     = [("c", 2); ("d", 3); ("b", 5)]%Z ∧
   items (fst (pushpopitem value_itself lt_precedes true "d" 3%Z
                 (queue_152 true)))
     = [("c", 2); ("b", 5); ("d", 3)]%Z ∧
   items (fst (additem_then_pop_top value_itself lt_precedes true "d" 3%Z
                 (queue_152 true)))
     = [("c", 2); ("d", 3); ("b", 5)]%Z) ∧
  (_heap queue_neg_a = [mk_Node "a" 5 (-5)]%Z ∧
   snd (pushpopitem value_itself lt_precedes false "b" 9%Z queue_neg_a)
     = inr ("a", 5%Z) ∧
   snd (additem_then_pop_top neg lt_precedes false "b" 9%Z queue_neg_a)
     = inr ("b", 9%Z)).
Proof. vm_compute. repeat split. Qed.

(** C6 at work: deleting ["b"] from [{a: 5, b: 2, c: 8}], where it sits
    at the root with value [2]. *)
Lemma delitem_returns_nothing_witness :
  __getitem__ "b" queue_abc = (queue_abc, inr 2%Z) ∧
  ∃ q', __delitem__ lt_precedes false "b" queue_abc = (q', inr tt) ∧
        mk_Node "b" 2%Z 2%Z :: _heap q' ≡ₚ _heap queue_abc ∧
        _position q' !! "b" = None ∧ index_consistent q'.
Proof.
  apply (delitem_returns_nothing lt_precedes false "b" queue_abc 0
           (mk_Node "b" 2%Z 2%Z)).
  - apply index_consistentb_sound. vm_compute. reflexivity.
  - vm_compute. reflexivity.
  - vm_compute. reflexivity.
Defined.

(** C6 fails as stated.  Deleting ["b"], stored with value [2], from
    [{a: 5, b: 2, c: 8}] gives back [None], not [("b", 2)]; so does deleting
    ["a"], stored with value [5].  The value is what [q["b"]] reads
    before the deletion. *)
Lemma delitem_returns_pair_counterexample :
  snd (__getitem__ "b" queue_abc) = inr 2%Z ∧
  snd (__delitem__ lt_precedes false "b" queue_abc) = inr tt ∧
  snd (__delitem__ lt_precedes true "b" queue_abc) = inr tt ∧
  snd (__getitem__ "a" queue_abc) = inr 5%Z ∧
  snd (__delitem__ lt_precedes false "a" queue_abc) = inr tt.
Proof. vm_compute. repeat split. Qed.

(** C7 at work: adding ["k"] with value [0] to [{a: 5, b: 2, c: 8}], where
    no two entries tie, and deleting it again gives the queue back. *)
Lemma additem_delitem_round_trip_witness :
  additem_then_delitem value_itself lt_precedes false "k" 0%Z queue_abc
  = (queue_abc, inr tt).
Proof.
  assert (_position queue_abc !! "k" = None) as Hk by (vm_compute; reflexivity).
  destruct (additem_delitem_round_trip value_itself lt_precedes false
              lt_priority_order "k" 0%Z queue_abc
              queue_abc_consistent queue_abc_ordered Hk)
    as (q' & Hrun & _ & _ & _ & _ & Hexact).
  rewrite Hrun. f_equal. exact (Hexact queue_abc_no_ties).
Defined.

(** C7 fails as stated.  [{a: 1, b: 1, c: 1}] is the array [a, b, c];
    adding ["k"] with value [0] and deleting it again leaves the array
    [b, a, c], with ["a"] and ["b"] at exchanged indices, whichever way
    ties are broken in [_sink]. *)
Lemma additem_delitem_round_trip_counterexample :
  (items (queue_tied false) = [("a", 1); ("b", 1); ("c", 1)]%Z ∧
   _position (queue_tied false) !! "a" = Some 0 ∧
   items (fst (additem_then_delitem value_itself lt_precedes false "k" 0%Z
                 (queue_tied false)))
     = [("b", 1); ("a", 1); ("c", 1)]%Z ∧
   _position (fst (additem_then_delitem value_itself lt_precedes false "k" 0%Z
                     (queue_tied false))) !! "a" = Some 1) ∧
  (items (queue_tied true) = [("a", 1); ("b", 1); ("c", 1)]%Z ∧
   _position (queue_tied true) !! "a" = Some 0 ∧
   items (fst (additem_then_delitem value_itself lt_precedes true "k" 0%Z
                 (queue_tied true)))
     = [("b", 1); ("a", 1); ("c", 1)]%Z ∧
   _position (fst (additem_then_delitem value_itself lt_precedes true "k" 0%Z
                     (queue_tied true))) !! "a" = Some 1).
Proof. vm_compute. repeat split. Qed.

(** C8 at work: renaming ["c"] to ["z"] in [{a: 5, b: 2, c: 8}], where
    ["c"] sits at index 2. *)
Lemma replace_key_in_place_witness :
  ∃ q',
    replace_key "c" "z" queue_abc = (q', inr tt) ∧
    _position q' = <["z" := 2]> (delete "c" (_position queue_abc)) ∧
    _heap q' !! 2 = Some (mk_Node "z" 8%Z 8%Z) ∧
    __getitem__ "z" q' = (q', inr 8%Z) ∧
    _position q' !! "c" = None ∧ ("c" ∉ key <$> _heap q') ∧
    length (_heap q') = length (_heap queue_abc) ∧
    (∀ i, i ≠ 2 → _heap q' !! i = _heap queue_abc !! i) ∧
    value <$> _heap q' = value <$> _heap queue_abc ∧
    prio <$> _heap q' = prio <$> _heap queue_abc.
Proof.
  apply (replace_key_in_place "c" "z" queue_abc 2 (mk_Node "c" 8%Z 8%Z)).
  - apply index_consistentb_sound. vm_compute. reflexivity.
  - vm_compute. reflexivity.
  - vm_compute. reflexivity.
  - vm_compute. reflexivity.
Defined.

(** C9 at work: the second [additem("x", ...)] of the scenario. *)
Lemma additem_KeyAlreadyExists_witness :
  additem value_itself lt_precedes false "x" 2%Z (pqdict_of false [("x", 1%Z)])
  = (pqdict_of false [("x", 1%Z)], inl (KeyError (already_in_the_queue "x"))).
Proof.
  apply (proj1 (proj2 (additem_KeyAlreadyExists value_itself lt_precedes false
                         "x" 2%Z (pqdict_of false [("x", 1%Z)])))
           (KeyError (already_in_the_queue "x"))).
  vm_compute. reflexivity.
Defined.

(** C10 at work: on [{a: 5, b: 2, c: 8}], renaming ["c"] to itself, and
    renaming the absent ["y"] to the present ["c"]. *)
Lemma replace_key_checks_new_key_first_witness :
  replace_key "c" "c" queue_abc
    = (queue_abc, inl (KeyError (already_in_the_queue "c"))) ∧
  replace_key "y" "c" queue_abc
    = (queue_abc, inl (KeyError (already_in_the_queue "c"))).
Proof.
  assert (is_Some (_position queue_abc !! "c")) as Hc
    by (exists 2; vm_compute; reflexivity).
  assert (_position queue_abc !! "y" = None) as Hy
    by (vm_compute; reflexivity).
  destruct (replace_key_checks_new_key_first "y" "c" queue_abc Hc)
    as [Hself Hother].
  split; [exact Hself | exact (Hother Hy)].
Defined.

(** * Construction

    [pqdict.__init__] and [fromkeys], for integer values and priorities,
    where [lt] and [gt] are the order of the integers. *)

Definition gt_precedes : Z → Z → bool := Z.gtb.

(** The three [ValueError]s of [__init__]. *)
Inductive ValueError : Type :=
  | reverse_and_custom_precedes
  | key_must_be_callable
  | precedes_must_be_callable.

(** What the caller may pass as [key]: [None], a callable, or some other
    object. *)
Inductive key_argument : Type :=
  | key_None
  | key_callable (f : Z → Z)
  | key_not_callable.

(** What the caller may pass as [precedes]: the function [operator.lt]
    (the default), the function [operator.gt], some other callable, or an
    object that is not callable.  [precedes == lt] holds of [operator.lt]
    only. *)
Inductive precedes_argument : Type :=
  | operator_lt
  | operator_gt
  | precedes_callable (f : Z → Z → bool)
  | precedes_not_callable.

Definition callable (precedes : precedes_argument) : option (Z → Z → bool) :=
  match precedes with
  | operator_lt => Some lt_precedes
  | operator_gt => Some gt_precedes
  | precedes_callable f => Some f
  | precedes_not_callable => None
  end.

(** A [pqdict] object: its policy attributes and its heap and index. *)
Record instance : Type := mk_instance {
  _keyfn : option (Z → Z);
  _precedes : Z → Z → bool;
  _queue : @pqdict string Z Z _ _
}.

(** The [keyfn] property:
    [self._keyfn if self._keyfn is not None else lambda x: x]. *)
Definition keyfn (self : instance) : Z → Z :=
  match _keyfn self with
  | Some f => f
  | None => λ x, x
  end.

(** [__init__(data, key, reverse, precedes)]. *)
Definition __init__ (tie_right : bool) (data : option (list (string * Z)))
    (key : key_argument) (reverse : bool) (precedes : precedes_argument)
    : ValueError + instance :=
  let checked_reverse :=
    if reverse then
      match precedes with
      | operator_lt => inr operator_gt
      | _ => inl reverse_and_custom_precedes
      end
    else inr precedes in
  match checked_reverse with
  | inl e => inl e
  | inr precedes =>
      match key with
      | key_not_callable => inl key_must_be_callable
      | _ =>
          let keyfn_attr :=
            match key with key_callable f => Some f | _ => None end in
          match callable precedes with
          | None => inl precedes_must_be_callable
          | Some precedes_fn =>
              let self := mk_instance keyfn_attr precedes_fn empty_pqdict in
              match data with
              | None => inr self
              | Some pairs =>
                  inr (mk_instance keyfn_attr precedes_fn
                         (update (keyfn self) precedes_fn tie_right pairs
                                 empty_pqdict))
              end
          end
      end
  end.

(** [fromkeys(iterable, value, **kwargs)]:
    [cls(((k, value) for k in iterable), **kwargs)]. *)
Definition fromkeys (tie_right : bool) (iterable : list string) (value : Z)
    (key : key_argument) (reverse : bool) (precedes : precedes_argument)
    : ValueError + instance :=
  __init__ tie_right (Some ((λ k, (k, value)) <$> iterable)) key reverse
           precedes.

Lemma gt_priority_order : priority_order gt_precedes.
Proof.
  unfold gt_precedes. split.
  - intros x. rewrite Z.gtb_ltb. apply Z.ltb_irrefl.
  - intros x y z. rewrite !Z.gtb_ltb. intros ?%Z.ltb_lt ?%Z.ltb_lt.
    apply Z.ltb_lt. lia.
  - intros x y z. rewrite !Z.gtb_ltb. intros ?%Z.ltb_ge ?%Z.ltb_ge.
    apply Z.ltb_ge. lia.
Qed.

(** What a successful [__init__] has stored. *)
Lemma init_returns tie_right data key reverse precedes self :
  __init__ tie_right data key reverse precedes = inr self →
  key ≠ key_not_callable ∧
  _keyfn self = match key with key_callable f => Some f | _ => None end ∧
  callable (if reverse then operator_gt else precedes) = Some (_precedes self) ∧
  (reverse = true → precedes = operator_lt) ∧
  _queue self = update (keyfn self) (_precedes self) tie_right
                       (default [] data) empty_pqdict.
Proof.
  unfold __init__. intros Hinit.
  destruct reverse, precedes, key, data; simplify_eq/=; done.
Qed.

(** X15. A queue that [__init__] has built, under a comparator that is a
    strict weak order: it is index-consistent and in heap order, every
    stored priority is the priority key of the stored value, every key of
    [data] reads the value of its last pair in [data], and every other
    key raises [KeyError]. *)
Theorem init_builds_queue tie_right data key reversed precedes self :
  __init__ tie_right data key reversed precedes = inr self →
  priority_order (_precedes self) →
  index_consistent (_queue self) ∧
  heap_ordered (_precedes self) (_heap (_queue self)) ∧
  prio_coherent (keyfn self) (_queue self) ∧
  ∀ k, snd (__getitem__ k (_queue self)) =
       match (list_to_map (reverse (default [] data)) : gmap string Z) !! k with
       | Some v => inr v
       | None => inl (KeyError (missing_key k))
       end.
Proof.
  intros Hinit Hord.
  destruct (init_returns _ _ _ _ _ _ Hinit) as (_ & _ & _ & _ & ->).
  destruct (update_last_value_wins (keyfn self) (_precedes self) tie_right Hord
              (default [] data) empty_pqdict)
    as (Hic & Ho & Hread);
    [apply index_consistent_empty | apply heap_ordered_nil |].
  split_and!; [done..| |done].
  apply update_prio_coherent; [apply index_consistent_empty | by constructor].
Qed.

(** X16. [reverse=True] goes with the default comparator only: with any
    other [precedes], [operator.gt] and objects that are not callable
    included, [__init__] raises the [ValueError] for "both reverse and a
    custom precedes", whatever [key] is.  With the default it builds a
    queue ordered by [gt]: the top item has a priority that no stored
    priority exceeds. *)
Theorem init_reverse tie_right data key precedes :
  match precedes with
  | operator_lt =>
      ∀ self, __init__ tie_right data key true precedes = inr self →
        _precedes self = gt_precedes ∧
        ∀ k v, topitem (_queue self) = (_queue self, inr (k, v)) →
               ∀ node, node ∈ _heap (_queue self) →
                       (prio node ≤ keyfn self v)%Z
  | _ => __init__ tie_right data key true precedes
         = inl reverse_and_custom_precedes
  end.
Proof.
  destruct precedes; try done. intros self Hinit.
  destruct (init_returns _ _ _ _ _ _ Hinit) as (_ & _ & [= Hp] & _ & _).
  split; [done|].
  assert (priority_order (_precedes self)) as Hord
    by (rewrite <- Hp; apply gt_priority_order).
  destruct (init_builds_queue _ _ _ _ _ _ Hinit Hord) as (_ & Ho & Hco & _).
  pose proof (topitem_highest_priority (_precedes self) Hord (_queue self) Ho)
    as Htop.
  intros k v Hk node Hnode.
  destruct (_heap (_queue self)) as [|top rest] eqn:Hh.
  { by apply elem_of_nil in Hnode. }
  destruct Htop as [Heq Hmin]. rewrite Heq in Hk. injection Hk as <- <-.
  specialize (Hmin node Hnode). rewrite <- Hp in Hmin.
  unfold gt_precedes in Hmin. rewrite Z.gtb_ltb in Hmin.
  apply Z.ltb_ge in Hmin.
  unfold prio_coherent in Hco. rewrite Hh in Hco.
  apply Forall_cons in Hco as [<- _]. done.
Qed.

(** X17. A queue that [fromkeys(iterable, value)] has built, under a
    comparator that is a strict weak order: every key of [iterable] reads
    [value], and every other key raises [KeyError]. *)
Theorem fromkeys_reads_value tie_right iterable value key reversed precedes
    self :
  fromkeys tie_right iterable value key reversed precedes = inr self →
  priority_order (_precedes self) →
  ∀ k, snd (__getitem__ k (_queue self)) =
       if bool_decide (k ∈ iterable) then inr value
       else inl (KeyError (missing_key k)).
Proof.
  intros Hinit Hord k.
  destruct (init_builds_queue _ _ _ _ _ _ Hinit Hord) as (_ & _ & _ & ->).
  simpl.
  destruct (list_to_map (reverse ((λ k0, (k0, value)) <$> iterable)) !! k)
    as [v|] eqn:Hk.
  - apply elem_of_list_to_map_2 in Hk. rewrite elem_of_reverse in Hk.
    apply list_elem_of_fmap in Hk as (k' & [= -> ->] & Hin).
    by rewrite bool_decide_eq_true_2.
  - apply not_elem_of_list_to_map_2 in Hk.
    rewrite bool_decide_eq_false_2; [done|]. intros Hin. apply Hk.
    apply list_elem_of_fmap. exists (k, value). split; [done|].
    rewrite elem_of_reverse. apply list_elem_of_fmap. by exists k.
Qed.

(** ** The mapping interface at work on [{a: 5, b: 2, c: 8}] *)

Lemma queue_abc_coherent : prio_coherent value_itself queue_abc.
Proof. unfold prio_coherent. vm_compute. repeat constructor. Qed.

(** X1 at work: [len] of the three-entry queue. *)
Lemma len_counts_keys_witness :
  __len__ queue_abc = (queue_abc, inr (size (_position queue_abc))).
Proof. exact (len_counts_keys queue_abc queue_abc_consistent). Defined.

(** X2 at work: iterating over the three-entry queue. *)
Lemma iter_yields_each_key_once_witness :
  NoDup (__iter__ queue_abc) ∧
  (∀ k, k ∈ __iter__ queue_abc ↔ __contains__ k queue_abc = (queue_abc, inr true)) ∧
  __len__ queue_abc = (queue_abc, inr (length (__iter__ queue_abc))) ∧
  (∀ k v, topitem queue_abc = (queue_abc, inr (k, v)) →
          head (__iter__ queue_abc) = Some k).
Proof. exact (iter_yields_each_key_once queue_abc queue_abc_consistent). Defined.

(** X3 at work: reading the present key ["a"]. *)
Lemma getitem_iff_contains_witness :
  __contains__ "a" queue_abc = (queue_abc, inr true) ∧
  ∃ node, node ∈ _heap queue_abc ∧ key node = "a" ∧
          __getitem__ "a" queue_abc = (queue_abc, inr (value node)).
Proof. exact (getitem_iff_contains "a" queue_abc queue_abc_consistent). Defined.

(** X4 at work: assigning [1] to the new key ["d"]. *)
Lemma setitem_then_getitem_witness :
  ∃ q',
    __setitem__ value_itself lt_precedes false "d" 1%Z queue_abc = (q', inr tt) ∧
    __getitem__ "d" q' = (q', inr 1%Z) ∧
    (∀ k', k' ≠ "d" →
           snd (__getitem__ k' q') = snd (__getitem__ k' queue_abc)) ∧
    length (_heap q') =
      (if decide (is_Some (_position queue_abc !! "d"))
       then length (_heap queue_abc) else S (length (_heap queue_abc))) ∧
    index_consistent q'.
Proof.
  exact (setitem_then_getitem value_itself lt_precedes false "d" 1%Z queue_abc
           queue_abc_consistent).
Defined.

(** X5 at work: updating the present key ["c"] to [1]. *)
Lemma updateitem_updates_witness :
  ∃ q',
    updateitem value_itself lt_precedes false "c" 1%Z queue_abc = (q', inr tt) ∧
    __getitem__ "c" q' = (q', inr 1%Z) ∧
    (∀ k', k' ≠ "c" →
           snd (__getitem__ k' q') = snd (__getitem__ k' queue_abc)) ∧
    length (_heap q') = length (_heap queue_abc) ∧
    dom (_position q') = dom (_position queue_abc) ∧
    index_consistent q'.
Proof.
  exact (updateitem_updates value_itself lt_precedes false "c" 1%Z queue_abc
           queue_abc_consistent).
Defined.

(** X6 at work: deleting the present key ["a"]. *)
Lemma delitem_frame_witness :
  ∃ q',
    __delitem__ lt_precedes false "a" queue_abc = (q', inr tt) ∧
    __contains__ "a" q' = (q', inr false) ∧
    __getitem__ "a" q' = (q', inl (KeyError (missing_key "a"))) ∧
    (∀ k', k' ≠ "a" →
           snd (__getitem__ k' q') = snd (__getitem__ k' queue_abc)) ∧
    S (length (_heap q')) = length (_heap queue_abc).
Proof.
  exact (delitem_frame lt_precedes false "a" queue_abc queue_abc_consistent).
Defined.

(** X7 at work: the top of the three-entry queue is [("b", 2)]. *)
Lemma topitem_highest_priority_witness :
  topitem queue_abc = (queue_abc, inr ("b", 2%Z)) ∧
  ∀ node, node ∈ _heap queue_abc →
          lt_precedes (prio node) (prio (mk_Node "b" 2%Z 2%Z)) = false.
Proof.
  exact (topitem_highest_priority lt_precedes lt_priority_order queue_abc
           queue_abc_ordered).
Defined.

Example queue_neg_nodes :
  _heap queue_neg = [mk_Node "c" 8 (-8); mk_Node "a" 5 (-5)]%Z ∧
  _heap queue_neg_a = [mk_Node "a" 5 (-5)]%Z.
Proof. vm_compute. done. Qed.

Lemma queue_neg_coherent : prio_coherent neg queue_neg.
Proof.
  apply update_prio_coherent; [apply index_consistent_empty | by constructor].
Qed.

(** X8 at work: [pushpopitem("d", 1)] on [pqdict({"a": 5, "c": 8}, key=neg)],
    where [neg] is a function and so true: [("c", 8)] comes out and ["d"]
    is stored with priority [-1]. *)
Lemma prio_is_keyfn_of_value_witness :
  index_consistent
    (after neg neg lt_precedes false (op_pushpopitem "d" 1%Z) queue_neg) ∧
  Forall (λ node, prio node = neg (value node))
    (_heap (after neg neg lt_precedes false (op_pushpopitem "d" 1%Z)
                  queue_neg)).
Proof.
  apply (prio_is_keyfn_of_value neg neg lt_precedes false
           (op_pushpopitem "d" 1%Z) queue_neg).
  - apply index_consistentb_sound. vm_compute. reflexivity.
  - exact queue_neg_coherent.
  - reflexivity.
Defined.

Example pushpopitem_neg :
  pushpopitem neg lt_precedes false "d" 1%Z queue_neg
  = (mk_pqdict [mk_Node "a" 5 (-5); mk_Node "d" 1 (-1)]%Z
               (_position (after neg neg lt_precedes false
                                 (op_pushpopitem "d" 1%Z) queue_neg)),
     inr ("c", 8%Z)).
Proof. vm_compute. reflexivity. Qed.

(** X23 at work: [pushpopitem("b", 9)] on [pqdict({"a": 5}, key=neg)] for
    a callable [neg] that is false: the priority taken is [9], the value
    itself, so [("a", 5)] comes out and ["b"] is stored with priority [9],
    where [__setitem__] stores [-9]. *)
Lemma pushpopitem_prio_differs_witness :
  ∃ q', pushpopitem value_itself lt_precedes false "b" 9%Z queue_neg_a
          = (q', inr ("a", 5%Z)) ∧
        mk_Node "b" 9%Z 9%Z ∈ _heap q' ∧
        ¬ prio_coherent neg q'.
Proof.
  apply (pushpopitem_prio_differs neg value_itself lt_precedes false
           "b" 9%Z queue_neg_a (mk_Node "a" 5 (-5))%Z []).
  - apply index_consistentb_sound. vm_compute. reflexivity.
  - vm_compute. reflexivity.
  - vm_compute. reflexivity.
  - vm_compute. reflexivity.
  - vm_compute. discriminate.
Defined.

(** The same pair put in by [additem] gets the priority [-9], goes to the
    top, and is the one that comes out. *)
Example additem_then_pop_top_neg :
  fst (additem neg lt_precedes false "b" 9%Z queue_neg_a)
  = mk_pqdict [mk_Node "b" 9 (-9); mk_Node "a" 5 (-5)]%Z
              (_position (fst (additem neg lt_precedes false "b" 9%Z
                                       queue_neg_a))) ∧
  snd (additem_then_pop_top neg lt_precedes false "b" 9%Z queue_neg_a)
  = inr ("b", 9%Z).
Proof. vm_compute. done. Qed.

(** X9 at work: writing [5] back to ["a"]. *)
Lemma setitem_same_value_witness :
  __setitem__ value_itself lt_precedes false "a" 5%Z queue_abc
    = (queue_abc, inr tt) ∧
  updateitem value_itself lt_precedes false "a" 5%Z queue_abc
    = (queue_abc, inr tt).
Proof.
  apply (setitem_same_value value_itself lt_precedes false "a" 5%Z queue_abc
           queue_abc_consistent queue_abc_ordered queue_abc_coherent).
  vm_compute. reflexivity.
Defined.

(** X10 at work: deleting the missing key ["y"]. *)
Lemma failed_call_changes_nothing_witness :
  after value_itself value_itself lt_precedes false (op_delitem "y") queue_abc = queue_abc ∧
  ∃ a, KeyError (missing_key "y") = KeyError a.
Proof.
  apply (failed_call_changes_nothing value_itself value_itself lt_precedes false
           (op_delitem "y") queue_abc (KeyError (missing_key "y"))
           queue_abc_consistent).
  vm_compute. reflexivity.
Defined.

(** X11 at work: [pushpopitem("d", 3)] on the three-entry queue. *)
Lemma pushpopitem_returns_best_witness :
  ∃ q' ret,
    pushpopitem value_itself lt_precedes false "d" 3%Z queue_abc
      = (q', inr (item_of ret)) ∧
    ret :: _heap q' ≡ₚ mk_Node "d" 3%Z (value_itself 3%Z) :: _heap queue_abc ∧
    (∀ node, node ∈ _heap q' → lt_precedes (prio node) (prio ret) = false) ∧
    length (_heap q') = length (_heap queue_abc).
Proof.
  apply (pushpopitem_returns_best value_itself lt_precedes false
           lt_priority_order "d" 3%Z queue_abc
           queue_abc_consistent queue_abc_ordered).
  vm_compute. reflexivity.
Defined.

(** X12 at work: [additem("d", 1)] puts ["d"] on top of the three-entry
    queue. *)
Lemma additem_then_topitem_witness :
  ∃ q',
    additem value_itself lt_precedes false "d" 1%Z queue_abc = (q', inr tt) ∧
    topitem q' = (q', inr ("d", 1%Z)).
Proof.
  apply (additem_then_topitem value_itself lt_precedes false
           lt_priority_order "d" 1%Z queue_abc
           queue_abc_consistent queue_abc_ordered).
  vm_compute. reflexivity.
Defined.

(** X13 at work: renaming ["c"] to ["z"] and back. *)
Lemma replace_key_back_witness :
  ∃ q', replace_key "c" "z" queue_abc = (q', inr tt) ∧
        replace_key "z" "c" q' = (queue_abc, inr tt).
Proof.
  apply (replace_key_back "c" "z" queue_abc queue_abc_consistent).
  - exists 2. vm_compute. reflexivity.
  - vm_compute. reflexivity.
Defined.

(** X14 at work: loading [("a", 7)], [("d", 4)], [("a", 1)] into the
    three-entry queue. *)
Lemma update_last_value_wins_witness :
  index_consistent
    (update value_itself lt_precedes false
            [("a", 7); ("d", 4); ("a", 1)]%Z queue_abc) ∧
  heap_ordered lt_precedes
    (_heap (update value_itself lt_precedes false
                   [("a", 7); ("d", 4); ("a", 1)]%Z queue_abc)) ∧
  ∀ k, snd (__getitem__ k (update value_itself lt_precedes false
                                  [("a", 7); ("d", 4); ("a", 1)]%Z queue_abc)) =
       match (list_to_map (reverse [("a", 7); ("d", 4); ("a", 1)]%Z)
                : gmap string Z) !! k with
       | Some v => inr v
       | None => snd (__getitem__ k queue_abc)
       end.
Proof.
  exact (update_last_value_wins value_itself lt_precedes false
           lt_priority_order [("a", 7); ("d", 4); ("a", 1)]%Z queue_abc
           queue_abc_consistent queue_abc_ordered).
Defined.

Example update_reads :
  let q := update value_itself lt_precedes false
                  [("a", 7); ("d", 4); ("a", 1)]%Z queue_abc in
  snd (__getitem__ "a" q) = inr 1%Z ∧ snd (__getitem__ "d" q) = inr 4%Z ∧
  snd (__getitem__ "b" q) = inr 2%Z ∧ snd (topitem q) = inr ("a", 1%Z).
Proof. vm_compute. repeat split. Qed.

(** ** Construction at work *)

Definition built_reversed : instance :=
  mk_instance None gt_precedes
    (update value_itself gt_precedes false
            [("a", 5); ("b", 2); ("c", 8)]%Z empty_pqdict).

Lemma built_reversed_init :
  __init__ false (Some [("a", 5); ("b", 2); ("c", 8)]%Z) key_None true
           operator_lt
  = inr built_reversed.
Proof. reflexivity. Qed.

(** X15 at work: [pqdict({a: 5, b: 2, c: 8}, reverse=True)]. *)
Lemma init_builds_queue_witness :
  index_consistent (_queue built_reversed) ∧
  heap_ordered gt_precedes (_heap (_queue built_reversed)) ∧
  prio_coherent (keyfn built_reversed) (_queue built_reversed) ∧
  ∀ k, snd (__getitem__ k (_queue built_reversed)) =
       match (list_to_map (reverse [("a", 5); ("b", 2); ("c", 8)]%Z)
                : gmap string Z) !! k with
       | Some v => inr v
       | None => inl (KeyError (missing_key k))
       end.
Proof.
  exact (init_builds_queue false (Some [("a", 5); ("b", 2); ("c", 8)]%Z)
           key_None true operator_lt built_reversed built_reversed_init
           gt_priority_order).
Defined.

(** X16 at work: in the reversed queue the top is [("c", 8)], and no
    stored priority exceeds [8]. *)
Lemma init_reverse_witness :
  _precedes built_reversed = gt_precedes ∧
  ∀ node, node ∈ _heap (_queue built_reversed) → (prio node ≤ 8)%Z.
Proof.
  destruct (init_reverse false (Some [("a", 5); ("b", 2); ("c", 8)]%Z)
              key_None operator_lt built_reversed built_reversed_init)
    as [Hp Hmax].
  split; [exact Hp|].
  apply (Hmax "c" 8%Z). vm_compute. reflexivity.
Defined.

Example init_reverse_with_gt :
  __init__ false None key_None true operator_gt
  = inl reverse_and_custom_precedes.
Proof. reflexivity. Qed.

(** X17 at work: [fromkeys(["a", "b", "a"], 0)] read at ["b"]. *)
Lemma fromkeys_reads_value_witness :
  ∃ self,
    fromkeys false ["a"; "b"; "a"] 0%Z key_None false operator_lt = inr self ∧
    snd (__getitem__ "b" (_queue self)) = inr 0%Z.
Proof.
  eexists. split; [reflexivity|].
  exact (fromkeys_reads_value false ["a"; "b"; "a"] 0%Z key_None false
           operator_lt _ eq_refl lt_priority_order "b").
Defined.

(** X18 at work: updating ["c"] to [1] in the three-entry queue. *)
Lemma setitem_to_the_top_witness :
  ∃ q', __setitem__ value_itself lt_precedes false "c" 1%Z queue_abc
          = (q', inr tt) ∧
        topitem q' = (q', inr ("c", 1%Z)).
Proof.
  apply (setitem_to_the_top value_itself lt_precedes false lt_priority_order
           "c" 1%Z queue_abc queue_abc_consistent queue_abc_ordered).
  intros node [i Hi]%list_elem_of_lookup Hkey.
  destruct i as [|[|[|i]]]; vm_compute in Hi; simplify_eq;
    first [reflexivity | exfalso; apply Hkey; reflexivity].
Defined.

(** X19 at work: the queue left by [additem("a", 5)], a failed
    [additem("a", 6)] and [pushpopitem("b", 7)], under [key=neg] for a
    function [neg]. *)
Lemma reachable_invariants_witness :
  index_consistent
    (after neg neg lt_precedes false (op_pushpopitem "b" 7%Z)
       (after neg neg lt_precedes false (op_additem "a" 6%Z)
          (after neg neg lt_precedes false (op_additem "a" 5%Z)
             empty_pqdict))) ∧
  heap_ordered lt_precedes
    (_heap (after neg neg lt_precedes false (op_pushpopitem "b" 7%Z)
              (after neg neg lt_precedes false (op_additem "a" 6%Z)
                 (after neg neg lt_precedes false (op_additem "a" 5%Z)
                    empty_pqdict)))) ∧
  prio_coherent neg
    (after neg neg lt_precedes false (op_pushpopitem "b" 7%Z)
       (after neg neg lt_precedes false (op_additem "a" 6%Z)
          (after neg neg lt_precedes false (op_additem "a" 5%Z)
             empty_pqdict))).
Proof.
  destruct (reachable_invariants neg neg lt_precedes false lt_priority_order
              (after neg neg lt_precedes false (op_pushpopitem "b" 7%Z)
                 (after neg neg lt_precedes false (op_additem "a" 6%Z)
                    (after neg neg lt_precedes false (op_additem "a" 5%Z)
                       empty_pqdict))))
    as (Hic & Ho & Hco).
  - repeat apply reachable_after. apply reachable_empty.
  - split; [exact Hic|]. split; [exact Ho|]. apply Hco. reflexivity.
Defined.

(** ** A queue among objects

    The three-entry queue as objects: [pqdict()] and the three
    assignments, each of them making a node. *)
Definition empty_world : @world string Z Z _ _ := (∅, mk_queue_object [] ∅).

Definition world_of (data : list (string * Z)) : @world string Z Z _ _ :=
  foldl (λ w kv, (obj_setitem value_itself lt_precedes false kv.1 kv.2 w).1)
        empty_world data.

Definition world_abc : @world string Z Z _ _ :=
  world_of [("a", 5); ("b", 2); ("c", 8)]%Z.

(** The nodes are made in the order of the assignments; the list holds
    them in array order. *)
Example world_abc_objects :
  heap_refs world_abc.2 = [1; 0; 2] ∧
  world_abc.1 !! 0 = Some (mk_Node "a" 5 5)%Z ∧
  world_abc.1 !! 1 = Some (mk_Node "b" 2 2)%Z ∧
  world_abc.1 !! 2 = Some (mk_Node "c" 8 8)%Z.
Proof. vm_compute. done. Qed.

Lemma world_abc_stands_for : stands_for world_abc.1 world_abc.2 queue_abc.
Proof.
  split_and!.
  - replace (heap_refs world_abc.2) with [1; 0; 2] by (vm_compute; reflexivity).
    apply (bool_decide_unpack _). vm_compute. reflexivity.
  - vm_compute. reflexivity.
  - replace (heap_refs world_abc.2) with [1; 0; 2] by (vm_compute; reflexivity).
    replace (_heap queue_abc)
      with [mk_Node "b" 2 2; mk_Node "a" 5 5; mk_Node "c" 8 8]%Z
      by (vm_compute; reflexivity).
    repeat constructor.
Qed.

(** X20 at work, on the three-entry queue. *)
Lemma objects_do_as_values_witness :
  (∀ o, stands_for (obj_after value_itself value_itself lt_precedes false o world_abc).1
                   (obj_after value_itself value_itself lt_precedes false o world_abc).2
                   (after value_itself value_itself lt_precedes false o queue_abc)) ∧
  (∀ k v, (obj_setitem value_itself lt_precedes false k v world_abc).2 =
          (__setitem__ value_itself lt_precedes false k v queue_abc).2) ∧
  (∀ k, (obj_delitem lt_precedes false k world_abc).2 =
        (__delitem__ lt_precedes false k queue_abc).2) ∧
  (∀ k v, (obj_additem value_itself lt_precedes false k v world_abc).2 =
          (additem value_itself lt_precedes false k v queue_abc).2) ∧
  (∀ k v, (obj_updateitem value_itself lt_precedes false k v world_abc).2 =
          (updateitem value_itself lt_precedes false k v queue_abc).2) ∧
  (∀ k v, (obj_pushpopitem value_itself lt_precedes false k v world_abc).2 =
          (pushpopitem value_itself lt_precedes false k v queue_abc).2) ∧
  (∀ k k', (obj_replace_key k k' world_abc).2 =
           (replace_key k k' queue_abc).2) ∧
  (∀ k, obj_getitem k world_abc = (__getitem__ k queue_abc).2) ∧
  obj_topitem world_abc = (topitem queue_abc).2.
Proof.
  apply (objects_do_as_values value_itself value_itself lt_precedes false
           world_abc queue_abc world_abc_stands_for).
Defined.

(** X21 at work: the copy of the three-entry queue. *)
Lemma copy_same_items_own_nodes_witness :
  stands_for (obj_copy world_abc).1 (obj_copy world_abc).2 queue_abc ∧
  stands_for (obj_copy world_abc).1 world_abc.2 queue_abc ∧
  (∀ l, l ∈ heap_refs (obj_copy world_abc).2 → l ∉ heap_refs world_abc.2).
Proof.
  apply (copy_same_items_own_nodes world_abc queue_abc world_abc_stands_for).
Defined.

(** The copy holds three new nodes, in the same array order. *)
Example copy_objects :
  heap_refs (obj_copy world_abc).2 = [3; 4; 5] ∧
  (obj_copy world_abc).1 !! 3 = Some (mk_Node "b" 2 2)%Z ∧
  (obj_copy world_abc).1 !! 4 = Some (mk_Node "a" 5 5)%Z ∧
  (obj_copy world_abc).1 !! 5 = Some (mk_Node "c" 8 8)%Z ∧
  position_dict (obj_copy world_abc).2 = position_dict world_abc.2.
Proof. vm_compute. done. Qed.

(** The calls [c["b"] = 9], [del c["a"]], [c.replace_key("c", "z")]. *)
Definition three_calls : list (@operation string Z) :=
  [op_setitem "b" 9%Z; op_delitem "a"; op_replace_key "c" "z"].

(** X22 at work: the three calls made on the copy, and made on the
    original. *)
Lemma copy_is_independent_witness :
  (stands_for
     (obj_after_all value_itself value_itself lt_precedes false three_calls
                    (obj_copy world_abc)).1
     (obj_after_all value_itself value_itself lt_precedes false three_calls
                    (obj_copy world_abc)).2
     (after_all value_itself value_itself lt_precedes false three_calls queue_abc) ∧
   stands_for
     (obj_after_all value_itself value_itself lt_precedes false three_calls
                    (obj_copy world_abc)).1
     world_abc.2 queue_abc) ∧
  (stands_for
     (obj_after_all value_itself value_itself lt_precedes false three_calls
                    ((obj_copy world_abc).1, world_abc.2)).1
     (obj_after_all value_itself value_itself lt_precedes false three_calls
                    ((obj_copy world_abc).1, world_abc.2)).2
     (after_all value_itself value_itself lt_precedes false three_calls queue_abc) ∧
   stands_for
     (obj_after_all value_itself value_itself lt_precedes false three_calls
                    ((obj_copy world_abc).1, world_abc.2)).1
     (obj_copy world_abc).2 queue_abc).
Proof.
  apply (copy_is_independent value_itself value_itself lt_precedes false three_calls
           world_abc queue_abc world_abc_stands_for).
Defined.

(** After the three calls on the copy, the original reads as before and
    the copy reads anew. *)
Example copy_then_three_calls :
  let c := obj_after_all value_itself value_itself lt_precedes false three_calls
                         (obj_copy world_abc) in
  obj_getitem "b" (c.1, world_abc.2) = inr 2%Z ∧
  obj_getitem "a" (c.1, world_abc.2) = inr 5%Z ∧
  obj_getitem "c" (c.1, world_abc.2) = inr 8%Z ∧
  obj_getitem "b" c = inr 9%Z ∧
  obj_getitem "a" c = inl (KeyError (missing_key "a")) ∧
  obj_getitem "z" c = inr 8%Z.
Proof. vm_compute. done. Qed.
